(** * The publication catalogue's query pipeline (client/src/pages/Home.tsx)

    A shallow embedding of the pure part of the [Home] page: the name
    normalisation used to reconcile the best-sellers list with the
    catalogue, the filter predicate, the turnaround-time parser and the
    sort comparator, followed by the properties the specification states
    about them.

    Conventions.
    - A JavaScript string is a list of code units.  The model covers the
      code units 0..255 (Latin-1), one [ascii] each; on that range
      [toLowerCase], [trim] and the regular-expression classes below are
      exactly what ECMAScript prescribes.
    - A JavaScript number is a rational ([Q]) where the source compares
      prices.  The result of [parseInt] is a [number]: the double nearest
      to the integer written, which is that integer below 2^53, and
      [Infinity] beyond the range of the doubles.
    - [Array.prototype.sort] is the runtime's: ECMAScript 2019 requires it
      to be stable, so with a consistent comparator its result is the one
      stable arrangement, computed here by insertion. *)

From Stdlib Require Import List Bool Arith ZArith QArith Lia.
From Stdlib Require Import Ascii String DecimalString.
From Stdlib Require Import Sorting.Sorted Sorting.Permutation.
Import ListNotations.

Local Close Scope Q_scope.
Local Open Scope list_scope.
Local Open Scope bool_scope.

(** ** Strings *)

Module JS.

Definition jsstring : Type := list ascii.

(** String literals of the source. *)
Definition js (s : string) : jsstring := list_ascii_of_string s.

Definition code (c : ascii) : N := N_of_ascii c.

Definition between (lo hi : N) (c : ascii) : bool :=
  (lo <=? code c)%N && (code c <=? hi)%N.

(** The character classes of the regular expressions: [[a-z]], [[A-Z]],
    [\d] (which is [[0-9]]), [[^a-z0-9]] and [\s]. *)
Definition is_lower (c : ascii) : bool := between 97 122 c.
Definition is_upper (c : ascii) : bool := between 65 90 c.
Definition is_digit (c : ascii) : bool := between 48 57 c.
Definition is_alnum (c : ascii) : bool := is_lower c || is_digit c.
Definition not_alnum (c : ascii) : bool := negb (is_alnum c).

(** White space of [\s] and of [trim]: TAB, LF, VT, FF, CR, SP and NBSP. *)
Definition is_space (c : ascii) : bool :=
  between 9 13 c || (code c =? 32)%N || (code c =? 160)%N.

Definition space : ascii := " "%char.
Definition amp : ascii := "&"%char.

(** [toLowerCase] on one code unit: A-Z, and the Latin-1 capitals
    U+00C0..U+00DE except the multiplication sign U+00D7. *)
Definition lower_char (c : ascii) : ascii :=
  if is_upper c || (between 192 222 c && negb (code c =? 215)%N)
  then ascii_of_N (code c + 32)
  else c.

Definition toLowerCase (s : jsstring) : jsstring := map lower_char s.

(** [trim]: white space dropped at both ends. *)
Fixpoint trimStart (s : jsstring) : jsstring :=
  match s with
  | [] => []
  | c :: r => if is_space c then trimStart r else s
  end.

Fixpoint trimEnd (s : jsstring) : jsstring :=
  match s with
  | [] => []
  | c :: r =>
      match trimEnd r with
      | [] => if is_space c then [] else [c]
      | r' => c :: r'
      end
  end.

Definition trim (s : jsstring) : jsstring := trimEnd (trimStart s).

(** [s.replace(/([a-z])([A-Z])/g, "$1 $2")]: the scan goes left to right;
    where a lower-case letter is followed by a capital both are consumed
    and written back with a space between them, otherwise one code unit
    is copied. *)
Fixpoint splitCamel (s : jsstring) : jsstring :=
  match s with
  | [] => []
  | a :: t =>
      match t with
      | [] => [a]
      | b :: r =>
          if is_lower a && is_upper b
          then a :: space :: b :: splitCamel r
          else a :: splitCamel t
      end
  end.

(** [s.replace(/&/g, "and")]. *)
Definition replaceAmp (s : jsstring) : jsstring :=
  flat_map (fun c => if Ascii.eqb c amp then js "and" else [c]) s.

(** [s.replace(/[cls]+/g, " ")]: every maximal run of code units of the
    class [p] becomes one space.  [inrun] says that the previous code unit
    belonged to a run that has already been replaced. *)
Fixpoint replaceRuns (p : ascii -> bool) (inrun : bool) (s : jsstring)
  : jsstring :=
  match s with
  | [] => []
  | c :: r =>
      if p c
      then (if inrun then replaceRuns p true r
            else space :: replaceRuns p true r)
      else c :: replaceRuns p false r
  end.

(** [String.prototype.includes]: [t] occurs in [s] as a substring. *)
Fixpoint startsWith (s t : jsstring) : bool :=
  match t, s with
  | [], _ => true
  | _ :: _, [] => false
  | y :: t', x :: s' => Ascii.eqb x y && startsWith s' t'
  end.

Fixpoint includes (s t : jsstring) : bool :=
  startsWith s t ||
  match s with
  | [] => false
  | _ :: r => includes r t
  end.

(** [===] on strings. *)
Fixpoint str_eqb (s t : jsstring) : bool :=
  match s, t with
  | [], [] => true
  | x :: s', y :: t' => Ascii.eqb x y && str_eqb s' t'
  | _, _ => false
  end.

(** [<] on strings: lexicographic on the code units, a proper prefix
    first. *)
Fixpoint str_ltb (s t : jsstring) : bool :=
  match s, t with
  | _, [] => false
  | [], _ :: _ => true
  | x :: s', y :: t' =>
      (code x <? code y)%N || ((code x =? code y)%N && str_ltb s' t')
  end.

(** [Array.prototype.includes] on an array of strings. *)
Definition arr_includes (l : list jsstring) (x : jsstring) : bool :=
  existsb (fun y => str_eqb y x) l.

End JS.
Import JS.

(** ** Name normalisation (Home.tsx, [normalizeName]) *)

Definition normalizeName (s : jsstring) : jsstring :=
  trim
    (replaceRuns is_space false
       (replaceRuns not_alnum false
          (replaceAmp (toLowerCase (trim (splitCamel s)))))).

(** ** Turnaround time (Home.tsx, [parseTAT] inside the sort comparator) *)

(** [lower.match(/\d+/)]: the leftmost maximal run of decimal digits, or
    [null]. *)
Fixpoint takeDigits (s : jsstring) : jsstring :=
  match s with
  | [] => []
  | c :: r => if is_digit c then c :: takeDigits r else []
  end.

Fixpoint matchDigits (s : jsstring) : option jsstring :=
  match s with
  | [] => None
  | c :: r => if is_digit c then Some (c :: takeDigits r) else matchDigits r
  end.

(** The numbers of [parseTAT]: whole numbers that are doubles, and
    [Infinity]. *)
Inductive number : Type :=
| Finite (z : Z)
| Infinity.

(** The double nearest to a whole number [n >= 0].  Below 2^53 that is [n].
    From there on a double holds 53 significant bits: [q] is made of the
    leading 53 bits of [n], [r] is what the bits below them are worth, and
    [n] goes to the nearer of [q * 2^e] and [(q + 1) * 2^e], to the one
    with the even significand when it lies half way.  What reaches 2^1024
    is [Infinity]. *)
Definition nearestDouble (n : Z) : number :=
  if (n <? 2 ^ 53)%Z then Finite n
  else
    let e := (Z.log2 n - 52)%Z in
    let q := Z.shiftr n e in
    let r := (n - Z.shiftl q e)%Z in
    let half := Z.shiftl 1 (e - 1) in
    let q' := if (half <? r)%Z || ((r =? half)%Z && Z.odd q)
              then (q + 1)%Z else q in
    let v := Z.shiftl q' e in
    if (v <? 2 ^ 1024)%Z then Finite v else Infinity.

(** The integer a run of decimal digits writes. *)
Definition digitVal (c : ascii) : Z := Z.of_N (code c) - 48.

Definition digitsValue (ds : jsstring) : Z :=
  fold_left (fun acc c => 10 * acc + digitVal c)%Z ds 0%Z.

(** [parseInt] of a run of decimal digits: the Number for the integer
    written.  (ECMAScript lets an implementation read the digits after the
    twentieth as zeros; V8, SpiderMonkey and JavaScriptCore round the
    whole run to the nearest double, as here.) *)
Definition parseInt (ds : jsstring) : number :=
  nearestDouble (digitsValue ds).

(** [x * k] for a constant [k > 0]: the product is rounded to a double
    again. *)
Definition times (x : number) (k : Z) : number :=
  match x with
  | Finite z => nearestDouble (z * k)
  | Infinity => Infinity
  end.

Definition parseTAT (tat : jsstring) : number :=
  match tat with
  | [] => Finite 999
  | _ :: _ =>
      let lower := toLowerCase tat in
      if includes lower (js "day") then
        match matchDigits lower with
        | Some nums => parseInt nums
        | None => Finite 1
        end
      else if includes lower (js "week") then
        match matchDigits lower with
        | Some nums => times (parseInt nums) 7
        | None => Finite 7
        end
      else if includes lower (js "month") then
        match matchDigits lower with
        | Some nums => times (parseInt nums) 30
        | None => Finite 30
        end
      else Finite 999
  end.

(** ** The catalogue *)

Record Publication : Type := mkPublication {
  id : Z;
  name : jsstring;
  image : jsstring;
  genres : list jsstring;
  price : Q;
  da : Z;
  tat : jsstring;
  region : jsstring;
  sponsored : bool;
  indexed : bool;
  do_follow : bool;
  example_image : bool;
  niches : list jsstring;
  type : jsstring;
  lifespan : jsstring;
  mention_type : jsstring;
  status : jsstring;
  has_image : bool
}.

(** The vocabularies of the [filters] object. *)
Record Filters : Type := mkFilters {
  f_genres : list jsstring;
  f_regions : list jsstring;
  f_types : list jsstring;
  f_lifespans : list jsstring;
  f_sponsored : list jsstring;
  f_indexed : list jsstring;
  f_do_follow : list jsstring;
  f_niches : list jsstring
}.

Record TableData : Type := mkTableData {
  publications : list Publication;
  filters : Filters;
  columns : list jsstring
}.

(** ** The page's state *)

Inductive ViewMode : Type := all | bestSellers.

Inductive Direction : Type := asc | desc.

(** The columns [a[sortColumn]] can read a number or a string from. *)
Inductive SortColumn : Type :=
| col_id | col_name | col_image | col_price | col_da | col_tat
| col_region | col_type | col_lifespan | col_mention_type | col_status.

(** A [Set<string>]: its elements in insertion order, each once. *)
Definition StrSet : Type := list jsstring.

Definition set_has (s : StrSet) (x : jsstring) : bool := arr_includes s x.

Definition set_add (s : StrSet) (x : jsstring) : StrSet :=
  if set_has s x then s else s ++ [x].

(** [new Set(xs)]. *)
Definition newSet (xs : list jsstring) : StrSet := fold_left set_add xs [].

Record State : Type := mkState {
  data : option TableData;
  searchTerm : jsstring;
  selectedGenres : list jsstring;
  selectedRegions : list jsstring;
  selectedSponsored : jsstring;
  selectedIndexed : jsstring;
  selectedDoFollow : jsstring;
  priceMin : Q;
  priceMax : Q;
  sortColumn : SortColumn;
  sortDirection : Direction;
  viewMode : ViewMode;
  bestSellerSet : option StrSet
}.

(** A string used as a condition: true unless empty. *)
Definition truthy (s : jsstring) : bool :=
  match s with [] => false | _ :: _ => true end.

(** [<] on numbers. *)
Definition Qltb (a b : Q) : bool := negb (Qle_bool b a).

Definition is_bestSellers (m : ViewMode) : bool :=
  match m with bestSellers => true | all => false end.

(** ** Best sellers (Home.tsx, [basePublications], [bestSellerMissingCount]) *)

(** [setBestSellerSet(new Set(names.map(normalizeName)))]. *)
Definition buildBestSellerSet (names : list jsstring) : StrSet :=
  newSet (map normalizeName names).

Definition basePublications (st : State) : list Publication :=
  match data st with
  | None => []
  | Some d =>
      if negb (is_bestSellers (viewMode st)) then publications d
      else
        match bestSellerSet st with
        | None => publications d
        | Some bs =>
            filter (fun p => set_has bs (normalizeName (name p)))
                   (publications d)
        end
  end.

Definition baseCount (st : State) : nat := List.length (basePublications st).

Definition bestSellerMissingCount (st : State) : nat :=
  match viewMode st, bestSellerSet st, data st with
  | bestSellers, Some bs, Some d =>
      let all := newSet (map (fun p => normalizeName (name p))
                             (publications d)) in
      fold_left (fun missing n => if set_has all n then missing
                                  else S missing) bs 0
  | _, _, _ => 0
  end.

(** ** The filter (Home.tsx, the callback of [basePublications.filter]) *)

Definition searchStage (st : State) (pub : Publication) : bool :=
  if truthy (searchTerm st) then
    let term := toLowerCase (searchTerm st) in
    let matchesName := includes (toLowerCase (name pub)) term in
    let matchesGenre :=
      existsb (fun g => includes (toLowerCase g) term) (genres pub) in
    matchesName || matchesGenre
  else true.

Definition genreStage (st : State) (pub : Publication) : bool :=
  if (0 <? List.length (selectedGenres st))%nat then
    existsb (fun g => arr_includes (genres pub) g) (selectedGenres st)
  else true.

Definition regionStage (st : State) (pub : Publication) : bool :=
  if (0 <? List.length (selectedRegions st))%nat then
    arr_includes (selectedRegions st) (region pub)
  else true.

Definition priceStage (st : State) (pub : Publication) : bool :=
  negb (Qltb (price pub) (priceMin st) || Qltb (priceMax st) (price pub)).

(** One of the three radio groups: [sel] is the selected option, [field]
    the record's flag. *)
Definition flagStage (sel : jsstring) (field : bool) : bool :=
  if truthy sel then Bool.eqb field (str_eqb sel (js "Yes")) else true.

(** The callback: each stage that fails returns [false] at once. *)
Definition keeps (st : State) (pub : Publication) : bool :=
  if negb (searchStage st pub) then false
  else if negb (genreStage st pub) then false
  else if negb (regionStage st pub) then false
  else if negb (priceStage st pub) then false
  else if negb (flagStage (selectedSponsored st) (sponsored pub)) then false
  else if negb (flagStage (selectedIndexed st) (indexed pub)) then false
  else if negb (flagStage (selectedDoFollow st) (do_follow pub)) then false
  else true.

(** ** The sort (Home.tsx, the comparator of [filtered.sort]) *)

Inductive Val : Type :=
| VNum (q : Q)
| VInf
| VStr (s : jsstring).

(** [a[sortColumn]]. *)
Definition field (c : SortColumn) (p : Publication) : Val :=
  match c with
  | col_id => VNum (inject_Z (id p))
  | col_name => VStr (name p)
  | col_image => VStr (image p)
  | col_price => VNum (price p)
  | col_da => VNum (inject_Z (da p))
  | col_tat => VStr (tat p)
  | col_region => VStr (region p)
  | col_type => VStr (type p)
  | col_lifespan => VStr (lifespan p)
  | col_mention_type => VStr (mention_type p)
  | col_status => VStr (status p)
  end.

Definition is_tat (c : SortColumn) : bool :=
  match c with col_tat => true | _ => false end.

(** A [number] as a value to compare. *)
Definition numVal (x : number) : Val :=
  match x with
  | Finite z => VNum (inject_Z z)
  | Infinity => VInf
  end.

(** The value the comparator compares: the parsed turnaround time for the
    [tat] column, a string in lower case, a number as it is. *)
Definition sortVal (c : SortColumn) (p : Publication) : Val :=
  match field c p with
  | VStr s => if is_tat c then numVal (parseTAT s)
              else VStr (toLowerCase s)
  | v => v
  end.

(** [aVal < bVal] for two values of one kind; [Infinity] is above every
    other number. *)
Definition val_ltb (v w : Val) : bool :=
  match v, w with
  | VNum a, VNum b => Qltb a b
  | VNum _, VInf => true
  | VStr s, VStr t => str_ltb s t
  | _, _ => false
  end.

Definition compareFn (c : SortColumn) (d : Direction) (a b : Publication)
  : Z :=
  let aVal := sortVal c a in
  let bVal := sortVal c b in
  if val_ltb aVal bVal then (match d with asc => -1 | desc => 1 end)
  else if val_ltb bVal aVal then (match d with asc => 1 | desc => -1 end)
  else 0.

Section Sort.
Context {A : Type}.
Variable cmp : A -> A -> Z.

(** [x] stood before every element of [l]: it moves behind those the
    comparator puts first and stops at the first one it need not pass. *)
Fixpoint insert (x : A) (l : list A) : list A :=
  match l with
  | [] => [x]
  | y :: r => if (0 <? cmp x y)%Z then y :: insert x r else x :: l
  end.

Definition sort (l : list A) : list A := fold_right insert [] l.
End Sort.

(** [filtered] before it is sorted. *)
Definition filtered (st : State) : list Publication :=
  filter (keeps st) (basePublications st).

Definition filteredPublications (st : State) : list Publication :=
  match data st with
  | None => []
  | Some _ => sort (compareFn (sortColumn st) (sortDirection st)) (filtered st)
  end.

(** ** The selection handlers *)

(** [toggleGenre]. *)
Definition toggleGenre (prev : list jsstring) (genre : jsstring)
  : list jsstring :=
  if arr_includes prev genre
  then filter (fun g => negb (str_eqb g genre)) prev
  else prev ++ [genre].

Definition setSelectedGenres (st : State) (gs : list jsstring) : State :=
  mkState (data st) (searchTerm st) gs (selectedRegions st)
          (selectedSponsored st) (selectedIndexed st) (selectedDoFollow st)
          (priceMin st) (priceMax st) (sortColumn st) (sortDirection st)
          (viewMode st) (bestSellerSet st).

Definition setSelectedRegions (st : State) (rs : list jsstring) : State :=
  mkState (data st) (searchTerm st) (selectedGenres st) rs
          (selectedSponsored st) (selectedIndexed st) (selectedDoFollow st)
          (priceMin st) (priceMax st) (sortColumn st) (sortDirection st)
          (viewMode st) (bestSellerSet st).

Definition setSelectedSponsored (st : State) (v : jsstring) : State :=
  mkState (data st) (searchTerm st) (selectedGenres st) (selectedRegions st)
          v (selectedIndexed st) (selectedDoFollow st)
          (priceMin st) (priceMax st) (sortColumn st) (sortDirection st)
          (viewMode st) (bestSellerSet st).

Definition setPriceMin (st : State) (q : Q) : State :=
  mkState (data st) (searchTerm st) (selectedGenres st) (selectedRegions st)
          (selectedSponsored st) (selectedIndexed st) (selectedDoFollow st)
          q (priceMax st) (sortColumn st) (sortDirection st)
          (viewMode st) (bestSellerSet st).

Definition setPriceMax (st : State) (q : Q) : State :=
  mkState (data st) (searchTerm st) (selectedGenres st) (selectedRegions st)
          (selectedSponsored st) (selectedIndexed st) (selectedDoFollow st)
          (priceMin st) q (sortColumn st) (sortDirection st)
          (viewMode st) (bestSellerSet st).

(** [handleSort]. *)
Definition handleSort (st : State) (column : SortColumn)
  (direction : Direction) : State :=
  mkState (data st) (searchTerm st) (selectedGenres st) (selectedRegions st)
          (selectedSponsored st) (selectedIndexed st) (selectedDoFollow st)
          (priceMin st) (priceMax st) column direction
          (viewMode st) (bestSellerSet st).

(** The best-sellers view once [ensureBestSellersLoaded] has stored the
    set built from [names]. *)
Definition showBestSellers (st : State) (names : list jsstring) : State :=
  mkState (data st) (searchTerm st) (selectedGenres st) (selectedRegions st)
          (selectedSponsored st) (selectedIndexed st) (selectedDoFollow st)
          (priceMin st) (priceMax st) (sortColumn st) (sortDirection st)
          bestSellers (Some (buildBestSellerSet names)).

(** The state after [resetFilters] on a loaded catalogue, with the default
    sort (price, descending). *)
Definition initialState (d : TableData) : State :=
  mkState (Some d) [] [] [] [] [] [] 0%Q (85000 # 1)%Q col_price desc all None.

(** ** Notions of the specification *)

Definition head_upper (s : jsstring) : bool :=
  match s with c :: _ => is_upper c | [] => false end.

(** Two spellings of one name: a space written at a camel-case boundary,
    or an ampersand written out as the word [and].  The scan for
    camel-case boundaries runs before the ampersand is rewritten, so the
    word must not run into a capital that follows it. *)
Inductive SameSpelling : jsstring -> jsstring -> Prop :=
| ss_camel u a b v :
    is_lower a = true -> is_upper b = true ->
    SameSpelling (u ++ a :: b :: v) (u ++ a :: space :: b :: v)
| ss_amp u v :
    head_upper v = false ->
    SameSpelling (u ++ amp :: v) (u ++ js "and" ++ v)
| ss_refl s : SameSpelling s s
| ss_sym s t : SameSpelling s t -> SameSpelling t s
| ss_trans s t r : SameSpelling s t -> SameSpelling t r -> SameSpelling s r.

(** The five steps of the specification, in its order and without the
    source's first [trim]. *)
Definition normalize_spec (s : jsstring) : jsstring :=
  let step1 := splitCamel s in
  let step2 := toLowerCase step1 in
  let step3 := replaceAmp step2 in
  let step4 := replaceRuns not_alnum false step3 in
  trim (replaceRuns is_space false step4).

(** The shape of a key: lower-case letters, digits and spaces, no two
    spaces in a row, and (with [b] set) no space in front. *)
Fixpoint tidy (b : bool) (s : jsstring) : bool :=
  match s with
  | [] => true
  | c :: r =>
      if is_alnum c then tidy false r
      else Ascii.eqb c space && negb b && tidy true r
  end.

(** [s] mentions the word [w], in any letter case. *)
Definition mentions (s : jsstring) (w : string) : bool :=
  includes (toLowerCase s) (js w).

Definition noDigits (s : jsstring) : Prop :=
  forall c, In c s -> is_digit c = false.

Definition head_digit (s : jsstring) : bool :=
  match s with c :: _ => is_digit c | [] => false end.

(** [ds] is the first integer written in [s]: digits only, none before
    it, and no digit right after it. *)
Definition firstRun (s ds : jsstring) : Prop :=
  exists pre post,
    s = pre ++ ds ++ post /\ noDigits pre /\ ds <> [] /\
    forallb is_digit ds = true /\ head_digit post = false.

(** [v] is the first integer written in [s], or [dflt] where [s] holds no
    digit. *)
Definition FirstInteger (s : jsstring) (dflt v : Z) : Prop :=
  (forall ds, firstRun s ds -> v = digitsValue ds) /\ (noDigits s -> v = dflt).

(** The order of the numbers. *)
Definition num_le (x y : number) : Prop :=
  match x, y with
  | Finite a, Finite b => (a <= b)%Z
  | _, Infinity => True
  | Infinity, Finite _ => False
  end.

(** The kind of a sort value: text, or a number. *)
Definition isStr (v : Val) : bool :=
  match v with VStr _ => true | _ => false end.

(** Two sort values are equal. *)
Definition val_eqb (v w : Val) : bool :=
  match v, w with
  | VNum a, VNum b => Qeq_bool a b
  | VInf, VInf => true
  | VStr s, VStr t => str_eqb s t
  | _, _ => false
  end.

(** ** A sample catalogue: the three records of the specification's
    scenario, with turnaround times added *)

Definition mkPub (i : Z) (n : string) (gs : list string) (p : Q)
  (t r : string) (sp : bool) : Publication :=
  mkPublication i (js n) [] (map js gs) p 0 (js t) (js r) sp false false
                false [] (js "article") (js "12 months") (js "link")
                (js "active") false.

Definition forbes : Publication :=
  mkPub 1 "Forbes" ["Business"%string] 5000 "3 days" "USA" true.
Definition wired : Publication :=
  mkPub 2 "Wired" ["Tech"%string] 3000 "" "USA" false.
Definition bbc : Publication :=
  mkPub 3 "BBC" ["News"%string] 0 "2 weeks" "UK" false.

(** A catalogue document around a list of records: the vocabularies of
    the genres and regions that occur, the fixed ones as the converter
    writes them. *)
Definition vocabulary (gs rs : list string) : Filters :=
  mkFilters (map js gs) (map js rs) [js "article"] [js "12 months"]
            [js "Yes"; js "No"] [js "Yes"; js "No"] [js "Yes"; js "No"] [].

Definition catalogue (pubs : list Publication) (gs rs : list string)
  : TableData :=
  mkTableData pubs (vocabulary gs rs)
              (map js ["Publication"; "Genres"; "Price"; "DA"; "TAT";
                       "Region"; "Sponsored"; "Indexed"; "Backlink"]%string).

Definition sampleData : TableData :=
  catalogue [forbes; wired; bbc]
            ["Business"; "News"; "Tech"]%string ["UK"; "USA"]%string.

(** A record with a turnaround time beyond the sentinel. *)
Definition slow : Publication :=
  mkPub 4 "Slow" ["News"%string] 100 "1000 days" "UK" false.

Definition slowData : TableData :=
  catalogue [slow; wired] ["News"; "Tech"]%string ["UK"; "USA"]%string.

(** Does [l] hold each of its elements once? *)
Fixpoint distinct (l : list jsstring) : bool :=
  match l with
  | [] => true
  | x :: r => negb (arr_includes r x) && distinct r
  end.

(** A catalogue of [n] records named "pub 0", "pub 1", ... *)
Definition numbered (i : nat) : Publication :=
  mkPub (Z.of_nat i)
        ("pub " ++ NilEmpty.string_of_uint (Nat.to_uint i))%string
        ["News"%string] 100 "3 days" "USA" false.

Definition catalogueOf (n : nat) : TableData :=
  catalogue (map numbered (seq 0 n)) ["News"%string] ["USA"%string].

(** A second entry under the name of [forbes]. *)
Definition forbesCouncil : Publication :=
  mkPub 5 "Forbes" ["Business"%string] 7500 "1 week" "USA" true.

(** Five curated names, two of them unknown to [catalogueOf 100]. *)
Definition curated : list jsstring :=
  [js "Pub 7"; js "PUB 42"; js "pub-99"; js "Rolling & Stone";
   js "VentureBeat"].

(** The key of a catalogue record, and whether a key is some record's. *)
Definition keyOf (p : Publication) : jsstring := normalizeName (name p).

Definition inCatalogue (d : TableData) (k : jsstring) : bool :=
  existsb (fun p => str_eqb (keyOf p) k) (publications d).

(** The curated names that match no record of the catalogue. *)
Definition unmatched (d : TableData) (names : list jsstring)
  : list jsstring :=
  filter (fun n => negb (inCatalogue d (normalizeName n))) names.

(** What a comparator says of two elements: [x] may stand before [y], and
    neither has to pass the other. *)
Definition mayPrecede {A : Type} (cmp : A -> A -> Z) (x y : A) : Prop :=
  (0 <? cmp x y)%Z = false.

Definition tied {A : Type} (cmp : A -> A -> Z) (x y : A) : bool :=
  negb (0 <? cmp x y)%Z && negb (0 <? cmp y x)%Z.

(** [out] is a stable sort of [inp] by [cmp]: in order, and each group of
    tied elements in the order it had in [inp]. *)
Definition StableSortOf {A : Type} (cmp : A -> A -> Z) (inp out : list A)
  : Prop :=
  StronglySorted (mayPrecede cmp) out
  /\ forall z, filter (tied cmp z) out = filter (tied cmp z) inp.

(** ** More of the page (Home.tsx) *)

(** [toggleRegion]. *)
Definition toggleRegion (prev : list jsstring) (region : jsstring)
  : list jsstring :=
  if arr_includes prev region
  then filter (fun r => negb (str_eqb r region)) prev
  else prev ++ [region].

Definition setSearchTerm (st : State) (t : jsstring) : State :=
  mkState (data st) t (selectedGenres st) (selectedRegions st)
          (selectedSponsored st) (selectedIndexed st) (selectedDoFollow st)
          (priceMin st) (priceMax st) (sortColumn st) (sortDirection st)
          (viewMode st) (bestSellerSet st).

Definition setSelectedIndexed (st : State) (v : jsstring) : State :=
  mkState (data st) (searchTerm st) (selectedGenres st) (selectedRegions st)
          (selectedSponsored st) v (selectedDoFollow st)
          (priceMin st) (priceMax st) (sortColumn st) (sortDirection st)
          (viewMode st) (bestSellerSet st).

Definition setSelectedDoFollow (st : State) (v : jsstring) : State :=
  mkState (data st) (searchTerm st) (selectedGenres st) (selectedRegions st)
          (selectedSponsored st) (selectedIndexed st) v
          (priceMin st) (priceMax st) (sortColumn st) (sortDirection st)
          (viewMode st) (bestSellerSet st).

Definition setViewMode (st : State) (m : ViewMode) : State :=
  mkState (data st) (searchTerm st) (selectedGenres st) (selectedRegions st)
          (selectedSponsored st) (selectedIndexed st) (selectedDoFollow st)
          (priceMin st) (priceMax st) (sortColumn st) (sortDirection st)
          m (bestSellerSet st).

Definition setData (st : State) (d : option TableData) : State :=
  mkState d (searchTerm st) (selectedGenres st) (selectedRegions st)
          (selectedSponsored st) (selectedIndexed st) (selectedDoFollow st)
          (priceMin st) (priceMax st) (sortColumn st) (sortDirection st)
          (viewMode st) (bestSellerSet st).

Definition setBestSellerSet (st : State) (s : option StrSet) : State :=
  mkState (data st) (searchTerm st) (selectedGenres st) (selectedRegions st)
          (selectedSponsored st) (selectedIndexed st) (selectedDoFollow st)
          (priceMin st) (priceMax st) (sortColumn st) (sortDirection st)
          (viewMode st) s.

(** [resetFilters]: the search text, the selections and the price range go
    back to their defaults; the sort, the view and the data stay. *)
Definition resetFilters (st : State) : State :=
  mkState (data st) [] [] [] [] [] [] 0%Q (85000 # 1)%Q
          (sortColumn st) (sortDirection st) (viewMode st) (bestSellerSet st).

(** [activeFiltersCount]. *)
Definition activeFiltersCount (st : State) : nat :=
  (List.length (selectedGenres st) + List.length (selectedRegions st)
   + (if truthy (selectedSponsored st) then 1 else 0)
   + (if truthy (selectedIndexed st) then 1 else 0)
   + (if truthy (selectedDoFollow st) then 1 else 0))%nat.

(** The state of the page with the flags that accompany the two loads. *)
Record Page : Type := mkPage {
  page : State;
  loading : bool;
  bestSellerLoading : bool;
  bestSellerError : option jsstring
}.

(** The page as [Home] first renders it: the [useState] defaults. *)
Definition initialPage : Page :=
  mkPage (mkState None [] [] [] [] [] [] 0%Q (85000 # 1)%Q col_price desc
                  all None)
         true false None.

(** [loadData]: [fetched] is the parsed document, or [None] when the fetch
    or the parsing threw. *)
Definition loadData (fetched : option TableData) (pg : Page) : Page :=
  match fetched with
  | Some jsonData =>
      mkPage (setData (page pg) (Some jsonData)) false
             (bestSellerLoading pg) (bestSellerError pg)
  | None =>
      mkPage (page pg) false (bestSellerLoading pg) (bestSellerError pg)
  end.

(** What the request for [/best_sellers.json] comes to: the fetch or the
    parsing throws, the response is not [ok], or the body is parsed and
    [names] is its array of names ([None] when there is no such array). *)
Inductive BestSellersResponse : Type :=
| Thrown
| NotOk (status : Z)
| Parsed (names : option (list jsstring)).

(** [ensureBestSellersLoaded] up to its [await]: [None] when it returns at
    once because the set is there or a request is under way. *)
Definition ensureBestSellersLoaded_begin (pg : Page) : option Page :=
  match bestSellerSet (page pg) with
  | Some _ => None
  | None =>
      if bestSellerLoading pg then None
      else Some (mkPage (page pg) (loading pg) true None)
  end.

(** ... and from the response on, through [catch] and [finally]. *)
Definition ensureBestSellersLoaded_end (r : BestSellersResponse) (pg : Page)
  : Page :=
  match r with
  | Parsed json_names =>
      let names := match json_names with Some ns => ns | None => [] end in
      mkPage (setBestSellerSet (page pg)
                               (Some (newSet (map normalizeName names))))
             (loading pg) false (bestSellerError pg)
  | Thrown | NotOk _ =>
      mkPage (setBestSellerSet (page pg) (Some (newSet [])))
             (loading pg) false
             (Some (js "Could not load best sellers list."))
  end.

(** One call of [ensureBestSellersLoaded] that nothing interleaves with. *)
Definition ensureBestSellersLoaded (r : BestSellersResponse) (pg : Page)
  : Page :=
  match ensureBestSellersLoaded_begin pg with
  | None => pg
  | Some pg' => ensureBestSellersLoaded_end r pg'
  end.

(** The "Best Sellers" button: [await ensureBestSellersLoaded();
    setViewMode('bestSellers')]. *)
Definition clickBestSellers (r : BestSellersResponse) (pg : Page) : Page :=
  let pg' := ensureBestSellersLoaded r pg in
  mkPage (setViewMode (page pg') bestSellers) (loading pg')
         (bestSellerLoading pg') (bestSellerError pg').

(** [handleResetAll]: the cached set is not cleared. *)
Definition handleResetAll (pg : Page) : Page :=
  mkPage (setViewMode (resetFilters (page pg)) all) (loading pg)
         (bestSellerLoading pg) None.




(** ** The converters (tools/convert-mediaupdated.ts, convert-best-sellers.ts,
    copy-ascend-logos.ts, extract-ascend-logos.ts) *)

(** A whole number of magnitude below 2^53: the integers that a double
    holds one by one, and that [String] prints digit for digit. *)
Record SafeInt : Type := mkSafeInt {
  int_val : Z;
  int_safe : (Z.abs int_val <? 2 ^ 53)%Z = true
}.

Abbreviation safe z := (mkSafeInt z eq_refl) (only parsing).

(** A value read from a sheet ([unknown] in the source): [null] or
    [undefined], a boolean, a whole number of that size, or text.  Other
    numbers (fractions, and whole numbers from 2^53 on, which [String]
    prints rounded to their significant digits) are not modelled. *)
Inductive Cell : Type :=
| CNull
| CBool (b : bool)
| CInt (i : SafeInt)
| CStr (s : jsstring).

(** The decimal digits of a whole number, with its sign. *)
Definition decimal (z : Z) : jsstring :=
  js (NilEmpty.string_of_int (Z.to_int z)).

(** [String(v ?? "")]. *)
Definition cellText (v : Cell) : jsstring :=
  match v with
  | CNull => []
  | CBool true => js "true"
  | CBool false => js "false"
  | CInt i => decimal (int_val i)
  | CStr s => s
  end.

Definition und : ascii := "_"%char.

(** [s.replace(/[cls]+/g, rep)] for a replacement of one code unit. *)
Fixpoint replaceRunsBy (rep : ascii) (p : ascii -> bool) (inrun : bool)
  (s : jsstring) : jsstring :=
  match s with
  | [] => []
  | c :: r =>
      if p c
      then (if inrun then replaceRunsBy rep p true r
            else rep :: replaceRunsBy rep p true r)
      else c :: replaceRunsBy rep p false r
  end.

(** [s.replace(/^_+|_+$/g, "")]: the run of underscores in front and the
    run at the end go. *)
Fixpoint stripStart (s : jsstring) : jsstring :=
  match s with
  | [] => []
  | c :: r => if Ascii.eqb c und then stripStart r else s
  end.

Fixpoint stripEnd (s : jsstring) : jsstring :=
  match s with
  | [] => []
  | c :: r =>
      match stripEnd r with
      | [] => if Ascii.eqb c und then [] else [c]
      | r' => c :: r'
      end
  end.

Definition stripUnderscores (s : jsstring) : jsstring :=
  stripEnd (stripStart s).

(** [s.replace(/[%]/g, "percent")]. *)
Definition replacePercent (s : jsstring) : jsstring :=
  flat_map (fun c => if Ascii.eqb c "%"%char then js "percent" else [c]) s.

(** [normKey] (both converters). *)
Definition normKey (k : jsstring) : jsstring :=
  stripUnderscores
    (replaceRunsBy und not_alnum false
       (replacePercent (toLowerCase (trim k)))).

(** The single and the double quote, ['] and the code unit 34. *)
Definition is_quote (c : ascii) : bool :=
  (code c =? 39)%N || (code c =? 34)%N.

(** [sanitizeForFilename] (copy-ascend-logos.ts). *)
Definition sanitizeForFilename (name : jsstring) : jsstring :=
  stripUnderscores
    (replaceRunsBy und not_alnum false
       (filter (fun c => negb (is_quote c))
               (replaceAmp (toLowerCase (trim name))))).

(** The class of [sanitizeForLogoFilename]'s first pattern: backslash,
    slash, colon, asterisk, question mark, double quote, the angle brackets
    and the bar. *)
Definition is_reserved (c : ascii) : bool :=
  existsb (fun n => (code c =? n)%N) [92; 47; 58; 42; 63; 34; 60; 62; 124]%N.

(** [sanitizeForLogoFilename] (convert-mediaupdated.ts). *)
Definition sanitizeForLogoFilename (name : jsstring) : jsstring :=
  trim
    (replaceRunsBy und (fun c => Ascii.eqb c und) false
       (replaceRunsBy und is_space false
          (filter (fun c => negb (is_reserved c)) name))).

(** [normName] (extract-ascend-logos.ts). *)
Definition normName (s : jsstring) : jsstring :=
  trim (replaceRuns is_space false s).

(** [s.split(/[;,|]/g)]. *)
Definition is_listSep (c : ascii) : bool :=
  Ascii.eqb c ";"%char || Ascii.eqb c ","%char || Ascii.eqb c "|"%char.

Fixpoint splitWhen (p : ascii -> bool) (s : jsstring) : list jsstring :=
  match s with
  | [] => [[]]
  | c :: r =>
      if p c then [] :: splitWhen p r
      else match splitWhen p r with
           | w :: ws => (c :: w) :: ws
           | [] => [[c]]
           end
  end.

(** [splitList]. *)
Definition splitList (v : Cell) : list jsstring :=
  let s := trim (cellText v) in
  if negb (truthy s) then []
  else filter truthy (map trim (splitWhen is_listSep s)).

(** A row of a sheet, a plain object from header to value: its own
    enumerable properties in the order of their creation, one for a key.
    Its prototype is [Object.prototype]. *)
Definition Row : Type := list (jsstring * Cell).

(** The own property [k] of the row, when it has one. *)
Fixpoint row_get (r : Row) (k : jsstring) : option Cell :=
  match r with
  | [] => None
  | (k', v) :: rest => if str_eqb k' k then Some v else row_get rest k
  end.

(** The names that [Object.prototype] defines, which every plain object
    inherits. *)
Definition protoKeys : list jsstring :=
  map js ["constructor"; "__defineGetter__"; "__defineSetter__";
          "hasOwnProperty"; "__lookupGetter__"; "__lookupSetter__";
          "isPrototypeOf"; "propertyIsEnumerable"; "toString"; "valueOf";
          "__proto__"; "toLocaleString"]%string.

(** What [row[k]] is: the own property, else the member of
    [Object.prototype] of that name (a function; the prototype itself for
    [__proto__]), else [undefined]. *)
Inductive Read : Type :=
| Own (v : Cell)
| Inherited (k : jsstring)
| Undefined.

Definition row_read (r : Row) (k : jsstring) : Read :=
  match row_get r k with
  | Some v => Own v
  | None => if arr_includes protoKeys k then Inherited k else Undefined
  end.

(** [out[k] = v] for a key other than [__proto__] (for that key the
    assignment goes to the accessor the object inherits; [normKey] does
    not return it): an own property keeps its place and takes the value,
    a new one comes behind the others. *)
Fixpoint row_set (r : Row) (k : jsstring) (v : Cell) : Row :=
  match r with
  | [] => [(k, v)]
  | (k', v') :: rest =>
      if str_eqb k' k then (k', v) :: rest
      else (k', v') :: row_set rest k v
  end.

(** The test of [pick]: the value is there, is not [null], and its text is
    not blank.  The text of an inherited member is that of a function, or
    [[object Object]]. *)
Definition usable (x : Read) : bool :=
  match x with
  | Undefined | Own CNull => false
  | Own v => truthy (trim (cellText v))
  | Inherited _ => true
  end.

(** [pick]. *)
Fixpoint pick (row : Row) (keys : list jsstring) : Read :=
  match keys with
  | [] => Undefined
  | k :: rest => if usable (row_read row k) then row_read row k
                 else pick row rest
  end.

(** An array index: an integer from 0 to 2^32 - 2 in its canonical decimal
    form. *)
Definition is_index (k : jsstring) : bool :=
  match k with
  | [] => false
  | c :: r =>
      forallb is_digit k
      && (negb (Ascii.eqb c "0"%char) || match r with [] => true | _ => false end)
      && (digitsValue k <=? 4294967294)%Z
  end.

Definition indexed_key (e : jsstring * Cell) : bool := is_index (fst e).

(** [Object.entries(r)]: the properties whose key is an array index come
    first, in ascending order of the index, then the others in the order
    of their creation. *)
Definition entries (r : Row) : list (jsstring * Cell) :=
  sort (fun a b => digitsValue (fst a) - digitsValue (fst b))%Z
       (filter indexed_key r)
  ++ filter (fun e => negb (indexed_key e)) r.

(** The headers of a raw row normalised: [out[normKey(k)] = v] for the
    entries of [r] in their order, from the empty object. *)
Definition normalizeRow (r : Row) : Row :=
  fold_left (fun out e => row_set out (normKey (fst e)) (snd e)) (entries r)
            [].

(** [toBool].  The check mark U+2713 of the last list lies outside the
    code units modelled: no text of the model equals it. *)
Definition toBool (v : Cell) : bool :=
  match v with
  | CBool b => b
  | _ =>
      let s := toLowerCase (trim (cellText v)) in
      if negb (truthy s) then false
      else if arr_includes [js "no-follow"; js "no follow"; js "nofollow";
                            js "no_follow"; js "nofollow"] s then false
      else if arr_includes [js "do-follow"; js "do follow"; js "dofollow";
                            js "do_follow"; js "dofollow"] s then true
      else arr_includes [js "yes"; js "y"; js "true"; js "1"; js "paid";
                         js "check"; js "checked"] s
  end.

(** The shape of a normalised key: lower-case letters, digits and
    underscores, no two underscores in a row, and (with [b] set) none in
    front. *)
Fixpoint keyShaped (b : bool) (s : jsstring) : bool :=
  match s with
  | [] => true
  | c :: r =>
      if is_alnum c then keyShaped false r
      else Ascii.eqb c und && negb b && keyShaped true r
  end.

(** White space in [s] is single spaces, and (with [b] set) none in
    front. *)
Fixpoint singleSpaced (b : bool) (s : jsstring) : bool :=
  match s with
  | [] => true
  | c :: r =>
      if is_space c then Ascii.eqb c space && negb b && singleSpaced true r
      else singleSpaced false r
  end.

(** No two underscores in a row. *)
Fixpoint noDoubleUnd (b : bool) (s : jsstring) : bool :=
  match s with
  | [] => true
  | c :: r =>
      if Ascii.eqb c und then negb b && noDoubleUnd true r
      else noDoubleUnd false r
  end.

(** [xs.join(sep)] for an array that is not empty (the empty one gives the
    empty text). *)
Fixpoint joinWith (sep : jsstring) (xs : list jsstring) : jsstring :=
  match xs with
  | [] => []
  | [x] => x
  | x :: rest => x ++ sep ++ joinWith sep rest
  end.

(** A list entry as [splitList] returns it: not empty, trimmed, and free
    of the separators. *)
Definition listEntry (x : jsstring) : Prop :=
  x <> [] /\ trim x = x /\ forall c, In c x -> is_listSep c = false.

Definition blankText (s : jsstring) : Prop :=
  forall c, In c s -> is_space c = true.

(** * Properties *)

(** ** Code units *)

Ltac ascii_cases c :=
  destruct c as [[|] [|] [|] [|] [|] [|] [|] [|]];
  try reflexivity; try discriminate.

Lemma upper_not_lower c : is_upper c = true -> is_lower c = false.
Proof. ascii_cases c. Qed.

Lemma alnum_not_upper c : is_alnum c = true -> is_upper c = false.
Proof. ascii_cases c. Qed.

Lemma alnum_not_space c : is_alnum c = true -> is_space c = false.
Proof. ascii_cases c. Qed.

Lemma alnum_not_amp c : is_alnum c = true -> Ascii.eqb c amp = false.
Proof. ascii_cases c. Qed.

Lemma alnum_lower_char c : is_alnum c = true -> lower_char c = c.
Proof. ascii_cases c. Qed.

Lemma space_lower_char c : is_space c = true -> lower_char c = c.
Proof. ascii_cases c. Qed.

Lemma space_not_alnum c : is_space c = true -> is_alnum c = false.
Proof. ascii_cases c. Qed.

Lemma space_not_amp c : is_space c = true -> Ascii.eqb c amp = false.
Proof. ascii_cases c. Qed.

Lemma lower_char_space c : is_space (lower_char c) = is_space c.
Proof. ascii_cases c. Qed.

Lemma lower_char_idem c : lower_char (lower_char c) = lower_char c.
Proof. ascii_cases c. Qed.

Lemma lower_char_not_upper c : is_upper (lower_char c) = false.
Proof. ascii_cases c. Qed.

Lemma lower_char_digit c : is_digit (lower_char c) = is_digit c.
Proof. ascii_cases c. Qed.

Lemma digit_lower_char c : is_digit c = true -> lower_char c = c.
Proof. ascii_cases c. Qed.

Lemma eqb_space_true c : Ascii.eqb c space = true -> c = space.
Proof. apply Ascii.eqb_eq. Qed.

Lemma bool_eq_iff (a b : bool) : (a = true <-> b = true) -> a = b.
Proof. destruct a, b; intuition congruence. Qed.

Lemma str_eqb_eq s t : str_eqb s t = true <-> s = t.
Proof.
  revert t; induction s as [|x s IH]; intros [|y t]; simpl;
    try (split; [discriminate | intros H; inversion H]); [tauto|].
  rewrite andb_true_iff, Ascii.eqb_eq, IH.
  split; [intros [-> ->]; reflexivity | intros H; inversion H; auto].
Qed.

Lemma str_eqb_refl s : str_eqb s s = true.
Proof. apply str_eqb_eq; reflexivity. Qed.

Lemma arr_includes_In l x : arr_includes l x = true <-> In x l.
Proof.
  unfold arr_includes. rewrite existsb_exists. split.
  - intros (y & Hy & E). apply str_eqb_eq in E. subst. exact Hy.
  - intros H. exists x. split; [exact H | apply str_eqb_refl].
Qed.

(** ** [splitCamel] *)

Lemma splitCamel_step a b r :
  splitCamel (a :: b :: r)
  = if is_lower a && is_upper b
    then a :: space :: splitCamel (b :: r)
    else a :: splitCamel (b :: r).
Proof.
  cbn [splitCamel].
  destruct (is_lower a && is_upper b) eqn:E; [|reflexivity].
  apply andb_true_iff in E as [_ Hb].
  destruct r as [|c r]; [reflexivity|].
  rewrite (upper_not_lower b Hb). reflexivity.
Qed.

Lemma splitCamel_single a : splitCamel [a] = [a].
Proof. reflexivity. Qed.

Lemma splitCamel_app u v :
  head_upper v = false -> splitCamel (u ++ v) = splitCamel u ++ splitCamel v.
Proof.
  intros Hv. induction u as [|x u IH]; [reflexivity|].
  destruct u as [|y u].
  - destruct v as [|c v]; [reflexivity|].
    cbn [app]. rewrite splitCamel_step. cbn in Hv. rewrite Hv, andb_false_r.
    reflexivity.
  - change ((x :: y :: u) ++ v) with (x :: y :: (u ++ v)).
    rewrite !splitCamel_step.
    change (y :: u ++ v) with ((y :: u) ++ v). rewrite IH.
    destruct (is_lower x && is_upper y); reflexivity.
Qed.

Lemma splitCamel_cons_other x v :
  is_lower x = false -> splitCamel (x :: v) = x :: splitCamel v.
Proof.
  intros Hx. destruct v as [|c v]; [reflexivity|].
  rewrite splitCamel_step, Hx. reflexivity.
Qed.

Lemma splitCamel_cons_before x v :
  head_upper v = false -> splitCamel (x :: v) = x :: splitCamel v.
Proof.
  intros Hv. destruct v as [|c v]; [reflexivity|].
  rewrite splitCamel_step. cbn in Hv. rewrite Hv, andb_false_r. reflexivity.
Qed.

(** Writing the space oneself gives what the scan produces. *)
Lemma splitCamel_spaced u a b v :
  is_lower a = true -> is_upper b = true ->
  splitCamel (u ++ a :: space :: b :: v) = splitCamel (u ++ a :: b :: v).
Proof.
  intros Ha Hb. induction u as [|x u IH].
  - cbn [app]. rewrite (splitCamel_step a b), Ha, Hb. cbn [andb].
    rewrite (splitCamel_cons_before a) by reflexivity.
    rewrite (splitCamel_cons_other space) by reflexivity. reflexivity.
  - destruct u as [|y u]; cbn [app] in *;
      rewrite !(splitCamel_step x), IH; reflexivity.
Qed.

Lemma splitCamel_no_upper s :
  (forall c, In c s -> is_upper c = false) -> splitCamel s = s.
Proof.
  induction s as [|a s IH]; intros H; [reflexivity|].
  rewrite splitCamel_cons_before.
  - rewrite IH; [reflexivity|]. intros c Hc. apply H. right. exact Hc.
  - destruct s as [|b s]; [reflexivity|]. apply H. right. left. reflexivity.
Qed.

(** ** [trim] *)

Lemma trimEnd_cons c r :
  trimEnd (c :: r)
  = match trimEnd r with
    | [] => if is_space c then [] else [c]
    | _ :: _ => c :: trimEnd r
    end.
Proof. cbn [trimEnd]. destruct (trimEnd r); reflexivity. Qed.

Lemma trimEnd_cons_keep c r :
  is_space c = false -> trimEnd (c :: r) = c :: trimEnd r.
Proof.
  intros Hc. rewrite trimEnd_cons, Hc. destruct (trimEnd r); reflexivity.
Qed.

Lemma trimEnd_idem s : trimEnd (trimEnd s) = trimEnd s.
Proof.
  induction s as [|c s IH]; [reflexivity|].
  rewrite trimEnd_cons. destruct (trimEnd s) as [|x r] eqn:E.
  - destruct (is_space c) eqn:Hc; [reflexivity|].
    cbn. rewrite Hc. reflexivity.
  - rewrite trimEnd_cons, IH. reflexivity.
Qed.

Lemma trimStart_app_keep u c v :
  is_space c = false -> trimStart (u ++ c :: v) = trimStart u ++ c :: v.
Proof.
  intros Hc. induction u as [|x u IH]; cbn.
  - rewrite Hc. reflexivity.
  - destruct (is_space x); [exact IH | reflexivity].
Qed.

Lemma trimEnd_app_keep u c v :
  is_space c = false -> trimEnd (u ++ c :: v) = u ++ c :: trimEnd v.
Proof.
  intros Hc. induction u as [|x u IH].
  - apply trimEnd_cons_keep. exact Hc.
  - cbn [app]. rewrite trimEnd_cons, IH.
    destruct u; reflexivity.
Qed.

Lemma trim_app_keep u c v :
  is_space c = false -> trim (u ++ c :: v) = trimStart u ++ c :: trimEnd v.
Proof.
  intros Hc. unfold trim.
  rewrite trimStart_app_keep, trimEnd_app_keep by exact Hc. reflexivity.
Qed.

Lemma trimStart_trimEnd s : trimStart (trimEnd s) = trimEnd (trimStart s).
Proof.
  induction s as [|c s IH]; [reflexivity|].
  destruct (is_space c) eqn:Hc.
  - cbn [trimStart]. rewrite Hc, <- IH, trimEnd_cons, Hc.
    destruct (trimEnd s) eqn:E; [reflexivity|].
    cbn [trimStart]. rewrite Hc. reflexivity.
  - rewrite trimEnd_cons_keep by exact Hc. cbn [trimStart]. rewrite Hc.
    symmetry. apply trimEnd_cons_keep. exact Hc.
Qed.

(** ** Keys are tidy *)

Lemma tidy_weaken b s : tidy b s = true -> tidy false s = true.
Proof.
  destruct s as [|c r]; [reflexivity|]. cbn.
  destruct (is_alnum c); [auto|]. destruct b; [|auto].
  rewrite andb_false_r. discriminate.
Qed.

Lemma tidy_chars b s c :
  tidy b s = true -> In c s -> is_alnum c = true \/ c = space.
Proof.
  revert b; induction s as [|x r IH]; intros b H Hin; [destruct Hin|].
  destruct Hin as [->|Hin].
  - cbn in H. destruct (is_alnum c); [auto|].
    right. apply eqb_space_true.
    apply andb_true_iff in H as [H _]. apply andb_true_iff in H as [H _].
    exact H.
  - cbn in H. destruct (is_alnum x); [eauto|].
    apply andb_true_iff in H as [_ H]. eauto.
Qed.

Lemma replaceRuns_tidy b s : tidy b (replaceRuns not_alnum b s) = true.
Proof.
  revert b; induction s as [|c r IH]; intros b; [reflexivity|].
  cbn [replaceRuns]. unfold not_alnum at 1.
  destruct (is_alnum c) eqn:Hc; cbn [negb].
  - cbn [tidy]. rewrite Hc. apply IH.
  - destruct b; [apply IH|]. cbn. apply IH.
Qed.

(** A tidy string has no run to replace: each separator is already one
    space. *)
Lemma replaceRuns_not_alnum_tidy b s :
  tidy b s = true -> replaceRuns not_alnum b s = s.
Proof.
  revert b; induction s as [|c r IH]; intros b H; [reflexivity|].
  cbn in H. cbn [replaceRuns]. unfold not_alnum at 1.
  destruct (is_alnum c) eqn:Hc; cbn [negb].
  - rewrite IH by exact H. reflexivity.
  - apply andb_true_iff in H as [H Hr]. apply andb_true_iff in H as [Hs Hb].
    apply eqb_space_true in Hs. subst c.
    destruct b; [discriminate|]. rewrite IH by exact Hr. reflexivity.
Qed.

Lemma replaceRuns_space_tidy b s :
  tidy b s = true -> replaceRuns is_space b s = s.
Proof.
  revert b; induction s as [|c r IH]; intros b H; [reflexivity|].
  cbn in H. cbn [replaceRuns].
  destruct (is_alnum c) eqn:Hc.
  - rewrite (alnum_not_space c Hc), IH by exact H. reflexivity.
  - apply andb_true_iff in H as [H Hr]. apply andb_true_iff in H as [Hs Hb].
    apply eqb_space_true in Hs. subst c.
    destruct b; [discriminate|].
    change (is_space space) with true. cbn iota.
    rewrite IH by exact Hr. reflexivity.
Qed.

Lemma trimStart_tidy s : tidy false s = true -> tidy true (trimStart s) = true.
Proof.
  destruct s as [|c r]; [reflexivity|]. cbn.
  destruct (is_alnum c) eqn:Hc.
  - rewrite (alnum_not_space c Hc). cbn. rewrite Hc. auto.
  - intros H. apply andb_true_iff in H as [H Hr].
    apply andb_true_iff in H as [Hs _]. apply eqb_space_true in Hs. subst c.
    change (is_space space) with true. cbn iota.
    destruct r as [|x r]; [reflexivity|]. cbn in Hr |- *.
    destruct (is_alnum x) eqn:Hx.
    + rewrite (alnum_not_space x Hx). cbn. rewrite Hx. exact Hr.
    + rewrite andb_false_r in Hr. discriminate.
Qed.

Lemma trimStart_tidy_id s : tidy true s = true -> trimStart s = s.
Proof.
  destruct s as [|c r]; [reflexivity|]. cbn.
  destruct (is_alnum c) eqn:Hc.
  - rewrite (alnum_not_space c Hc). reflexivity.
  - rewrite andb_false_r. discriminate.
Qed.

Lemma trimEnd_tidy b s : tidy b s = true -> tidy b (trimEnd s) = true.
Proof.
  revert b; induction s as [|c r IH]; intros b H; [reflexivity|].
  rewrite trimEnd_cons. cbn in H.
  destruct (is_alnum c) eqn:Hc.
  - specialize (IH false H). rewrite (alnum_not_space c Hc).
    destruct (trimEnd r) as [|x r']; cbn [tidy]; rewrite Hc; [reflexivity|].
    exact IH.
  - apply andb_true_iff in H as [H Hr].
    specialize (IH true Hr).
    destruct (trimEnd r) as [|x r'].
    + destruct (is_space c); [reflexivity|]. cbn. rewrite Hc, H. reflexivity.
    + cbn [tidy]. rewrite Hc, H. exact IH.
Qed.

Lemma tidy_no_upper b s c :
  tidy b s = true -> In c s -> is_upper c = false.
Proof.
  intros H Hin. destruct (tidy_chars b s c H Hin) as [Hc| ->].
  - apply alnum_not_upper. exact Hc.
  - reflexivity.
Qed.

Lemma toLowerCase_tidy b s : tidy b s = true -> toLowerCase s = s.
Proof.
  intros H. unfold toLowerCase. rewrite <- (map_id s) at 2.
  apply map_ext_in. intros c Hin.
  destruct (tidy_chars b s c H Hin) as [Hc| ->].
  - apply alnum_lower_char. exact Hc.
  - reflexivity.
Qed.

Lemma replaceAmp_tidy b s : tidy b s = true -> replaceAmp s = s.
Proof.
  revert b; induction s as [|c r IH]; intros b H; [reflexivity|].
  assert (Hc : Ascii.eqb c amp = false).
  { destruct (tidy_chars b (c :: r) c H (or_introl eq_refl)) as [Hc| ->].
    - apply alnum_not_amp. exact Hc.
    - reflexivity. }
  unfold replaceAmp in *. cbn [flat_map]. rewrite Hc. cbn [app].
  f_equal. cbn in H. destruct (is_alnum c).
  - eapply IH. exact H.
  - apply andb_true_iff in H as [_ H]. eapply IH. exact H.
Qed.

(** What [normalizeName] returns is tidy and trimmed. *)
Lemma normalizeName_tidy s : tidy true (normalizeName s) = true.
Proof.
  unfold normalizeName, trim.
  rewrite replaceRuns_space_tidy by apply replaceRuns_tidy.
  apply trimEnd_tidy, trimStart_tidy, replaceRuns_tidy.
Qed.

Lemma normalizeName_trimmed s : trimEnd (normalizeName s) = normalizeName s.
Proof. unfold normalizeName, trim. apply trimEnd_idem. Qed.

(** A tidy, trimmed string is a key already. *)
Lemma normalizeName_fixed k :
  tidy true k = true -> trimEnd k = k -> normalizeName k = k.
Proof.
  intros Ht He. unfold normalizeName.
  rewrite splitCamel_no_upper by (intros c; apply (tidy_no_upper true k c Ht)).
  assert (Hk : trim k = k).
  { unfold trim. rewrite trimStart_tidy_id by exact Ht. exact He. }
  rewrite Hk, (toLowerCase_tidy true k Ht), (replaceAmp_tidy true k Ht).
  rewrite replaceRuns_not_alnum_tidy by (eapply tidy_weaken; exact Ht).
  rewrite replaceRuns_space_tidy by (eapply tidy_weaken; exact Ht).
  exact Hk.
Qed.

(** ** White space around a name does not reach its key *)

Lemma prepare_cons c r :
  replaceAmp (toLowerCase (c :: r))
  = (if Ascii.eqb (lower_char c) amp then js "and" else [lower_char c])
      ++ replaceAmp (toLowerCase r).
Proof. reflexivity. Qed.

Lemma prepare_space c r :
  is_space c = true ->
  replaceAmp (toLowerCase (c :: r)) = c :: replaceAmp (toLowerCase r).
Proof.
  intros Hc. rewrite prepare_cons, (space_lower_char c Hc), (space_not_amp c Hc).
  reflexivity.
Qed.

Lemma trimStart_runs_flag y :
  trimStart (replaceRuns not_alnum true y)
  = trimStart (replaceRuns not_alnum false y).
Proof.
  destruct y as [|c r]; [reflexivity|]. cbn [replaceRuns].
  destruct (not_alnum c); reflexivity.
Qed.

Lemma runs_leading_space x :
  trimStart (replaceRuns not_alnum false (replaceAmp (toLowerCase (trimStart x))))
  = trimStart (replaceRuns not_alnum false (replaceAmp (toLowerCase x))).
Proof.
  induction x as [|c r IH]; [reflexivity|].
  cbn [trimStart]. destruct (is_space c) eqn:Hc; [|reflexivity].
  rewrite IH, (prepare_space c r Hc). cbn [replaceRuns].
  unfold not_alnum at 2. rewrite (space_not_alnum c Hc). cbn [negb].
  change (trimStart (space :: ?z)) with (trimStart z).
  symmetry. apply trimStart_runs_flag.
Qed.

Lemma trimEnd_cons_cong c y z :
  trimEnd y = trimEnd z -> trimEnd (c :: y) = trimEnd (c :: z).
Proof. intros E. rewrite !trimEnd_cons, E. reflexivity. Qed.

Lemma lowered_alnum_not_space c :
  is_alnum (lower_char c) = true -> is_space c = false.
Proof. ascii_cases c. Qed.

Lemma runs_trailing_space x b :
  trimEnd (replaceRuns not_alnum b (replaceAmp (toLowerCase (trimEnd x))))
  = trimEnd (replaceRuns not_alnum b (replaceAmp (toLowerCase x))).
Proof.
  revert b; induction x as [|c r IH]; intros b; [reflexivity|].
  assert (Hsep : forall y z,
             trimEnd (replaceRuns not_alnum true y)
             = trimEnd (replaceRuns not_alnum true z) ->
             trimEnd (if b then replaceRuns not_alnum true y
                      else space :: replaceRuns not_alnum true y)
             = trimEnd (if b then replaceRuns not_alnum true z
                        else space :: replaceRuns not_alnum true z)).
  { intros y z E. destruct b; [exact E | apply trimEnd_cons_cong, E]. }
  destruct (is_space c) eqn:Hc.
  - rewrite (prepare_space c r Hc). cbn [replaceRuns].
    unfold not_alnum at 2. rewrite (space_not_alnum c Hc). cbn [negb].
    rewrite trimEnd_cons, Hc. destruct (trimEnd r) as [|x l] eqn:E.
    + specialize (IH true). cbn in IH.
      destruct b; [exact IH|]. rewrite trimEnd_cons, <- IH. reflexivity.
    + rewrite (prepare_space c _ Hc). cbn [replaceRuns].
      unfold not_alnum at 1. rewrite (space_not_alnum c Hc). cbn [negb].
      apply Hsep, IH.
  - rewrite trimEnd_cons_keep by exact Hc. rewrite !prepare_cons.
    destruct (Ascii.eqb (lower_char c) amp) eqn:Ha.
    + cbn [js list_ascii_of_string app replaceRuns].
      change (not_alnum "a") with false. change (not_alnum "n") with false.
      change (not_alnum "d") with false. cbn iota.
      rewrite !(trimEnd_cons_keep "a"), !(trimEnd_cons_keep "n"),
        !(trimEnd_cons_keep "d") by reflexivity.
      rewrite IH. reflexivity.
    + cbn [app replaceRuns].
      destruct (is_alnum (lower_char c)) eqn:Hl;
        assert (Hn : not_alnum (lower_char c) = negb (is_alnum (lower_char c)))
          by reflexivity;
        rewrite Hl in Hn; cbn [negb] in Hn; rewrite !Hn.
      * assert (Hs : is_space (lower_char c) = false).
        { rewrite lower_char_space. exact Hc. }
        rewrite !(trimEnd_cons_keep (lower_char c)) by exact Hs.
        rewrite IH. reflexivity.
      * apply Hsep, IH.
Qed.

(** The source's first [trim] changes nothing: the key is the one the
    five steps of the specification give. *)
Lemma normalizeName_spec s : normalizeName s = normalize_spec s.
Proof.
  unfold normalizeName, normalize_spec. cbv zeta.
  rewrite !replaceRuns_space_tidy by apply replaceRuns_tidy.
  unfold trim at 1 3. rewrite <- !trimStart_trimEnd.
  unfold trim. rewrite runs_trailing_space.
  rewrite !trimStart_trimEnd. rewrite runs_leading_space. reflexivity.
Qed.

(** ** Spellings of one name *)

Lemma prepare_amp u v :
  head_upper v = false ->
  replaceAmp (toLowerCase (trim (splitCamel (u ++ amp :: v))))
  = replaceAmp (toLowerCase (trim (splitCamel (u ++ js "and" ++ v)))).
Proof.
  intros Hv.
  rewrite (splitCamel_app u (amp :: v)) by reflexivity.
  rewrite (splitCamel_app u (js "and" ++ v)) by reflexivity.
  rewrite (splitCamel_cons_other amp) by reflexivity.
  cbn [js list_ascii_of_string app].
  rewrite (splitCamel_cons_before "a") by reflexivity.
  rewrite (splitCamel_cons_before "n") by reflexivity.
  rewrite (splitCamel_cons_before "d") by exact Hv.
  rewrite !trim_app_keep by reflexivity.
  rewrite !(trimEnd_cons_keep "n"), !(trimEnd_cons_keep "d") by reflexivity.
  unfold toLowerCase, replaceAmp. rewrite !map_app, !flat_map_app.
  reflexivity.
Qed.

Lemma same_spelling_key s t :
  SameSpelling s t -> normalizeName s = normalizeName t.
Proof.
  induction 1 as [u a b v Ha Hb | u v Hv | s | s t _ IH | s t r _ IH1 _ IH2].
  - unfold normalizeName. rewrite splitCamel_spaced by assumption.
    reflexivity.
  - unfold normalizeName. rewrite (prepare_amp u v Hv). reflexivity.
  - reflexivity.
  - symmetry. exact IH.
  - etransitivity; eassumption.
Qed.

(** C1, as the code has it.  Two spellings of a name that differ by a space
    at a camel-case boundary, or by an ampersand written as [and] where no
    capital follows it directly, have the same key; so do "VentureBeat"
    and "Venture Beat", and "Rolling & Stone" and "rolling and stone"; and
    the key is what the five steps give: a space at every lower-to-upper
    boundary, lower case, [and] for the ampersand, one space for every run
    outside [a-z0-9], white space collapsed and trimmed. *)
Theorem normalizeName_reconciles_spellings :
  (forall s t, SameSpelling s t -> normalizeName s = normalizeName t)
  /\ normalizeName (js "VentureBeat") = normalizeName (js "Venture Beat")
  /\ normalizeName (js "Rolling & Stone")
     = normalizeName (js "rolling and stone")
  /\ (forall s, normalizeName s = normalize_spec s).
Proof.
  split; [exact same_spelling_key|].
  split; [reflexivity|]. split; [reflexivity|]. exact normalizeName_spec.
Qed.

Lemma normalizeName_reconciles_spellings_witness :
  SameSpelling (js "VentureBeat") (js "Venture Beat")
  /\ SameSpelling (js "Rolling & Stone") (js "Rolling and Stone")
  /\ normalizeName (js "VentureBeat") = normalizeName (js "Venture Beat")
  /\ normalizeName (js "Rolling & Stone")
     = normalizeName (js "Rolling and Stone").
Proof.
  assert (H1 : SameSpelling (js "VentureBeat") (js "Venture Beat")).
  { apply (ss_camel (js "Ventur") "e" "B" (js "eat")); reflexivity. }
  assert (H2 : SameSpelling (js "Rolling & Stone") (js "Rolling and Stone")).
  { apply (ss_amp (js "Rolling ") (js " Stone")); reflexivity. }
  split; [exact H1|]. split; [exact H2|].
  split; apply (proj1 normalizeName_reconciles_spellings); assumption.
Defined.

(** The ampersand is rewritten after the camel-case scan: [and] right
    before a capital is split from it, the ampersand is not, and the two
    spellings get different keys. *)
Lemma ampersand_before_capital :
  normalizeName (js "AT&T") = js "atandt"
  /\ normalizeName (js "ATandT") = js "atand t"
  /\ normalizeName (js "AT&T") <> normalizeName (js "ATandT").
Proof. split; [reflexivity|]. split; [reflexivity | discriminate]. Qed.

(** C9.  [normalizeName] is idempotent: a key holds only lower-case
    letters, digits and single spaces between them, and every step leaves
    such a string as it is. *)
Theorem normalizeName_idempotent s :
  normalizeName (normalizeName s) = normalizeName s
  /\ (forall c, In c (normalizeName s) -> is_alnum c = true \/ c = space)
  /\ tidy true (normalizeName s) = true
  /\ trimEnd (normalizeName s) = normalizeName s.
Proof.
  pose proof (normalizeName_tidy s) as Ht.
  pose proof (normalizeName_trimmed s) as He.
  split; [apply normalizeName_fixed; assumption|].
  split; [intros c; apply (tidy_chars true _ c Ht)|].
  split; assumption.
Qed.

(** ** Turnaround times *)

Example parseTAT_ex :
  map parseTAT [js "3 days"; js "2 weeks"; js "1 month"; js ""; js "ASAP";
                js "1 week 2 days"; js "Same Day"; js "1-2 Weeks";
                js "days: 12"; js "monthly"]
  = map Finite [3; 14; 30; 999; 999; 1; 1; 7; 12; 30]%Z.
Proof. reflexivity. Qed.

(** Where the doubles thin out: 2^53 + 1 lies half way between two of
    them and goes to the even one, the largest double is
    (2^53 - 1) * 2^971, and what rounds to 2^1024 is [Infinity]. *)
Example nearestDouble_ex :
  map nearestDouble [9007199254740991; 9007199254740992; 9007199254740993;
                     9007199254740994; 9007199254740995;
                     100000000000000000000000]%Z
  = map Finite [9007199254740991; 9007199254740992; 9007199254740992;
                9007199254740994; 9007199254740996;
                99999999999999991611392]%Z
  /\ nearestDouble (2 ^ 1024 - 2 ^ 970 - 1) = Finite ((2 ^ 53 - 1) * 2 ^ 971)
  /\ nearestDouble (2 ^ 1024 - 2 ^ 970) = Infinity
  /\ times (Finite ((2 ^ 53 - 1) * 2 ^ 971)) 7 = Infinity.
Proof. repeat split; vm_compute; reflexivity. Qed.

Lemma nearestDouble_small n : (n < 2 ^ 53)%Z -> nearestDouble n = Finite n.
Proof.
  intros H. unfold nearestDouble. apply Z.ltb_lt in H. rewrite H.
  reflexivity.
Qed.

Lemma times_small k c :
  (1 <= c)%Z -> (k * c < 2 ^ 53)%Z ->
  times (nearestDouble k) c = Finite (k * c).
Proof.
  intros Hc H.
  assert (Hk : (k < 2 ^ 53)%Z).
  { change (2 ^ 53)%Z with 9007199254740992%Z in *. nia. }
  rewrite (nearestDouble_small k Hk). cbn [times].
  apply nearestDouble_small, H.
Qed.

(** The pieces of the rounding of [n >= 2^53]. *)
Lemma significand_bounds n :
  (2 ^ 53 <= n)%Z ->
  let e := (Z.log2 n - 52)%Z in
  let q := Z.shiftr n e in
  (1 <= e)%Z /\ (2 ^ 52 <= q < 2 ^ 53)%Z
  /\ (q * 2 ^ e <= n < q * 2 ^ e + 2 ^ e)%Z
  /\ (2 ^ e = 2 * 2 ^ (e - 1))%Z /\ (0 < 2 ^ (e - 1))%Z.
Proof.
  intros Hn e q.
  assert (Hpos : (0 < n)%Z).
  { change (2 ^ 53)%Z with 9007199254740992%Z in Hn. lia. }
  assert (Hl : (53 <= Z.log2 n)%Z).
  { change 53%Z with (Z.log2 (2 ^ 53)). apply Z.log2_le_mono, Hn. }
  assert (He : (1 <= e)%Z) by (unfold e; lia).
  destruct (Z.log2_spec n Hpos) as [Hlo Hhi].
  assert (Hp : (0 < 2 ^ e)%Z) by (apply Z.pow_pos_nonneg; lia).
  assert (E1 : (2 ^ Z.log2 n = 2 ^ 52 * 2 ^ e)%Z).
  { rewrite <- Z.pow_add_r by lia. f_equal. unfold e. lia. }
  assert (E2 : (2 ^ Z.succ (Z.log2 n) = 2 ^ 53 * 2 ^ e)%Z).
  { rewrite <- Z.pow_add_r by lia. f_equal. unfold e. lia. }
  rewrite E1 in Hlo. rewrite E2 in Hhi.
  assert (Eq : q = (n / 2 ^ e)%Z) by (apply Z.shiftr_div_pow2; lia).
  split; [exact He|]. split; [|split; [|split]].
  - rewrite Eq. split.
    + apply Z.div_le_lower_bound; [exact Hp | lia].
    + apply Z.div_lt_upper_bound; [exact Hp | lia].
  - rewrite Eq. pose proof (Z.div_mod n (2 ^ e) ltac:(lia)) as Hdm.
    pose proof (Z.mod_pos_bound n (2 ^ e) Hp) as Hm. lia.
  - replace e with (Z.succ (e - 1)) at 1 by lia.
    apply Z.pow_succ_r. lia.
  - apply Z.pow_pos_nonneg; lia.
Qed.

(** From 2^53 on, the value is a number of 53 significant bits, [q] times a
    power of two, and no such number is nearer to [n]: it lies at most
    half a unit of the last bit away, and where [n] lies half way [q] is
    even. *)
Lemma nearestDouble_nearest n v :
  (2 ^ 53 <= n)%Z -> nearestDouble n = Finite v ->
  exists q e,
    (1 <= e)%Z /\ (2 ^ 52 <= q <= 2 ^ 53)%Z /\ v = (q * 2 ^ e)%Z
    /\ (2 * Z.abs (v - n) <= 2 ^ e)%Z
    /\ ((2 * Z.abs (v - n) = 2 ^ e)%Z -> Z.even q = true).
Proof.
  intros Hn. unfold nearestDouble.
  destruct (n <? 2 ^ 53)%Z eqn:E; [apply Z.ltb_lt in E; lia|]. clear E.
  destruct (significand_bounds n Hn) as (He & Hq & Hr & Hh & Hh0).
  cbv zeta.
  set (e := (Z.log2 n - 52)%Z) in *. set (q := Z.shiftr n e) in *.
  rewrite !Z.shiftl_mul_pow2 by lia. rewrite Z.mul_1_l.
  set (P := (2 ^ e)%Z) in *. set (H := (2 ^ (e - 1))%Z) in *.
  set (M := (q * P)%Z) in *.
  destruct ((H <? n - M)%Z || ((n - M =? H)%Z && Z.odd q)) eqn:Eb.
  - cbv iota. destruct ((q + 1) * P <? 2 ^ 1024)%Z; [|discriminate].
    intros [= <-]. exists (q + 1)%Z, e.
    split; [exact He|]. split; [lia|]. split; [reflexivity|].
    replace ((q + 1) * P)%Z with (M + P)%Z by (unfold M; ring).
    apply orb_true_iff in Eb as [Eb|Eb].
    + apply Z.ltb_lt in Eb. split; lia.
    + apply andb_true_iff in Eb as [Eb Ho]. apply Z.eqb_eq in Eb.
      split; [lia|]. intros _.
      replace (q + 1)%Z with (Z.succ q) by lia.
      rewrite Z.even_succ. exact Ho.
  - cbv iota. fold M. destruct (M <? 2 ^ 1024)%Z; [|discriminate].
    intros [= <-]. exists q, e.
    split; [exact He|]. split; [lia|]. split; [reflexivity|].
    apply orb_false_iff in Eb as [Eb Eo]. apply Z.ltb_ge in Eb.
    split; [lia|]. intros Hhalf.
    assert (Er : (n - M =? H)%Z = true) by (apply Z.eqb_eq; lia).
    rewrite Er in Eo. cbn [andb] in Eo.
    rewrite <- Z.negb_odd, Eo. reflexivity.
Qed.

(** [Infinity] begins where the largest double, (2^53 - 1) * 2^971, is
    left behind by half a unit of its last bit. *)
Lemma nearestDouble_Infinity n :
  nearestDouble n = Infinity <-> (2 ^ 1024 - 2 ^ 970 <= n)%Z.
Proof.
  unfold nearestDouble.
  destruct (n <? 2 ^ 53)%Z eqn:E.
  { apply Z.ltb_lt in E. split; [discriminate|]. intros Hn. exfalso.
    assert (2 ^ 53 < 2 ^ 1024 - 2 ^ 970)%Z by reflexivity. lia. }
  apply Z.ltb_ge in E.
  destruct (significand_bounds n E) as (He & Hq & Hr & Hh & Hh0).
  cbv zeta.
  set (e := (Z.log2 n - 52)%Z) in *. set (q := Z.shiftr n e) in *.
  rewrite !Z.shiftl_mul_pow2 by lia. rewrite Z.mul_1_l.
  assert (C : (2 ^ 1024 = 2 ^ 53 * 2 ^ 971)%Z) by reflexivity.
  assert (C' : (2 ^ 971 = 2 * 2 ^ 970)%Z) by reflexivity.
  assert (K0 : (0 < 2 ^ 970)%Z) by reflexivity.
  assert (B52 : (2 ^ 53 = 2 * 2 ^ 52)%Z) by reflexivity.
  assert (B0 : (0 < 2 ^ 52)%Z) by reflexivity.
  rewrite C, C'. rewrite C' in C.
  set (K := (2 ^ 970)%Z) in *. set (T := (2 ^ 52)%Z) in *.
  rewrite B52 in *.
  destruct (Z.lt_trichotomy e 971) as [Hlt|[Heq|Hgt]].
  - (* the unit is at most 2^970 *)
    assert (HP : (2 ^ e <= K)%Z).
    { unfold K. apply Z.pow_le_mono_r; lia. }
    set (P := (2 ^ e)%Z) in *. set (H := (2 ^ (e - 1))%Z) in *.
    assert (Hv : forall q', (q' <= q + 1)%Z ->
                            (q' * P <? 2 * T * (2 * K))%Z = true).
    { intros q' Hq'. apply Z.ltb_lt. nia. }
    rewrite Hv by (destruct (_ || _); lia).
    split; [discriminate|]. intros Hn. exfalso. nia.
  - (* the unit is 2^971 *)
    assert (EP : (2 ^ e = 2 * K)%Z) by (rewrite Heq; exact C').
    assert (EH : (2 ^ (e - 1) = K)%Z) by (rewrite Heq; reflexivity).
    rewrite EP, EH in *.
    destruct ((K <? n - q * (2 * K))%Z
              || ((n - q * (2 * K) =? K)%Z && Z.odd q)) eqn:Eb.
    + destruct ((q + 1) * (2 * K) <? 2 * T * (2 * K))%Z eqn:Ev.
      * apply Z.ltb_lt in Ev. split; [discriminate|]. intros Hn.
        exfalso. nia.
      * apply Z.ltb_ge in Ev. split; [|reflexivity]. intros _.
        assert (q = 2 * T - 1)%Z by nia. subst q.
        apply orb_true_iff in Eb as [Eb|Eb].
        -- apply Z.ltb_lt in Eb. nia.
        -- apply andb_true_iff in Eb as [Eb _]. apply Z.eqb_eq in Eb. nia.
    + destruct (q * (2 * K) <? 2 * T * (2 * K))%Z eqn:Ev.
      * split; [discriminate|]. intros Hn. exfalso.
        apply orb_false_iff in Eb as [Eb Eo]. apply Z.ltb_ge in Eb.
        assert (Hq1 : (q = 2 * T - 1)%Z) by nia.
        assert (Er : (n - q * (2 * K) = K)%Z) by nia.
        rewrite Er, Z.eqb_refl in Eo. cbn [andb] in Eo.
        assert (Ho : Z.odd q = true).
        { rewrite Hq1. unfold T. reflexivity. }
        congruence.
      * apply Z.ltb_ge in Ev. exfalso. nia.
  - (* the unit is 2^972 or more *)
    assert (HP : (2 * (2 * K) <= 2 ^ e)%Z).
    { change (2 * (2 * K))%Z with (2 ^ 972)%Z.
      apply Z.pow_le_mono_r; lia. }
    set (P := (2 ^ e)%Z) in *. set (H := (2 ^ (e - 1))%Z) in *.
    assert (Hv : forall q', (q <= q')%Z ->
                            (q' * P <? 2 * T * (2 * K))%Z = false).
    { intros q' Hq'. apply Z.ltb_ge. nia. }
    rewrite Hv by (destruct (_ || _); lia).
    split; [intros _; nia | reflexivity].
Qed.

Lemma takeDigits_lower s : takeDigits (toLowerCase s) = takeDigits s.
Proof.
  induction s as [|c r IH]; [reflexivity|].
  cbn [toLowerCase map takeDigits] in *.
  rewrite lower_char_digit. destruct (is_digit c) eqn:Hc; [|reflexivity].
  rewrite (digit_lower_char c Hc). f_equal. exact IH.
Qed.

Lemma matchDigits_lower s : matchDigits (toLowerCase s) = matchDigits s.
Proof.
  induction s as [|c r IH]; [reflexivity|].
  cbn [toLowerCase map matchDigits] in *.
  rewrite lower_char_digit. destruct (is_digit c) eqn:Hc; [|exact IH].
  rewrite (digit_lower_char c Hc). f_equal. f_equal.
  apply takeDigits_lower.
Qed.

Lemma takeDigits_run ds post :
  forallb is_digit ds = true -> head_digit post = false ->
  takeDigits (ds ++ post) = ds.
Proof.
  intros Hd Hp. induction ds as [|d ds IH]; cbn [app takeDigits].
  - destruct post as [|c post]; [reflexivity|].
    cbn [head_digit] in Hp. cbn [takeDigits]. rewrite Hp. reflexivity.
  - cbn [forallb] in Hd. apply andb_true_iff in Hd as [Hd Hds]. rewrite Hd.
    f_equal. apply IH. exact Hds.
Qed.

Lemma matchDigits_first s ds : firstRun s ds -> matchDigits s = Some ds.
Proof.
  intros (pre & post & -> & Hpre & Hne & Hd & Hp).
  induction pre as [|c pre IH].
  - destruct ds as [|d ds]; [congruence|].
    cbn [forallb] in Hd. cbn [app matchDigits].
    apply andb_true_iff in Hd as [Hd Hds]. rewrite Hd.
    rewrite takeDigits_run by assumption. reflexivity.
  - cbn [app matchDigits]. rewrite (Hpre c) by (left; reflexivity).
    apply IH. intros x Hx. apply Hpre. right. exact Hx.
Qed.

Lemma matchDigits_none s : noDigits s -> matchDigits s = None.
Proof.
  induction s as [|c r IH]; intros H; [reflexivity|]. cbn [matchDigits].
  rewrite (H c) by (left; reflexivity).
  apply IH. intros x Hx. apply H. right. exact Hx.
Qed.

Lemma takeDigits_split s :
  exists post, s = takeDigits s ++ post
               /\ forallb is_digit (takeDigits s) = true
               /\ head_digit post = false.
Proof.
  induction s as [|c r (post & E & Hd & Hp)].
  - exists []. repeat split.
  - cbn [takeDigits]. destruct (is_digit c) eqn:Hc.
    + exists post. cbn [app forallb]. rewrite Hc, Hd, <- E.
      repeat split. exact Hp.
    + exists (c :: r). cbn [app forallb head_digit]. rewrite Hc.
      repeat split.
Qed.

(** Every text either holds no digit or has a first integer. *)
Lemma digits_cases s : noDigits s \/ exists ds, firstRun s ds.
Proof.
  induction s as [|c r IH].
  - left. intros c [].
  - destruct (is_digit c) eqn:Hc.
    + right. destruct (takeDigits_split r) as (post & E & Hd & Hp).
      exists (c :: takeDigits r), [], post. cbn [app forallb].
      rewrite Hc, Hd, <- E.
      repeat split; [intros x [] | discriminate | exact Hp].
    + destruct IH as [Hn | (ds & pre & post & E & Hpre & Hne & Hd & Hp)].
      * left. intros x [<-|Hx]; [exact Hc | apply Hn, Hx].
      * right. exists ds, (c :: pre), post. rewrite E.
        repeat split; try assumption.
        intros x [<-|Hx]; [exact Hc | apply Hpre, Hx].
Qed.

(** [parseTAT] as one chain of tests on the text. *)
Lemma parseTAT_chain s :
  parseTAT s
  = if mentions s "day" then
      match matchDigits s with
      | Some nums => parseInt nums
      | None => Finite 1
      end
    else if mentions s "week" then
      match matchDigits s with
      | Some nums => times (parseInt nums) 7
      | None => Finite 7
      end
    else if mentions s "month" then
      match matchDigits s with
      | Some nums => times (parseInt nums) 30
      | None => Finite 30
      end
    else Finite 999.
Proof.
  destruct s as [|c r]; [reflexivity|].
  unfold parseTAT, mentions. cbv zeta. rewrite matchDigits_lower.
  reflexivity.
Qed.

Lemma startsWith_lower s t :
  startsWith s t = true -> startsWith (toLowerCase s) (toLowerCase t) = true.
Proof.
  revert s; induction t as [|y t IH]; intros [|x s];
    cbn [toLowerCase map startsWith] in *; try easy.
  intros H. apply andb_true_iff in H as [E H].
  apply Ascii.eqb_eq in E. subst. rewrite Ascii.eqb_refl. apply IH, H.
Qed.

Lemma includes_lower s t :
  includes s t = true -> includes (toLowerCase s) (toLowerCase t) = true.
Proof.
  induction s as [|x s IH]; intros H.
  - change (includes [] t) with (startsWith [] t || false) in H.
    rewrite orb_false_r in H. apply startsWith_lower in H.
    change (includes (toLowerCase []) (toLowerCase t))
      with (startsWith (toLowerCase []) (toLowerCase t) || false).
    rewrite H. reflexivity.
  - change (includes (x :: s) t)
      with (startsWith (x :: s) t || includes s t) in H.
    change (includes (toLowerCase (x :: s)) (toLowerCase t))
      with (startsWith (toLowerCase (x :: s)) (toLowerCase t)
            || includes (toLowerCase s) (toLowerCase t)).
    apply orb_true_iff in H as [H|H]; apply orb_true_iff.
    + left. apply startsWith_lower, H.
    + right. apply IH, H.
Qed.

(** A text that contains a lower-case word mentions it. *)
Lemma includes_mentions s w :
  toLowerCase (js w) = js w -> includes s (js w) = true -> mentions s w = true.
Proof.
  intros Hw H. unfold mentions. rewrite <- Hw. apply includes_lower, H.
Qed.

Lemma firstInteger_matchDigits s dflt :
  FirstInteger s dflt
    (match matchDigits s with Some nums => digitsValue nums | None => dflt end).
Proof.
  split.
  - intros ds H. rewrite (matchDigits_first s ds H). reflexivity.
  - intros H. rewrite (matchDigits_none s H). reflexivity.
Qed.

Lemma parseTAT_day s :
  mentions s "day" = true ->
  exists k, FirstInteger s 1 k
            /\ parseTAT s = nearestDouble k
            /\ ((k < 2 ^ 53)%Z -> parseTAT s = Finite k).
Proof.
  intros Hd. eexists. split; [apply firstInteger_matchDigits|].
  assert (E : parseTAT s
              = nearestDouble (match matchDigits s with
                               | Some nums => digitsValue nums
                               | None => 1%Z
                               end)).
  { rewrite parseTAT_chain, Hd. destruct (matchDigits s); reflexivity. }
  split; [exact E|]. intros H. rewrite E. apply nearestDouble_small, H.
Qed.

Lemma parseTAT_week s :
  mentions s "day" = false -> mentions s "week" = true ->
  exists k, FirstInteger s 1 k
            /\ parseTAT s = times (nearestDouble k) 7
            /\ ((k * 7 < 2 ^ 53)%Z -> parseTAT s = Finite (k * 7)).
Proof.
  intros Hd Hw. eexists. split; [apply firstInteger_matchDigits|].
  assert (E : parseTAT s
              = times (nearestDouble (match matchDigits s with
                                      | Some nums => digitsValue nums
                                      | None => 1%Z
                                      end)) 7).
  { rewrite parseTAT_chain, Hd, Hw. destruct (matchDigits s); reflexivity. }
  split; [exact E|]. intros H. rewrite E. apply times_small; [lia | exact H].
Qed.

Lemma parseTAT_month s :
  mentions s "day" = false -> mentions s "week" = false ->
  mentions s "month" = true ->
  exists k, FirstInteger s 1 k
            /\ parseTAT s = times (nearestDouble k) 30
            /\ ((k * 30 < 2 ^ 53)%Z -> parseTAT s = Finite (k * 30)).
Proof.
  intros Hd Hw Hm. eexists. split; [apply firstInteger_matchDigits|].
  assert (E : parseTAT s
              = times (nearestDouble (match matchDigits s with
                                      | Some nums => digitsValue nums
                                      | None => 1%Z
                                      end)) 30).
  { rewrite parseTAT_chain, Hd, Hw, Hm. destruct (matchDigits s); reflexivity. }
  split; [exact E|]. intros H. rewrite E. apply times_small; [lia | exact H].
Qed.

Lemma parseTAT_other s :
  mentions s "day" = false -> mentions s "week" = false ->
  mentions s "month" = false -> parseTAT s = Finite 999.
Proof. intros Hd Hw Hm. rewrite parseTAT_chain, Hd, Hw, Hm. reflexivity. Qed.

(** The first integer of a text that begins with a run of digits. *)
Lemma firstInteger_here s ds dflt :
  matchDigits s = Some ds -> FirstInteger s dflt (digitsValue ds).
Proof.
  intros E. pose proof (firstInteger_matchDigits s dflt) as H.
  rewrite E in H. exact H.
Qed.

(** C2, as the code has it.  "3 days" is 3, "2 weeks" 14, "1 month" 30, the
    empty text and "ASAP" 999.  A text that mentions "day" gives its first
    integer (1 without digits); otherwise one that mentions "week" gives
    seven times its first integer (7 without digits); otherwise one that
    mentions "month" gives thirty times it (30 without digits); every
    other text gives 999.  The value is a JavaScript number: it is that
    integer, or that product, whenever this is below 2^53, and in general
    the double nearest to the integer, multiplied and rounded to a double
    once more.  The words are looked for in the lower-cased text, so a text
    that contains one as written mentions it. *)
Theorem parseTAT_durations :
  parseTAT (js "3 days") = Finite 3
  /\ parseTAT (js "2 weeks") = Finite 14
  /\ parseTAT (js "1 month") = Finite 30
  /\ parseTAT (js "") = Finite 999
  /\ parseTAT (js "ASAP") = Finite 999
  /\ (forall s, mentions s "day" = true ->
        exists k, FirstInteger s 1 k
                  /\ parseTAT s = nearestDouble k
                  /\ ((k < 2 ^ 53)%Z -> parseTAT s = Finite k))
  /\ (forall s, mentions s "day" = false -> mentions s "week" = true ->
        exists k, FirstInteger s 1 k
                  /\ parseTAT s = times (nearestDouble k) 7
                  /\ ((k * 7 < 2 ^ 53)%Z -> parseTAT s = Finite (k * 7)))
  /\ (forall s, mentions s "day" = false -> mentions s "week" = false ->
        mentions s "month" = true ->
        exists k, FirstInteger s 1 k
                  /\ parseTAT s = times (nearestDouble k) 30
                  /\ ((k * 30 < 2 ^ 53)%Z -> parseTAT s = Finite (k * 30)))
  /\ (forall s, mentions s "day" = false -> mentions s "week" = false ->
        mentions s "month" = false -> parseTAT s = Finite 999)
  /\ (forall s w, In w ["day"; "week"; "month"]%string ->
        includes s (js w) = true -> mentions s w = true).
Proof.
  repeat (split; [reflexivity|]).
  split; [exact parseTAT_day|]. split; [exact parseTAT_week|].
  split; [exact parseTAT_month|]. split; [exact parseTAT_other|].
  intros s w Hw. apply includes_mentions.
  destruct Hw as [<-|[<-|[<-|[]]]]; reflexivity.
Qed.

Lemma parseTAT_durations_witness :
  (mentions (js "Within 10 Days") "day" = true
   /\ exists k, FirstInteger (js "Within 10 Days") 1 k
                /\ parseTAT (js "Within 10 Days") = nearestDouble k
                /\ ((k < 2 ^ 53)%Z
                    -> parseTAT (js "Within 10 Days") = Finite k))
  /\ (mentions (js "about 3 weeks") "day" = false
      /\ mentions (js "about 3 weeks") "week" = true
      /\ exists k, FirstInteger (js "about 3 weeks") 1 k
                   /\ parseTAT (js "about 3 weeks") = times (nearestDouble k) 7
                   /\ ((k * 7 < 2 ^ 53)%Z
                       -> parseTAT (js "about 3 weeks") = Finite (k * 7)))
  /\ FirstInteger (js "Within 10 Days") 1 10
  /\ (10 < 2 ^ 53)%Z
  /\ parseTAT (js "Within 10 Days") = Finite 10
  /\ parseTAT (js "about 3 weeks") = Finite 21.
Proof.
  destruct parseTAT_durations as (_ & _ & _ & _ & _ & Hd & Hw & _).
  split; [split; [reflexivity | apply Hd; reflexivity]|].
  split; [split; [reflexivity | split; [reflexivity|]];
          apply Hw; reflexivity|].
  split; [apply (firstInteger_here _ (js "10")); reflexivity|].
  repeat split.
Defined.

(** From 2^53 on the value is not always the integer written:
    9007199254740993 (2^53 + 1) is no double, and "9007199254740993 days"
    gives 9007199254740992; in weeks, seven times 1286742750677285 is
    9007199254740995 and the product gives 9007199254740996. *)
Lemma parseTAT_rounds_long_integer :
  let s := js "9007199254740993 days" in
  let w := js "1286742750677285 weeks" in
  mentions s "day" = true
  /\ FirstInteger s 1 9007199254740993
  /\ parseTAT s = Finite 9007199254740992
  /\ parseTAT s <> Finite 9007199254740993
  /\ mentions w "day" = false /\ mentions w "week" = true
  /\ FirstInteger w 1 1286742750677285
  /\ parseTAT w = Finite 9007199254740996
  /\ parseTAT w <> Finite (1286742750677285 * 7).
Proof.
  intros s w.
  split; [reflexivity|].
  split; [apply (firstInteger_here _ (js "9007199254740993")); reflexivity|].
  split; [vm_compute; reflexivity|].
  split; [vm_compute; discriminate|].
  split; [reflexivity|]. split; [reflexivity|].
  split; [apply (firstInteger_here _ (js "1286742750677285")); reflexivity|].
  split; [vm_compute; reflexivity | vm_compute; discriminate].
Qed.

(** C10, as the code has it.  The unit is chosen by a fixed precedence,
    "day" before "week" before "month", whatever the letter case, and the
    integer is the first run of digits of the whole text: a text that
    mentions a day and a week (or a month) gives its first integer as days,
    one that mentions a week and a month but no day gives seven times its
    first integer; so "1 week 2 days" is 1.  The value is a JavaScript
    number: the integer, or the product, itself below 2^53, and the
    nearest double in general. *)
Theorem parseTAT_unit_precedence :
  (forall s, mentions s "day" = true -> mentions s "week" = true ->
     exists k, FirstInteger s 1 k
               /\ parseTAT s = nearestDouble k
               /\ ((k < 2 ^ 53)%Z -> parseTAT s = Finite k))
  /\ (forall s, mentions s "day" = true -> mentions s "month" = true ->
        exists k, FirstInteger s 1 k
                  /\ parseTAT s = nearestDouble k
                  /\ ((k < 2 ^ 53)%Z -> parseTAT s = Finite k))
  /\ (forall s, mentions s "day" = false -> mentions s "week" = true ->
        mentions s "month" = true ->
        exists k, FirstInteger s 1 k
                  /\ parseTAT s = times (nearestDouble k) 7
                  /\ ((k * 7 < 2 ^ 53)%Z -> parseTAT s = Finite (k * 7)))
  /\ (forall pre ds post,
        noDigits pre -> ds <> [] -> forallb is_digit ds = true ->
        head_digit post = false ->
        mentions (pre ++ ds ++ post) "day" = true ->
        parseTAT (pre ++ ds ++ post) = parseInt ds)
  /\ parseTAT (js "1 week 2 days") = Finite 1
  /\ parseTAT (js "1 WEEK 2 DAYS") = Finite 1
  /\ parseTAT (js "2 months 1 week") = Finite 14.
Proof.
  split; [intros s Hd _; apply parseTAT_day, Hd|].
  split; [intros s Hd _; apply parseTAT_day, Hd|].
  split; [intros s Hd Hw _; apply parseTAT_week; assumption|].
  split; [|repeat split].
  intros pre ds post Hpre Hne Hds Hpost Hd.
  destruct (parseTAT_day _ Hd) as (k & [Hk _] & -> & _).
  unfold parseInt. f_equal.
  apply Hk. exists pre, post. repeat split; assumption.
Qed.

Lemma parseTAT_unit_precedence_witness :
  mentions (js "1 week 2 days") "day" = true
  /\ mentions (js "1 week 2 days") "week" = true
  /\ (exists k, FirstInteger (js "1 week 2 days") 1 k
                /\ parseTAT (js "1 week 2 days") = nearestDouble k
                /\ ((k < 2 ^ 53)%Z
                    -> parseTAT (js "1 week 2 days") = Finite k))
  /\ FirstInteger (js "1 week 2 days") 1 1
  /\ parseTAT (js "a week or " ++ js "12" ++ js " days") = parseInt (js "12")
  /\ parseInt (js "12") = Finite 12.
Proof.
  destruct parseTAT_unit_precedence as (H1 & _ & _ & H4 & _).
  split; [reflexivity|]. split; [reflexivity|].
  split; [apply H1; reflexivity|].
  split; [apply (firstInteger_here _ (js "1")); reflexivity|].
  split; [|reflexivity].
  apply H4; try reflexivity; [|discriminate].
  intros c Hc. repeat (destruct Hc as [<-|Hc]; [reflexivity|]).
  destruct Hc.
Defined.

(** The precedence does not make the value exact: a text that mentions a
    day and a week and begins with 9007199254740993 gives
    9007199254740992, which is neither its first integer nor the integer
    next to a unit. *)
Lemma unit_precedence_rounds_long_integer :
  let s := js "9007199254740993 days or 1 week" in
  mentions s "day" = true /\ mentions s "week" = true
  /\ FirstInteger s 1 9007199254740993
  /\ parseTAT s = Finite 9007199254740992
  /\ parseTAT s <> Finite 9007199254740993.
Proof.
  intros s.
  split; [reflexivity|]. split; [reflexivity|].
  split; [apply (firstInteger_here _ (js "9007199254740993")); reflexivity|].
  split; [vm_compute; reflexivity | vm_compute; discriminate].
Qed.

(** ** The filter *)

(** The scenario of the specification: the records of region USA by
    descending price, then the sponsored ones among them. *)
Example end_to_end_scenario :
  let st := handleSort (setSelectedRegions (initialState sampleData)
                                           [js "USA"]) col_price desc in
  filteredPublications st = [forbes; wired]
  /\ filteredPublications (setSelectedSponsored st (js "Yes")) = [forbes].
Proof. split; reflexivity. Qed.

(** A radio group without a choice keeps every record; "Yes" keeps the
    records with the flag, any other choice those without. *)
Lemma flagStage_cases sel b :
  flagStage [] b = true
  /\ flagStage (js "Yes") b = b
  /\ (sel <> [] -> sel <> js "Yes" -> flagStage sel b = negb b).
Proof.
  split; [reflexivity|]. split; [destruct b; reflexivity|].
  intros Hne Hyes. unfold flagStage.
  destruct sel as [|c r]; [contradiction|]. cbn [truthy].
  destruct (str_eqb (c :: r) (js "Yes")) eqn:E.
  - apply str_eqb_eq in E. contradiction.
  - destruct b; reflexivity.
Qed.

Lemma Qltb_lt a b : Qltb a b = true <-> (a < b)%Q.
Proof.
  unfold Qltb. rewrite negb_true_iff, <- not_true_iff_false, Qle_bool_iff.
  split; [apply Qnot_le_lt | apply Qlt_not_le].
Qed.

Lemma Qltb_ge a b : Qltb a b = false <-> (b <= a)%Q.
Proof. unfold Qltb. rewrite negb_false_iff. apply Qle_bool_iff. Qed.

Lemma priceStage_iff st pub :
  priceStage st pub = true
  <-> (priceMin st <= price pub)%Q /\ (price pub <= priceMax st)%Q.
Proof.
  unfold priceStage. rewrite negb_true_iff, orb_false_iff, !Qltb_ge.
  reflexivity.
Qed.

(** The callback keeps a record exactly when every stage lets it pass. *)
Lemma keeps_stages st pub :
  keeps st pub
  = searchStage st pub && genreStage st pub && regionStage st pub
    && priceStage st pub
    && flagStage (selectedSponsored st) (sponsored pub)
    && flagStage (selectedIndexed st) (indexed pub)
    && flagStage (selectedDoFollow st) (do_follow pub).
Proof.
  unfold keeps.
  destruct (searchStage st pub), (genreStage st pub), (regionStage st pub),
    (priceStage st pub), (flagStage (selectedSponsored st) (sponsored pub)),
    (flagStage (selectedIndexed st) (indexed pub)),
    (flagStage (selectedDoFollow st) (do_follow pub)); reflexivity.
Qed.

Lemma genreStage_iff st pub :
  genreStage st pub = true
  <-> selectedGenres st = []
      \/ exists g, In g (selectedGenres st) /\ In g (genres pub).
Proof.
  unfold genreStage. destruct (selectedGenres st) as [|g0 sel] eqn:E.
  - cbn. tauto.
  - change (0 <? List.length (g0 :: sel))%nat with true. cbv iota.
    rewrite existsb_exists. split.
    + intros (g & Hg & Hin). right. exists g. split; [exact Hg|].
      apply arr_includes_In, Hin.
    + intros [H|(g & Hg & Hin)]; [discriminate|].
      exists g. split; [exact Hg|]. apply arr_includes_In, Hin.
Qed.

(** C6.  With a selection that is not empty the genre filter keeps a
    record iff one of its genres is selected; with an empty selection it
    keeps every record.  A record with genres A and B passes when A or B
    is selected, and fails only when the selection is not empty and holds
    neither; a record that fails the genre filter is not kept. *)
Theorem genre_filter_or_semantics :
  (forall st pub, selectedGenres st <> [] ->
     (genreStage st pub = true
      <-> exists g, In g (selectedGenres st) /\ In g (genres pub)))
  /\ (forall st pub, selectedGenres st = [] -> genreStage st pub = true)
  /\ (forall st pub A B, genres pub = [A; B] ->
        In A (selectedGenres st) \/ In B (selectedGenres st) ->
        genreStage st pub = true)
  /\ (forall st pub A B, genres pub = [A; B] ->
        (genreStage st pub = false
         <-> selectedGenres st <> []
             /\ ~ In A (selectedGenres st) /\ ~ In B (selectedGenres st)))
  /\ (forall st pub, genreStage st pub = false -> keeps st pub = false).
Proof.
  split; [|split; [|split; [|split]]].
  - intros st pub Hne. rewrite genreStage_iff. tauto.
  - intros st pub He. apply genreStage_iff. left. exact He.
  - intros st pub A B Hg H. apply genreStage_iff. right. rewrite Hg.
    destruct H as [H|H]; [exists A | exists B]; cbn; tauto.
  - intros st pub A B Hg. rewrite <- not_true_iff_false, genreStage_iff, Hg.
    split.
    + intros H. repeat split.
      * intros He. apply H. left. exact He.
      * intros HA. apply H. right. exists A. cbn. tauto.
      * intros HB. apply H. right. exists B. cbn. tauto.
    + intros (Hne & HA & HB) [He|(g & Hg1 & [<-|[<-|[]]])]; contradiction.
  - intros st pub H. rewrite keeps_stages, H, andb_false_r. reflexivity.
Qed.

Lemma genre_filter_or_semantics_witness :
  let st := setSelectedGenres (initialState sampleData)
                              [js "Tech"; js "Sports"] in
  selectedGenres st <> []
  /\ (genreStage st wired = true
      <-> exists g, In g (selectedGenres st) /\ In g (genres wired))
  /\ genreStage st wired = true
  /\ genreStage st bbc = false.
Proof.
  intros st.
  assert (Hne : selectedGenres st <> []) by discriminate.
  split; [exact Hne|].
  split; [exact (proj1 genre_filter_or_semantics st wired Hne)|].
  split; reflexivity.
Defined.

Lemma length_insert {A} (cmp : A -> A -> Z) x l :
  List.length (insert cmp x l) = S (List.length l).
Proof.
  induction l as [|y r IH]; [reflexivity|]. cbn [insert].
  destruct (0 <? cmp x y)%Z; cbn [List.length]; [rewrite IH|]; reflexivity.
Qed.

Lemma length_sort {A} (cmp : A -> A -> Z) l :
  List.length (sort cmp l) = List.length l.
Proof.
  induction l as [|x r IH]; [reflexivity|].
  change (sort cmp (x :: r)) with (insert cmp x (sort cmp r)).
  rewrite length_insert, IH. reflexivity.
Qed.

Lemma filter_length_le {A} (f g : A -> bool) l :
  (forall x, In x l -> f x = true -> g x = true) ->
  (List.length (filter f l) <= List.length (filter g l))%nat.
Proof.
  induction l as [|x r IH]; intros H; [reflexivity|]. cbn [filter].
  assert (IH' := IH (fun y Hy => H y (or_intror Hy))).
  destruct (f x) eqn:Hf.
  - rewrite (H x (or_introl eq_refl) Hf). cbn [List.length]. lia.
  - destruct (g x); cbn [List.length]; lia.
Qed.

(** The size of the result is the number of records the callback keeps. *)
Lemma length_filteredPublications st d :
  data st = Some d ->
  List.length (filteredPublications st)
  = List.length (filter (keeps st) (basePublications st)).
Proof.
  intros Hd. unfold filteredPublications. rewrite Hd. apply length_sort.
Qed.

(** A change of the state that leaves the catalogue and the view alone and
    makes the callback no more permissive cannot enlarge the result. *)
Lemma result_shrinks st st' :
  data st' = data st ->
  basePublications st' = basePublications st ->
  (forall pub, keeps st' pub = true -> keeps st pub = true) ->
  (List.length (filteredPublications st')
   <= List.length (filteredPublications st))%nat.
Proof.
  intros Hd Hb Hk. destruct (data st) as [d|] eqn:E.
  - rewrite (length_filteredPublications st d E).
    rewrite (length_filteredPublications st' d) by congruence.
    rewrite Hb. apply filter_length_le. intros x _. apply Hk.
  - unfold filteredPublications. rewrite Hd, E. reflexivity.
Qed.

Lemma keeps_setPriceMin st q pub :
  (priceMin st <= q)%Q ->
  keeps (setPriceMin st q) pub = true -> keeps st pub = true.
Proof.
  intros Hq. rewrite !keeps_stages, !andb_true_iff.
  intros [[[[[[H1 H2] H3] H4] H5] H6] H7]. repeat split; try assumption.
  apply priceStage_iff in H4 as [Hlo Hhi]. apply priceStage_iff.
  split; [|exact Hhi]. eapply Qle_trans; [exact Hq | exact Hlo].
Qed.

Lemma keeps_setPriceMax st q pub :
  (q <= priceMax st)%Q ->
  keeps (setPriceMax st q) pub = true -> keeps st pub = true.
Proof.
  intros Hq. rewrite !keeps_stages, !andb_true_iff.
  intros [[[[[[H1 H2] H3] H4] H5] H6] H7]. repeat split; try assumption.
  apply priceStage_iff in H4 as [Hlo Hhi]. apply priceStage_iff.
  split; [exact Hlo|]. eapply Qle_trans; [exact Hhi | exact Hq].
Qed.

Lemma keeps_first_genre st gs pub :
  selectedGenres st = [] ->
  keeps (setSelectedGenres st gs) pub = true -> keeps st pub = true.
Proof.
  intros He. rewrite !keeps_stages, !andb_true_iff.
  intros [[[[[[H1 H2] H3] H4] H5] H6] H7]. repeat split; try assumption.
  apply genreStage_iff. left. exact He.
Qed.

Lemma keeps_further_genre st g pub :
  selectedGenres st <> [] ->
  keeps st pub = true ->
  keeps (setSelectedGenres st (selectedGenres st ++ [g])) pub = true.
Proof.
  intros Hne. rewrite !keeps_stages, !andb_true_iff.
  intros [[[[[[H1 H2] H3] H4] H5] H6] H7]. repeat split; try assumption.
  apply genreStage_iff in H2 as [H2|(g' & Hg & Hin)]; [contradiction|].
  apply genreStage_iff. right. exists g'. split; [|exact Hin].
  cbn [selectedGenres setSelectedGenres]. apply in_or_app. left. exact Hg.
Qed.

Lemma keeps_first_sponsored st v pub :
  selectedSponsored st = [] ->
  keeps (setSelectedSponsored st v) pub = true -> keeps st pub = true.
Proof.
  intros He. rewrite !keeps_stages, !andb_true_iff.
  intros [[[[[[H1 H2] H3] H4] H5] H6] H7]. repeat split; try assumption.
  rewrite He. reflexivity.
Qed.

Lemma toggleGenre_new prev g :
  arr_includes prev g = false -> toggleGenre prev g = prev ++ [g].
Proof. intros H. unfold toggleGenre. rewrite H. reflexivity. Qed.

(** C4, as the code has it.  Narrowing the price range (a higher minimum or
    a lower maximum) never enlarges the result, nor does selecting a genre
    while none is selected, nor choosing an option of the sponsored filter
    while none is chosen.  A further genre added to a selection that is not
    empty widens the filter (a record needs one selected genre only): the
    result never shrinks. *)
Theorem narrowing_never_enlarges :
  (forall st q, (priceMin st <= q)%Q ->
     (List.length (filteredPublications (setPriceMin st q))
      <= List.length (filteredPublications st))%nat)
  /\ (forall st q, (q <= priceMax st)%Q ->
        (List.length (filteredPublications (setPriceMax st q))
         <= List.length (filteredPublications st))%nat)
  /\ (forall st g, selectedGenres st = [] ->
        (List.length (filteredPublications
                        (setSelectedGenres st
                           (toggleGenre (selectedGenres st) g)))
         <= List.length (filteredPublications st))%nat)
  /\ (forall st v, selectedSponsored st = [] ->
        (List.length (filteredPublications (setSelectedSponsored st v))
         <= List.length (filteredPublications st))%nat)
  /\ (forall st g, selectedGenres st <> [] ->
        arr_includes (selectedGenres st) g = false ->
        (List.length (filteredPublications st)
         <= List.length (filteredPublications
                           (setSelectedGenres st
                              (toggleGenre (selectedGenres st) g))))%nat).
Proof.
  split; [|split; [|split; [|split]]].
  - intros st q Hq. apply result_shrinks; try reflexivity.
    intros pub. apply keeps_setPriceMin, Hq.
  - intros st q Hq. apply result_shrinks; try reflexivity.
    intros pub. apply keeps_setPriceMax, Hq.
  - intros st g He. apply result_shrinks; try reflexivity.
    intros pub. apply keeps_first_genre, He.
  - intros st v He. apply result_shrinks; try reflexivity.
    intros pub. apply keeps_first_sponsored, He.
  - intros st g Hne Hg. rewrite (toggleGenre_new _ _ Hg).
    apply result_shrinks; try reflexivity.
    intros pub. apply keeps_further_genre, Hne.
Qed.

Lemma narrowing_never_enlarges_witness :
  let st := initialState sampleData in
  ((priceMin st <= 1000)%Q
   /\ (List.length (filteredPublications (setPriceMin st 1000))
       <= List.length (filteredPublications st))%nat)
  /\ (selectedGenres st = []
      /\ (List.length (filteredPublications
                         (setSelectedGenres st
                            (toggleGenre (selectedGenres st) (js "Tech"))))
          <= List.length (filteredPublications st))%nat)
  /\ List.length (filteredPublications st) = 3%nat
  /\ List.length (filteredPublications (setPriceMin st 1000)) = 2%nat.
Proof.
  intros st.
  destruct narrowing_never_enlarges as (Hmin & _ & Hg & _).
  assert (Hq : (priceMin st <= 1000)%Q) by (apply Qle_bool_iff; reflexivity).
  split; [split; [exact Hq | apply Hmin, Hq]|].
  split; [split; [reflexivity | apply Hg; reflexivity]|].
  split; reflexivity.
Defined.

(** A further genre enlarges the result: with "Business" selected one
    record of the sample is shown, and selecting "Tech" as well shows
    two. *)
Lemma additional_genre_enlarges :
  let st := setSelectedGenres (initialState sampleData) [js "Business"] in
  let st' := setSelectedGenres st (toggleGenre (selectedGenres st) (js "Tech")) in
  filteredPublications st = [forbes]
  /\ filteredPublications st' = [forbes; wired]
  /\ ~ (List.length (filteredPublications st')
        <= List.length (filteredPublications st))%nat.
Proof.
  split; [reflexivity|]. split; [reflexivity|].
  vm_compute. lia.
Qed.

(** ** The sort *)

Section SortFacts.
Context {A : Type}.
Variable cmp : A -> A -> Z.

Lemma insert_perm x l : Permutation (insert cmp x l) (x :: l).
Proof.
  induction l as [|y r IH]; [reflexivity|]. cbn [insert].
  destruct (0 <? cmp x y)%Z; [|reflexivity].
  rewrite IH. apply perm_swap.
Qed.

Lemma sort_perm l : Permutation (sort cmp l) l.
Proof.
  induction l as [|x r IH]; [reflexivity|].
  change (sort cmp (x :: r)) with (insert cmp x (sort cmp r)).
  rewrite insert_perm, IH. reflexivity.
Qed.

Lemma sort_In x l : In x (sort cmp l) <-> In x l.
Proof.
  split; apply Permutation_in; [|symmetry]; apply sort_perm.
Qed.

(** Stability, for one class [f] of records no two of which the comparator
    asks to exchange. *)
Section Stable.
Variable f : A -> bool.
Hypothesis f_ties :
  forall x y, f x = true -> f y = true -> (0 <? cmp x y)%Z = false.

Lemma filter_insert x l : filter f (insert cmp x l) = filter f (x :: l).
Proof.
  induction l as [|y r IH]; [reflexivity|]. cbn [insert].
  destruct (0 <? cmp x y)%Z eqn:E; [|reflexivity].
  cbn [filter] in *. rewrite IH.
  destruct (f x) eqn:Hx, (f y) eqn:Hy; try reflexivity.
  rewrite (f_ties x y Hx Hy) in E. discriminate.
Qed.

Lemma filter_sort l : filter f (sort cmp l) = filter f l.
Proof.
  induction l as [|x r IH]; [reflexivity|].
  change (sort cmp (x :: r)) with (insert cmp x (sort cmp r)).
  rewrite filter_insert. cbn [filter]. rewrite IH. reflexivity.
Qed.
End Stable.

(** Order, for a comparator that follows a total preorder [R]. *)
Section Ordered.
Variable R : A -> A -> Prop.
Hypothesis R_trans : forall x y z, R x y -> R y z -> R x z.
Hypothesis cmp_pos : forall x y, (0 <? cmp x y)%Z = true -> R y x.
Hypothesis cmp_nonpos : forall x y, (0 <? cmp x y)%Z = false -> R x y.

Lemma insert_sorted x l :
  StronglySorted R l -> StronglySorted R (insert cmp x l).
Proof.
  induction 1 as [|y r Hr IH Hy]; cbn [insert].
  - constructor; constructor.
  - destruct (0 <? cmp x y)%Z eqn:E.
    + constructor; [exact IH|].
      rewrite insert_perm.
      constructor; [apply cmp_pos, E | exact Hy].
    + constructor; [constructor; assumption|].
      constructor; [apply cmp_nonpos, E|].
      eapply Forall_impl; [|exact Hy].
      intros z Hz. eapply R_trans; [apply cmp_nonpos, E | exact Hz].
Qed.

Lemma sort_sorted l : StronglySorted R (sort cmp l).
Proof.
  induction l as [|x r IH]; [constructor|].
  change (sort cmp (x :: r)) with (insert cmp x (sort cmp r)).
  apply insert_sorted, IH.
Qed.
End Ordered.
End SortFacts.

Lemma basePublications_in st d pub :
  data st = Some d -> In pub (basePublications st) -> In pub (publications d).
Proof.
  intros Hd. unfold basePublications. rewrite Hd.
  destruct (negb (is_bestSellers (viewMode st))); [auto|].
  destruct (bestSellerSet st); [|auto].
  intros H. apply filter_In in H. apply H.
Qed.

Lemma filteredPublications_In st d pub :
  data st = Some d ->
  (In pub (filteredPublications st)
   <-> In pub (basePublications st) /\ keeps st pub = true).
Proof.
  intros Hd. unfold filteredPublications, filtered. rewrite Hd, sort_In.
  apply filter_In.
Qed.

(** C5, as the code has it.  The price stage keeps a record iff
    priceMin <= price <= priceMax, both ends included; so with
    priceMin <= priceMax a record whose price is priceMin or priceMax
    passes the price stage.  It is in the result iff it is in the base set
    and passes every stage: the other filters still apply. *)
Theorem price_bounds_inclusive :
  (forall st pub,
     priceStage st pub = true
     <-> (priceMin st <= price pub)%Q /\ (price pub <= priceMax st)%Q)
  /\ (forall st pub, (priceMin st <= priceMax st)%Q ->
        (price pub == priceMin st)%Q \/ (price pub == priceMax st)%Q ->
        priceStage st pub = true)
  /\ (forall st d pub, data st = Some d ->
        (In pub (filteredPublications st)
         <-> In pub (basePublications st)
             /\ searchStage st pub = true /\ genreStage st pub = true
             /\ regionStage st pub = true /\ priceStage st pub = true
             /\ flagStage (selectedSponsored st) (sponsored pub) = true
             /\ flagStage (selectedIndexed st) (indexed pub) = true
             /\ flagStage (selectedDoFollow st) (do_follow pub) = true)).
Proof.
  split; [exact priceStage_iff|]. split.
  - intros st pub Hle [E|E]; apply priceStage_iff; rewrite E; split;
      solve [apply Qle_refl | exact Hle].
  - intros st d pub Hd. rewrite (filteredPublications_In st d pub Hd).
    rewrite keeps_stages, !andb_true_iff. tauto.
Qed.

Lemma price_bounds_inclusive_witness :
  let st := setPriceMin (initialState sampleData) 3000 in
  (priceMin st <= priceMax st)%Q
  /\ (price wired == priceMin st)%Q
  /\ priceStage st wired = true
  /\ In wired (filteredPublications st).
Proof.
  intros st.
  destruct price_bounds_inclusive as (_ & Hb & _).
  assert (Hle : (priceMin st <= priceMax st)%Q)
    by (apply Qle_bool_iff; reflexivity).
  assert (He : (price wired == priceMin st)%Q) by reflexivity.
  split; [exact Hle|]. split; [exact He|].
  split; [apply Hb; [exact Hle | left; exact He]|].
  right. left. reflexivity.
Defined.

(** A price on the bound does not protect a record from the other
    filters: Wired costs exactly priceMin, and the sponsored filter removes
    it from the result. *)
Lemma price_bound_record_excluded :
  let st := setSelectedSponsored
              (setPriceMin (initialState sampleData) 3000) (js "Yes") in
  (price wired == priceMin st)%Q
  /\ In wired (basePublications st)
  /\ filteredPublications st = [forbes]
  /\ ~ In wired (filteredPublications st).
Proof.
  intros st. split; [reflexivity|].
  split; [right; left; reflexivity|].
  assert (E : filteredPublications st = [forbes]) by reflexivity.
  split; [exact E|]. rewrite E. intros [H|[]]. discriminate H.
Qed.

(** *** Stability *)

Lemma str_ltb_irrefl s : str_ltb s s = false.
Proof.
  induction s as [|x s IH]; [reflexivity|]. cbn [str_ltb].
  rewrite N.ltb_irrefl, N.eqb_refl, IH. reflexivity.
Qed.

Lemma val_eqb_ties x y v :
  val_eqb x v = true -> val_eqb y v = true -> val_ltb x y = false.
Proof.
  destruct x as [a| |s], y as [b| |t], v as [q| |u]; cbn [val_eqb val_ltb];
    try discriminate; try reflexivity; intros Hx Hy.
  - apply Qeq_bool_iff in Hx, Hy. apply Qltb_ge. rewrite Hx, Hy.
    apply Qle_refl.
  - apply str_eqb_eq in Hx, Hy. subst. apply str_ltb_irrefl.
Qed.

Lemma val_eqb_sym_ties x y v :
  val_eqb x v = true -> val_eqb y v = true ->
  val_ltb x y = false /\ val_ltb y x = false.
Proof. intros Hx Hy. split; eapply val_eqb_ties; eassumption. Qed.

Lemma compareFn_ties c d a b v :
  val_eqb (sortVal c a) v = true -> val_eqb (sortVal c b) v = true ->
  compareFn c d a b = 0%Z.
Proof.
  intros Ha Hb. unfold compareFn.
  destruct (val_eqb_sym_ties _ _ _ Ha Hb) as [-> ->]. reflexivity.
Qed.

(** The base set is the catalogue, or its best sellers, in catalogue
    order. *)
Lemma basePublications_filter st d :
  data st = Some d ->
  exists keep, basePublications st = filter keep (publications d).
Proof.
  intros Hd. unfold basePublications. rewrite Hd.
  assert (Hall : publications d = filter (fun _ => true) (publications d)).
  { induction (publications d) as [|x r IH]; [reflexivity|].
    cbn [filter]. rewrite <- IH. reflexivity. }
  destruct (negb (is_bestSellers (viewMode st))); [eexists; exact Hall|].
  destruct (bestSellerSet st); eexists; [reflexivity | exact Hall].
Qed.

Lemma filter_filter {A} (f g : A -> bool) l :
  filter g (filter f l) = filter (fun x => f x && g x) l.
Proof.
  induction l as [|x r IH]; [reflexivity|]. cbn [filter].
  destruct (f x); cbn [filter andb]; [|exact IH].
  destruct (g x); rewrite IH; reflexivity.
Qed.

Lemma val_eqb_refl v : val_eqb v v = true.
Proof.
  destruct v as [q| |s]; cbn [val_eqb].
  - apply Qeq_bool_iff. reflexivity.
  - reflexivity.
  - apply str_eqb_refl.
Qed.

Lemma filter_split {A} (f : A -> bool) l u a w :
  filter f l = u ++ a :: w ->
  exists m1 m2, l = m1 ++ a :: m2 /\ filter f m1 = u /\ filter f m2 = w.
Proof.
  revert u; induction l as [|x r IH]; intros u H.
  - destruct u; discriminate H.
  - cbn [filter] in H. destruct (f x) eqn:Hx.
    + destruct u as [|y u]; cbn [app] in H; inversion H; subst.
      * exists [], r. repeat split.
      * destruct (IH u H2) as (m1 & m2 & -> & H1 & H3).
        exists (y :: m1), m2. cbn [filter app]. rewrite Hx, H1.
        repeat split. exact H3.
    + destruct (IH u H) as (m1 & m2 & -> & H1 & H3).
      exists (x :: m1), m2. cbn [filter app]. rewrite Hx.
      repeat split; assumption.
Qed.


(** *** Turnaround-time order *)

Lemma Qltb_inject x y : Qltb (inject_Z x) (inject_Z y) = (x <? y)%Z.
Proof.
  unfold Qltb, Qle_bool, inject_Z. cbn [Qnum Qden].
  rewrite !Z.mul_1_r. symmetry. apply Z.ltb_antisym.
Qed.

(** The comparison of two parsed turnaround times is the order of the
    numbers. *)
Lemma val_ltb_numVal x y :
  val_ltb (numVal y) (numVal x) = false <-> num_le x y.
Proof.
  destruct x as [a|], y as [b|]; cbn [numVal val_ltb num_le];
    try rewrite Qltb_inject; try rewrite Z.ltb_ge;
    intuition discriminate.
Qed.

Lemma num_le_trans x y z : num_le x y -> num_le y z -> num_le x z.
Proof.
  destruct x as [a|], y as [b|], z as [c|]; cbn [num_le]; try tauto.
  apply Z.le_trans.
Qed.

Lemma num_le_total x y : num_le x y \/ num_le y x.
Proof. destruct x as [a|], y as [b|]; cbn [num_le]; try tauto. lia. Qed.

Lemma compareFn_tat a b d :
  compareFn col_tat d a b
  = (if val_ltb (numVal (parseTAT (tat a))) (numVal (parseTAT (tat b)))
     then match d with asc => -1 | desc => 1 end
     else if val_ltb (numVal (parseTAT (tat b))) (numVal (parseTAT (tat a)))
          then match d with asc => 1 | desc => -1 end
          else 0)%Z.
Proof. reflexivity. Qed.

Lemma tat_asc_sorted l :
  StronglySorted (fun a b => num_le (parseTAT (tat a)) (parseTAT (tat b)))
                 (sort (compareFn col_tat asc) l).
Proof.
  apply sort_sorted.
  - intros x y z. apply num_le_trans.
  - intros x y. rewrite compareFn_tat.
    destruct (val_ltb (numVal (parseTAT (tat x))) (numVal (parseTAT (tat y))))
      eqn:E1; [discriminate|].
    intros _. apply val_ltb_numVal, E1.
  - intros x y. rewrite compareFn_tat.
    destruct (val_ltb (numVal (parseTAT (tat x))) (numVal (parseTAT (tat y))))
      eqn:E1.
    + intros _.
      destruct (num_le_total (parseTAT (tat x)) (parseTAT (tat y)))
        as [H|H]; [exact H|].
      apply val_ltb_numVal in H. congruence.
    + destruct (val_ltb (numVal (parseTAT (tat y)))
                        (numVal (parseTAT (tat x)))) eqn:E2; [discriminate|].
      intros _. apply val_ltb_numVal, E2.
Qed.

Lemma tat_desc_sorted l :
  StronglySorted (fun a b => num_le (parseTAT (tat b)) (parseTAT (tat a)))
                 (sort (compareFn col_tat desc) l).
Proof.
  apply sort_sorted.
  - intros x y z H1 H2. eapply num_le_trans; eassumption.
  - intros x y. rewrite compareFn_tat.
    destruct (val_ltb (numVal (parseTAT (tat x))) (numVal (parseTAT (tat y))))
      eqn:E1.
    + intros _.
      destruct (num_le_total (parseTAT (tat x)) (parseTAT (tat y)))
        as [H|H]; [exact H|].
      apply val_ltb_numVal in H. congruence.
    + destruct (val_ltb (numVal (parseTAT (tat y)))
                        (numVal (parseTAT (tat x)))); discriminate.
  - intros x y. rewrite compareFn_tat.
    destruct (val_ltb (numVal (parseTAT (tat x))) (numVal (parseTAT (tat y))))
      eqn:E1; [discriminate|].
    intros _. apply val_ltb_numVal, E1.
Qed.

Lemma sorted_after {A} (R : A -> A -> Prop) l1 x l2 y :
  StronglySorted R (l1 ++ x :: l2) -> In y l2 -> R x y.
Proof.
  induction l1 as [|z l1 IH]; cbn [app]; intros H Hy.
  - inversion H as [|? ? _ Hall]; subst.
    rewrite Forall_forall in Hall. apply Hall, Hy.
  - inversion H; subst. apply IH; assumption.
Qed.

(** C3, as the code has it.  Sorted by turnaround time in ascending order
    the result is in non-decreasing order of the parsed durations, so no
    record with a duration below 999 days stands behind a record whose
    text is empty or not understood (value 999). *)
Theorem tat_ascending_sentinel_last st d :
  data st = Some d -> sortColumn st = col_tat -> sortDirection st = asc ->
  StronglySorted (fun a b => num_le (parseTAT (tat a)) (parseTAT (tat b)))
                 (filteredPublications st)
  /\ (forall l1 x l2 y,
        filteredPublications st = l1 ++ x :: l2 ->
        parseTAT (tat x) = Finite 999 -> In y l2 ->
        num_le (Finite 999) (parseTAT (tat y)))
  /\ (forall p,
        tat p = []
        \/ (mentions (tat p) "day" = false /\ mentions (tat p) "week" = false
            /\ mentions (tat p) "month" = false) ->
        parseTAT (tat p) = Finite 999).
Proof.
  intros Hd Hc Hdir.
  assert (Hs : StronglySorted
                 (fun a b => num_le (parseTAT (tat a)) (parseTAT (tat b)))
                 (filteredPublications st)).
  { unfold filteredPublications. rewrite Hd, Hc, Hdir. apply tat_asc_sorted. }
  split; [exact Hs|]. split.
  - intros l1 x l2 y E Hx Hy. rewrite E in Hs. rewrite <- Hx.
    exact (sorted_after _ l1 x l2 y Hs Hy).
  - intros p [->|(H1 & H2 & H3)]; [reflexivity|].
    apply parseTAT_other; assumption.
Qed.

Lemma tat_ascending_sentinel_last_witness :
  let st := handleSort (initialState sampleData) col_tat asc in
  data st = Some sampleData /\ sortColumn st = col_tat
  /\ sortDirection st = asc
  /\ filteredPublications st = [forbes; bbc; wired]
  /\ StronglySorted (fun a b => num_le (parseTAT (tat a)) (parseTAT (tat b)))
                    (filteredPublications st).
Proof.
  intros st. repeat (split; [reflexivity|]).
  exact (proj1 (tat_ascending_sentinel_last st sampleData
                  eq_refl eq_refl eq_refl)).
Defined.

(** 999 is a value like any other, so a duration of 999 days or more is
    not below it: in ascending order the record without a turnaround time
    stands before the record with the duration "1000 days", not after
    it. *)
Lemma tat_ascending_long_duration :
  let st := handleSort (initialState slowData) col_tat asc in
  sortColumn st = col_tat /\ sortDirection st = asc
  /\ filtered st = [slow; wired]
  /\ filteredPublications st = [wired; slow]
  /\ tat wired = js "" /\ parseTAT (tat wired) = Finite 999
  /\ tat slow = js "1000 days" /\ parseTAT (tat slow) = Finite 1000.
Proof. repeat split. Qed.

(** In descending order the parsed durations do not increase: the
    comparator gives the records with value 999 no place of their own and
    they stand before every shorter duration, although the parser's
    comment on the value says that it puts the empty text at the end. *)
Lemma tat_descending_order st d :
  data st = Some d -> sortColumn st = col_tat -> sortDirection st = desc ->
  StronglySorted (fun a b => num_le (parseTAT (tat b)) (parseTAT (tat a)))
                 (filteredPublications st).
Proof.
  intros Hd Hc Hdir. unfold filteredPublications.
  rewrite Hd, Hc, Hdir. apply tat_desc_sorted.
Qed.

Example tat_descending_sentinel_first :
  let st := handleSort (initialState sampleData) col_tat desc in
  filteredPublications st = [wired; bbc; forbes]
  /\ tat wired = js ""
  /\ map (fun p => parseTAT (tat p)) [wired; bbc; forbes]
     = [Finite 999; Finite 14; Finite 3].
Proof. repeat split. Qed.

(** *** The comparator is consistent, so the stable sort is unique *)

Section Consistent.
Context {A : Type}.
Variable cmp : A -> A -> Z.
Hypothesis cmp_asym :
  forall x y, (0 <? cmp x y)%Z = true -> (0 <? cmp y x)%Z = false.
Hypothesis cmp_trans :
  forall x y z, mayPrecede cmp x y -> mayPrecede cmp y z -> mayPrecede cmp x z.

Lemma tied_refl x : tied cmp x x = true.
Proof.
  unfold tied. destruct (0 <? cmp x x)%Z eqn:E; [|reflexivity].
  rewrite (cmp_asym x x E) in E. discriminate.
Qed.

Lemma tied_iff x y :
  tied cmp x y = true <-> mayPrecede cmp x y /\ mayPrecede cmp y x.
Proof.
  unfold tied, mayPrecede. rewrite andb_true_iff, !negb_true_iff. tauto.
Qed.

Lemma sort_stable_sort l : StableSortOf cmp l (sort cmp l).
Proof.
  split.
  - apply sort_sorted.
    + exact cmp_trans.
    + exact cmp_asym.
    + intros x y H. exact H.
  - intros z. apply filter_sort. intros x y Hx Hy.
    apply tied_iff in Hx as [_ Hxz]. apply tied_iff in Hy as [Hzy _].
    exact (cmp_trans x z y Hxz Hzy).
Qed.

Lemma sorted_stable_unique l1 l2 :
  StronglySorted (mayPrecede cmp) l1 ->
  StronglySorted (mayPrecede cmp) l2 ->
  (forall z, filter (tied cmp z) l1 = filter (tied cmp z) l2) ->
  l1 = l2.
Proof.
  intros H1; revert l2.
  induction H1 as [|x r1 Hs1 IH Hx]; intros l2 H2 Hf.
  - destruct l2 as [|y r2]; [reflexivity|].
    specialize (Hf y). cbn [filter] in Hf. rewrite tied_refl in Hf.
    discriminate.
  - destruct H2 as [|y r2 Hs2 Hy].
    { specialize (Hf x). cbn [filter] in Hf. rewrite tied_refl in Hf.
      discriminate. }
    assert (Hxy : tied cmp x y = true).
    { apply tied_iff.
      pose proof (Hf x) as Fx. pose proof (Hf y) as Fy.
      cbn [filter] in Fx, Fy. rewrite tied_refl in Fx, Fy.
      rewrite Forall_forall in Hx, Hy.
      destruct (tied cmp x y) eqn:Exy; [apply tied_iff, Exy|].
      assert (Eyx : tied cmp y x = false).
      { destruct (tied cmp y x) eqn:E; [|reflexivity].
        apply tied_iff in E. assert (tied cmp x y = true)
          by (apply tied_iff; tauto). congruence. }
      rewrite Eyx in Fy.
      assert (Hin2 : In x r2).
      { assert (H : In x (filter (tied cmp x) r2))
          by (rewrite <- Fx; left; reflexivity).
        apply filter_In in H. apply H. }
      assert (Hin1 : In y r1).
      { assert (H : In y (filter (tied cmp y) r1))
          by (rewrite Fy; left; reflexivity).
        apply filter_In in H. apply H. }
      split; auto. }
    assert (E : x = y).
    { pose proof (Hf x) as Fx. cbn [filter] in Fx.
      rewrite tied_refl, Hxy in Fx. congruence. }
    subst y. f_equal. apply IH; [exact Hs2|].
    intros z. specialize (Hf z). cbn [filter] in Hf.
    destruct (tied cmp z x); congruence.
Qed.

(** Whatever stable sort the runtime uses, it returns what [sort]
    returns. *)
Lemma stable_sort_unique inp out :
  StableSortOf cmp inp out -> out = sort cmp inp.
Proof.
  intros [Hs Hf]. destruct (sort_stable_sort inp) as [Hs' Hf'].
  apply sorted_stable_unique; [exact Hs | exact Hs' |].
  intros z. rewrite Hf, Hf'. reflexivity.
Qed.
End Consistent.

Lemma str_ltb_asym s t : str_ltb s t = true -> str_ltb t s = false.
Proof.
  revert t; induction s as [|x s IH]; intros [|y t]; cbn [str_ltb];
    try reflexivity; try discriminate.
  destruct (N.ltb_spec (code x) (code y)), (N.ltb_spec (code y) (code x)),
    (N.eqb_spec (code x) (code y)), (N.eqb_spec (code y) (code x));
    cbn [orb andb]; try lia; try reflexivity; try discriminate.
  apply IH.
Qed.

Lemma str_le_trans a b c :
  str_ltb b a = false -> str_ltb c b = false -> str_ltb c a = false.
Proof.
  revert b c; induction a as [|x a IH]; intros [|y b] [|z c];
    cbn [str_ltb]; try reflexivity; try discriminate.
  destruct (N.ltb_spec (code y) (code x)), (N.ltb_spec (code z) (code y)),
    (N.ltb_spec (code z) (code x)), (N.eqb_spec (code y) (code x)),
    (N.eqb_spec (code z) (code y)), (N.eqb_spec (code z) (code x));
    cbn [orb andb]; try lia; try reflexivity; try discriminate.
  apply IH.
Qed.

(** Every column holds values of one kind. *)
Lemma sortVal_kind c :
  (forall p, isStr (sortVal c p) = false)
  \/ (forall p, isStr (sortVal c p) = true).
Proof.
  destruct c; unfold sortVal; cbn [field is_tat];
    try (left; intros p; reflexivity); try (right; intros p; reflexivity).
  left. intros p. destruct (parseTAT (tat p)); reflexivity.
Qed.

Lemma val_ltb_asym v w : val_ltb v w = true -> val_ltb w v = false.
Proof.
  destruct v as [a| |s], w as [b| |t]; cbn [val_ltb]; try reflexivity;
    try discriminate.
  - intros H. apply Qltb_lt in H. apply Qltb_ge, Qlt_le_weak, H.
  - apply str_ltb_asym.
Qed.

Lemma compareFn_pos c d a b :
  (0 <? compareFn c d a b)%Z = true
  <-> match d with
      | asc => val_ltb (sortVal c b) (sortVal c a) = true
      | desc => val_ltb (sortVal c a) (sortVal c b) = true
      end.
Proof.
  unfold compareFn.
  destruct (val_ltb (sortVal c a) (sortVal c b)) eqn:E1.
  - rewrite (val_ltb_asym _ _ E1). destruct d; cbn; intuition congruence.
  - destruct (val_ltb (sortVal c b) (sortVal c a)) eqn:E2;
      destruct d; cbn; intuition congruence.
Qed.

Lemma compareFn_asym c d a b :
  (0 <? compareFn c d a b)%Z = true -> (0 <? compareFn c d b a)%Z = false.
Proof.
  intros H. apply compareFn_pos in H. apply not_true_iff_false.
  intros H'. apply compareFn_pos in H'.
  destruct d; rewrite (val_ltb_asym _ _ H) in H'; discriminate.
Qed.

Lemma val_le_trans u v w :
  isStr u = isStr v -> isStr v = isStr w ->
  val_ltb v u = false -> val_ltb w v = false -> val_ltb w u = false.
Proof.
  destruct u as [a| |a], v as [b| |b], w as [c| |c]; cbn [isStr val_ltb];
    try discriminate; intros _ _;
    try (intros; reflexivity); try (intros; discriminate).
  - rewrite !Qltb_ge. apply Qle_trans.
  - apply str_le_trans.
Qed.

Lemma compareFn_nonpos c d a b :
  mayPrecede (compareFn c d) a b
  <-> match d with
      | asc => val_ltb (sortVal c b) (sortVal c a) = false
      | desc => val_ltb (sortVal c a) (sortVal c b) = false
      end.
Proof.
  unfold mayPrecede. rewrite <- not_true_iff_false, compareFn_pos.
  destruct d; apply not_true_iff_false.
Qed.

Lemma compareFn_trans c d x y z :
  mayPrecede (compareFn c d) x y -> mayPrecede (compareFn c d) y z ->
  mayPrecede (compareFn c d) x z.
Proof.
  rewrite !compareFn_nonpos.
  assert (K : forall p q, isStr (sortVal c p) = isStr (sortVal c q)).
  { intros p q. destruct (sortVal_kind c) as [H|H]; rewrite !H; reflexivity. }
  destruct d; intros H1 H2.
  - apply (val_le_trans _ (sortVal c y) _ (K x y) (K y z)); assumption.
  - apply (val_le_trans _ (sortVal c y) _ (K z y) (K y x)); assumption.
Qed.

(** The result is the stable sort of the surviving records by the
    comparator, and no other list is. *)
Lemma filteredPublications_stable_sort st d :
  data st = Some d ->
  StableSortOf (compareFn (sortColumn st) (sortDirection st))
               (filtered st) (filteredPublications st)
  /\ forall out,
       StableSortOf (compareFn (sortColumn st) (sortDirection st))
                    (filtered st) out ->
       out = filteredPublications st.
Proof.
  intros Hd. unfold filteredPublications. rewrite Hd. split.
  - apply sort_stable_sort; [apply compareFn_asym | apply compareFn_trans].
  - intros out. apply stable_sort_unique;
      [apply compareFn_asym | apply compareFn_trans].
Qed.

Lemma ascii_code_inj x y : code x = code y -> x = y.
Proof.
  unfold code. intros H.
  rewrite <- (ascii_N_embedding x), <- (ascii_N_embedding y), H.
  reflexivity.
Qed.

Lemma str_ltb_antisym s t :
  str_ltb s t = false -> str_ltb t s = false -> s = t.
Proof.
  revert t; induction s as [|x s IH]; intros [|y t]; cbn [str_ltb];
    try reflexivity; try discriminate.
  destruct (N.ltb_spec (code x) (code y)), (N.ltb_spec (code y) (code x)),
    (N.eqb_spec (code x) (code y)), (N.eqb_spec (code y) (code x));
    cbn [orb andb]; try lia; try discriminate.
  intros H1 H2. f_equal; [apply ascii_code_inj; assumption | apply IH; assumption].
Qed.

(** The comparator returns 0 exactly on equal sort values. *)
Lemma tied_val_eqb c d a b :
  tied (compareFn c d) a b = val_eqb (sortVal c a) (sortVal c b).
Proof.
  apply bool_eq_iff. rewrite tied_iff, !compareFn_nonpos.
  assert (K : isStr (sortVal c a) = isStr (sortVal c b)).
  { destruct (sortVal_kind c) as [H|H]; rewrite !H; reflexivity. }
  destruct (sortVal c a) as [p| |s], (sortVal c b) as [q| |t];
    cbn [isStr] in K; try discriminate K; cbn [val_ltb val_eqb].
  - rewrite Qeq_bool_iff.
    destruct d; rewrite !Qltb_ge; split;
      try (intros [H1 H2]; apply Qle_antisym; assumption);
      intros E; rewrite E; split; apply Qle_refl.
  - destruct d; split; intros H; try discriminate H;
      destruct H; discriminate.
  - destruct d; split; intros H; try discriminate H;
      destruct H; discriminate.
  - destruct d; tauto.
  - rewrite str_eqb_eq.
    destruct d; split;
      try (intros [H1 H2]; solve [apply str_ltb_antisym; assumption
                                 | symmetry; apply str_ltb_antisym; assumption]);
      intros ->; split; apply str_ltb_irrefl.
Qed.

(** C7.  The sort is stable, whatever the column and the direction: the
    records of the result whose sort value equals a given value are the
    surviving records with that value, in the order the filter left them
    in, which is the order of the catalogue; and of two surviving records
    with equal sort values the one that stood first stands first in the
    result.  The comparator ties two records exactly when their sort values
    are equal, and the result is the only stable sort of the surviving
    records by it. *)
Theorem sort_is_stable st d :
  data st = Some d ->
  (forall v,
     filter (fun p => val_eqb (sortVal (sortColumn st) p) v)
            (filteredPublications st)
     = filter (fun p => val_eqb (sortVal (sortColumn st) p) v) (filtered st))
  /\ Permutation (filteredPublications st) (filtered st)
  /\ (exists keep,
        filtered st = filter keep (publications d)
        /\ forall v,
             filter (fun p => val_eqb (sortVal (sortColumn st) p) v)
                    (filteredPublications st)
             = filter (fun p => keep p
                                && val_eqb (sortVal (sortColumn st) p) v)
                      (publications d))
  /\ (forall a b l1 l2 l3,
        filtered st = l1 ++ a :: l2 ++ b :: l3 ->
        val_eqb (sortVal (sortColumn st) a) (sortVal (sortColumn st) b)
        = true ->
        exists m1 m2 m3, filteredPublications st = m1 ++ a :: m2 ++ b :: m3)
  /\ (forall a b,
        tied (compareFn (sortColumn st) (sortDirection st)) a b
        = val_eqb (sortVal (sortColumn st) a) (sortVal (sortColumn st) b))
  /\ (forall out,
        StableSortOf (compareFn (sortColumn st) (sortDirection st))
                     (filtered st) out
        <-> out = filteredPublications st).
Proof.
  intros Hd.
  assert (Hs : forall v,
     filter (fun p => val_eqb (sortVal (sortColumn st) p) v)
            (filteredPublications st)
     = filter (fun p => val_eqb (sortVal (sortColumn st) p) v) (filtered st)).
  { intros v. unfold filteredPublications. rewrite Hd.
    apply filter_sort. intros x y Hx Hy.
    rewrite (compareFn_ties _ _ x y v Hx Hy). reflexivity. }
  split; [exact Hs|]. split; [|split; [|split; [|split]]].
  - unfold filteredPublications. rewrite Hd. apply sort_perm.
  - destruct (basePublications_filter st d Hd) as (base & Hb).
    exists (fun p => base p && keeps st p).
    assert (Hf : filtered st
                 = filter (fun p => base p && keeps st p) (publications d)).
    { unfold filtered. rewrite Hb. apply filter_filter. }
    split; [exact Hf|].
    intros v. rewrite Hs, Hf. apply filter_filter.
  - intros a b l1 l2 l3 Hl Hab.
    set (v := sortVal (sortColumn st) b) in *.
    pose proof (Hs v) as E. rewrite Hl in E.
    rewrite filter_app in E. cbn [filter] in E. rewrite Hab in E.
    rewrite filter_app in E. cbn [filter] in E.
    unfold v at 3 in E. rewrite val_eqb_refl in E.
    apply filter_split in E as (m1 & m & -> & _ & E).
    apply filter_split in E as (m2 & m3 & -> & _).
    exists m1, m2, m3. reflexivity.
  - intros a b. apply tied_val_eqb.
  - destruct (filteredPublications_stable_sort st d Hd) as [H1 H2].
    intros out. split; [apply H2 | intros ->; exact H1].
Qed.

Lemma sort_is_stable_witness :
  let st := handleSort (initialState sampleData) col_region asc in
  data st = Some sampleData
  /\ filtered st = [forbes; wired; bbc]
  /\ filteredPublications st = [bbc; forbes; wired]
  /\ filter (fun p => val_eqb (sortVal (sortColumn st) p) (VStr (js "usa")))
            (filteredPublications st)
     = [forbes; wired].
Proof.
  intros st.
  destruct (sort_is_stable st sampleData eq_refl) as (Hs & _).
  split; [reflexivity|]. split; [reflexivity|]. split; [reflexivity|].
  rewrite Hs. reflexivity.
Defined.

(** Two durations that differ only beyond the precision of a double are
    one value to the comparator: the two records are tied and keep their
    order, in both directions. *)
Example tat_tie_beyond_precision :
  let a := mkPub 5 "A" [] 1 "9007199254740993 days" "UK" false in
  let b := mkPub 6 "B" [] 1 "9007199254740992 days" "UK" false in
  let st d :=
    handleSort (initialState (catalogue [a; b] [] ["UK"%string])) col_tat d in
  parseTAT (tat a) = parseTAT (tat b)
  /\ tied (compareFn col_tat asc) a b = true
  /\ filteredPublications (st asc) = [a; b]
  /\ filteredPublications (st desc) = [a; b].
Proof. vm_compute. repeat split. Qed.

(** ** Best sellers *)

Lemma set_has_In s x : set_has s x = true <-> In x s.
Proof. apply arr_includes_In. Qed.

Lemma set_add_In s x y : In y (set_add s x) <-> In y s \/ y = x.
Proof.
  unfold set_add. destruct (set_has s x) eqn:E.
  - apply set_has_In in E. split; [auto|]. intros [H| ->]; assumption.
  - rewrite in_app_iff. cbn [In]. intuition auto.
Qed.

Lemma set_add_NoDup s x : NoDup s -> NoDup (set_add s x).
Proof.
  intros H. unfold set_add. destruct (set_has s x) eqn:E; [exact H|].
  apply NoDup_app; [exact H | repeat constructor; intros [] |].
  intros y Hy [<-|[]].
  apply set_has_In in Hy. congruence.
Qed.

Lemma fold_set_add_In l acc x :
  In x (fold_left set_add l acc) <-> In x acc \/ In x l.
Proof.
  revert acc; induction l as [|y r IH]; intros acc; cbn [fold_left].
  - cbn. tauto.
  - rewrite IH, set_add_In. cbn. intuition (subst; auto).
Qed.

Lemma fold_set_add_NoDup l acc :
  NoDup acc -> NoDup (fold_left set_add l acc).
Proof.
  revert acc; induction l as [|y r IH]; intros acc H; [exact H|].
  cbn [fold_left]. apply IH, set_add_NoDup, H.
Qed.

Lemma fold_set_add_fresh l acc :
  NoDup (acc ++ l) -> fold_left set_add l acc = acc ++ l.
Proof.
  revert acc; induction l as [|y r IH]; intros acc H; cbn [fold_left].
  - rewrite app_nil_r. reflexivity.
  - assert (E : set_add acc y = acc ++ [y]).
    { unfold set_add. destruct (set_has acc y) eqn:Hy; [|reflexivity].
      apply set_has_In in Hy. apply NoDup_remove_2 in H.
      exfalso. apply H. apply in_or_app. left. exact Hy. }
    rewrite E, IH; rewrite <- app_assoc; [reflexivity | exact H].
Qed.

Lemma newSet_In l x : In x (newSet l) <-> In x l.
Proof. unfold newSet. rewrite fold_set_add_In. cbn. tauto. Qed.

Lemma newSet_NoDup l : NoDup (newSet l).
Proof. apply fold_set_add_NoDup. constructor. Qed.

Lemma newSet_distinct l : NoDup l -> newSet l = l.
Proof. intros H. apply (fold_set_add_fresh l []). exact H. Qed.

Lemma distinct_NoDup l : distinct l = true -> NoDup l.
Proof.
  induction l as [|x r IH]; intros H; constructor;
    cbn [distinct] in H; apply andb_true_iff in H as [Hx Hr].
  - intros Hin. apply arr_includes_In in Hin. rewrite Hin in Hx.
    discriminate.
  - apply IH, Hr.
Qed.

Lemma inCatalogue_In d k :
  inCatalogue d k = true <-> In k (map keyOf (publications d)).
Proof.
  unfold inCatalogue. rewrite existsb_exists, in_map_iff.
  split; intros (p & H1 & H2).
  - apply str_eqb_eq in H2. eauto.
  - exists p. split; [exact H2 | apply str_eqb_eq, H1].
Qed.

Lemma set_has_catalogue d k :
  set_has (newSet (map keyOf (publications d))) k = inCatalogue d k.
Proof.
  apply bool_eq_iff. rewrite set_has_In, newSet_In, inCatalogue_In.
  reflexivity.
Qed.

(** The loop that counts, as a filter. *)
Lemma count_loop (f : jsstring -> bool) l n :
  fold_left (fun missing k => if f k then missing else S missing) l n
  = (n + List.length (filter (fun k => negb (f k)) l))%nat.
Proof.
  revert n; induction l as [|x r IH]; intros n; cbn [fold_left filter].
  - cbn. lia.
  - rewrite IH. destruct (f x); cbn [negb List.length]; lia.
Qed.

Lemma bestSellerMissingCount_filter st d bs :
  viewMode st = bestSellers -> bestSellerSet st = Some bs ->
  data st = Some d ->
  bestSellerMissingCount st
  = List.length (filter (fun k => negb (inCatalogue d k)) bs).
Proof.
  intros Hv Hb Hd. unfold bestSellerMissingCount. rewrite Hv, Hb, Hd.
  cbv zeta. rewrite count_loop. cbn [Nat.add].
  f_equal. apply filter_ext. intros k.
  change (fun p => normalizeName (name p)) with keyOf.
  rewrite set_has_catalogue. reflexivity.
Qed.

Lemma length_filter_map {A B} (g : A -> B) (f : B -> bool) l :
  List.length (filter f (map g l))
  = List.length (filter (fun x => f (g x)) l).
Proof.
  induction l as [|x r IH]; [reflexivity|]. cbn [map filter].
  destruct (f (g x)); cbn [List.length]; rewrite IH; reflexivity.
Qed.

Lemma length_filter_split {A} (f : A -> bool) l :
  (List.length (filter f l)
   + List.length (filter (fun x => negb (f x)) l))%nat
  = List.length l.
Proof.
  induction l as [|x r IH]; [reflexivity|]. cbn [filter].
  destruct (f x); cbn [negb List.length]; lia.
Qed.

(** Two lists without repetition have as many elements of the one in the
    other as the other way round. *)
Lemma common_count (l1 l2 : list jsstring) :
  NoDup l1 -> NoDup l2 ->
  List.length (filter (arr_includes l2) l1)
  = List.length (filter (arr_includes l1) l2).
Proof.
  intros H1 H2. apply Permutation_length, NoDup_Permutation.
  - apply NoDup_filter, H1.
  - apply NoDup_filter, H2.
  - intros x. rewrite !filter_In, !arr_includes_In. tauto.
Qed.

Lemma baseCount_bestSellers st d bs :
  viewMode st = bestSellers -> bestSellerSet st = Some bs ->
  data st = Some d ->
  baseCount st
  = List.length (filter (set_has bs) (map keyOf (publications d))).
Proof.
  intros Hv Hb Hd. unfold baseCount, basePublications.
  rewrite Hd, Hv, Hb. cbn [is_bestSellers negb].
  symmetry. apply length_filter_map.
Qed.

(** With keys that are pairwise distinct on both sides, the curated names
    split into those the catalogue shows and those it misses. *)
Lemma reconciliation_counts st d names :
  viewMode st = bestSellers ->
  bestSellerSet st = Some (buildBestSellerSet names) ->
  data st = Some d ->
  NoDup (map normalizeName names) ->
  NoDup (map keyOf (publications d)) ->
  bestSellerMissingCount st = List.length (unmatched d names)
  /\ (baseCount st + List.length (unmatched d names))%nat = List.length names.
Proof.
  intros Hv Hb Hd Hn Hc.
  assert (Hset : buildBestSellerSet names = map normalizeName names)
    by (apply newSet_distinct, Hn).
  rewrite Hset in Hb.
  assert (Hm : bestSellerMissingCount st = List.length (unmatched d names)).
  { rewrite (bestSellerMissingCount_filter st d _ Hv Hb Hd).
    apply (length_filter_map normalizeName
             (fun k => negb (inCatalogue d k))). }
  split; [exact Hm|].
  rewrite (baseCount_bestSellers st d _ Hv Hb Hd).
  change (set_has (map normalizeName names))
    with (arr_includes (map normalizeName names)).
  rewrite (common_count (map keyOf (publications d))
                        (map normalizeName names) Hc Hn).
  rewrite (length_filter_map normalizeName
             (arr_includes (map keyOf (publications d))) names).
  rewrite (filter_ext (fun x => arr_includes (map keyOf (publications d))
                                             (normalizeName x))
                      (fun x => inCatalogue d (normalizeName x))).
  - apply (length_filter_split
             (fun n => inCatalogue d (normalizeName n)) names).
  - intros n. apply bool_eq_iff.
    rewrite arr_includes_In, inCatalogue_In. reflexivity.
Qed.

(** C8, as the code has it.  In the best-sellers view the missing count is
    the number of keys of the set (the normalised curated names, each
    once) that are the key of no catalogue record.
    For a curated list and a catalogue whose keys are pairwise distinct it
    is the number of curated names the catalogue misses, and the base set
    holds one record for each of the others: with 5 names, 2 of them
    missing from a catalogue of 100 records, the count is 2 and the base
    set has 3 records. *)
Theorem missing_count_reconciles :
  (forall st d bs,
     viewMode st = bestSellers -> bestSellerSet st = Some bs ->
     data st = Some d ->
     bestSellerMissingCount st
     = List.length (filter (fun k => negb (inCatalogue d k)) bs))
  /\ (forall st d names,
        viewMode st = bestSellers ->
        bestSellerSet st = Some (buildBestSellerSet names) ->
        data st = Some d ->
        NoDup (map normalizeName names) ->
        NoDup (map keyOf (publications d)) ->
        bestSellerMissingCount st = List.length (unmatched d names)
        /\ (baseCount st + List.length (unmatched d names))%nat
           = List.length names)
  /\ (forall st d names,
        viewMode st = bestSellers ->
        bestSellerSet st = Some (buildBestSellerSet names) ->
        data st = Some d ->
        NoDup (map normalizeName names) ->
        NoDup (map keyOf (publications d)) ->
        List.length names = 5%nat ->
        List.length (publications d) = 100%nat ->
        List.length (unmatched d names) = 2%nat ->
        bestSellerMissingCount st = 2%nat /\ baseCount st = 3%nat)
  /\ (forall names,
        NoDup (buildBestSellerSet names)
        /\ forall k, In k (buildBestSellerSet names)
                     <-> In k (map normalizeName names)).
Proof.
  split; [exact bestSellerMissingCount_filter|].
  split; [exact reconciliation_counts|].
  split; [|intros names; split; [apply newSet_NoDup | apply newSet_In]].
  intros st d names Hv Hb Hd Hn Hc H5 _ H2.
  destruct (reconciliation_counts st d names Hv Hb Hd Hn Hc) as [Hm Hs].
  rewrite H5, H2 in Hs. rewrite Hm, H2. split; [reflexivity | lia].
Qed.

Lemma missing_count_reconciles_witness :
  let d := catalogueOf 100 in
  let st := showBestSellers (initialState d) curated in
  List.length curated = 5%nat
  /\ List.length (publications d) = 100%nat
  /\ unmatched d curated = [js "Rolling & Stone"; js "VentureBeat"]
  /\ bestSellerMissingCount st = 2%nat
  /\ baseCount st = 3%nat.
Proof.
  intros d st.
  destruct missing_count_reconciles as (_ & _ & H & _).
  split; [reflexivity|]. split; [reflexivity|].
  split; [vm_compute; reflexivity|].
  apply (H st d curated); try reflexivity;
    apply distinct_NoDup; vm_compute; reflexivity.
Defined.

(** Names that share a key count once: of these five names two are
    missing from the catalogue of 100 records, and the count is 1. *)
Lemma shared_key_counts_once :
  let d := catalogueOf 100 in
  let names := [js "Pub 7"; js "PUB 42"; js "pub-99"; js "VentureBeat";
                js "Venture Beat"] in
  let st := showBestSellers (initialState d) names in
  List.length names = 5%nat
  /\ List.length (publications d) = 100%nat
  /\ unmatched d names = [js "VentureBeat"; js "Venture Beat"]
  /\ bestSellerMissingCount st = 1%nat
  /\ bestSellerMissingCount st <> 2%nat.
Proof. vm_compute. repeat split. discriminate. Qed.

(** A name that two records of the catalogue carry brings both into the
    base set: three curated names, all known, and four records. *)
Lemma shared_name_shows_twice :
  let d := catalogue (forbes :: forbesCouncil
                        :: publications (catalogueOf 100))
                     ["Business"; "News"]%string ["USA"%string] in
  let names := [js "Pub 7"; js "PUB 42"; js "Forbes"] in
  let st := showBestSellers (initialState d) names in
  unmatched d names = []
  /\ bestSellerMissingCount st = 0%nat
  /\ baseCount st = 4%nat.
Proof. vm_compute. repeat split. Qed.

(** * More of the page *)

(** ** What is shown is part of the catalogue *)

Lemma length_filter_le {A} (f : A -> bool) l :
  (List.length (filter f l) <= List.length l)%nat.
Proof.
  induction l as [|x r IH]; [reflexivity|]. cbn [filter].
  destruct (f x); cbn [List.length]; lia.
Qed.

Lemma baseCount_le st d :
  data st = Some d -> (baseCount st <= List.length (publications d))%nat.
Proof.
  intros Hd. unfold baseCount, basePublications. rewrite Hd.
  destruct (negb (is_bestSellers (viewMode st))); [reflexivity|].
  destruct (bestSellerSet st); [apply length_filter_le | reflexivity].
Qed.

(** X1.  Every record of the result is a record of the base set that the
    callback keeps, and every record of the base set is a record of the
    catalogue; so in "Showing X of Y" X is at most Y, and Y at most the
    size of the catalogue.  Without data both are empty. *)
Theorem result_within_catalogue st :
  (forall pub, In pub (filteredPublications st) ->
     In pub (basePublications st) /\ keeps st pub = true)
  /\ (List.length (filteredPublications st) <= baseCount st)%nat
  /\ (forall d, data st = Some d ->
        (forall pub, In pub (basePublications st) -> In pub (publications d))
        /\ (baseCount st <= List.length (publications d))%nat)
  /\ (data st = None -> filteredPublications st = [] /\ baseCount st = 0%nat).
Proof.
  split; [|split; [|split]].
  - intros pub H. destruct (data st) as [d|] eqn:Hd.
    + apply (filteredPublications_In st d pub Hd), H.
    + unfold filteredPublications in H. rewrite Hd in H. destruct H.
  - destruct (data st) as [d|] eqn:Hd.
    + rewrite (length_filteredPublications st d Hd). apply length_filter_le.
    + unfold filteredPublications. rewrite Hd. apply Nat.le_0_l.
  - intros d Hd. split; [|apply baseCount_le, Hd].
    intros pub. apply basePublications_in, Hd.
  - intros Hd. unfold filteredPublications, baseCount, basePublications.
    rewrite Hd. split; reflexivity.
Qed.

Lemma result_within_catalogue_witness :
  let st := setPriceMin (initialState sampleData) 1000 in
  data st = Some sampleData
  /\ (forall pub, In pub (basePublications st) ->
                  In pub (publications sampleData))
  /\ List.length (filteredPublications st) = 2%nat
  /\ baseCount st = 3%nat.
Proof.
  intros st.
  destruct (result_within_catalogue st) as (_ & _ & H & _).
  split; [reflexivity|]. split; [apply (H sampleData eq_refl)|].
  split; reflexivity.
Defined.

(** ** The order of the result *)

Lemma StronglySorted_weaken {A} (R S : A -> A -> Prop) l :
  (forall x y, R x y -> S x y) -> StronglySorted R l -> StronglySorted S l.
Proof.
  intros H. induction 1 as [|x r Hr IH Hx]; constructor; [exact IH|].
  eapply Forall_impl; [|exact Hx]. intros y. apply H.
Qed.

Lemma result_order st d :
  data st = Some d ->
  StronglySorted
    (fun a b =>
       match sortDirection st with
       | asc => val_ltb (sortVal (sortColumn st) b)
                        (sortVal (sortColumn st) a) = false
       | desc => val_ltb (sortVal (sortColumn st) a)
                         (sortVal (sortColumn st) b) = false
       end)
    (filteredPublications st).
Proof.
  intros Hd.
  destruct (filteredPublications_stable_sort st d Hd) as [[Hs _] _].
  eapply StronglySorted_weaken; [|exact Hs].
  intros x y. apply compareFn_nonpos.
Qed.

Lemma result_order_price_desc st d :
  data st = Some d -> sortColumn st = col_price -> sortDirection st = desc ->
  StronglySorted (fun a b => (price b <= price a)%Q)
                 (filteredPublications st).
Proof.
  intros Hd Hc Hdir. pose proof (result_order st d Hd) as H.
  rewrite Hc, Hdir in H. eapply StronglySorted_weaken; [|exact H].
  intros x y. unfold sortVal. cbn [field val_ltb]. apply Qltb_ge.
Qed.

(** X2.  Whatever the column, an ascending sort leaves no record before one
    with a smaller sort value, and a descending sort none before one with
    a greater value; by price the result is in non-decreasing, or
    non-increasing, order of the prices. *)
Theorem result_in_sort_order st d :
  data st = Some d ->
  StronglySorted
    (fun a b =>
       match sortDirection st with
       | asc => val_ltb (sortVal (sortColumn st) b)
                        (sortVal (sortColumn st) a) = false
       | desc => val_ltb (sortVal (sortColumn st) a)
                         (sortVal (sortColumn st) b) = false
       end)
    (filteredPublications st)
  /\ (sortColumn st = col_price -> sortDirection st = asc ->
      StronglySorted (fun a b => (price a <= price b)%Q)
                     (filteredPublications st))
  /\ (sortColumn st = col_price -> sortDirection st = desc ->
      StronglySorted (fun a b => (price b <= price a)%Q)
                     (filteredPublications st)).
Proof.
  intros Hd. pose proof (result_order st d Hd) as H.
  split; [exact H|]. split; [|apply (result_order_price_desc st d Hd)].
  intros Hc Hdir. rewrite Hc, Hdir in H.
  eapply StronglySorted_weaken; [|exact H].
  intros x y. unfold sortVal. cbn [field val_ltb]. apply Qltb_ge.
Qed.

Lemma result_in_sort_order_witness :
  let st := handleSort (initialState sampleData) col_price asc in
  data st = Some sampleData
  /\ filteredPublications st = [bbc; wired; forbes]
  /\ StronglySorted (fun a b => (price a <= price b)%Q)
                    (filteredPublications st).
Proof.
  intros st.
  destruct (result_in_sort_order st sampleData eq_refl) as (_ & H & _).
  split; [reflexivity|]. split; [reflexivity|].
  apply H; reflexivity.
Defined.

(** ** Resetting *)

Lemma flagStage_unset b : flagStage [] b = true.
Proof. reflexivity. Qed.

Lemma keeps_resetFilters st pub :
  keeps (resetFilters st) pub = true
  <-> (0 <= price pub)%Q /\ (price pub <= 85000)%Q.
Proof.
  rewrite keeps_stages.
  change (searchStage (resetFilters st) pub) with true.
  change (genreStage (resetFilters st) pub) with true.
  change (regionStage (resetFilters st) pub) with true.
  cbn [selectedSponsored selectedIndexed selectedDoFollow resetFilters].
  rewrite !flagStage_unset, !andb_true_r. cbn [andb].
  apply priceStage_iff.
Qed.

Lemma resetFilters_result st pub :
  In pub (filteredPublications (resetFilters st))
  <-> In pub (basePublications st)
      /\ (0 <= price pub)%Q /\ (price pub <= 85000)%Q.
Proof.
  destruct (data st) as [d|] eqn:Hd.
  - rewrite (filteredPublications_In (resetFilters st) d pub Hd).
    rewrite keeps_resetFilters. reflexivity.
  - unfold filteredPublications, basePublications.
    cbn [data resetFilters]. rewrite Hd. cbn [In]. tauto.
Qed.

(** X3.  After [resetFilters] the callback keeps exactly the records priced
    from 0 to 85000: a record above 85000 stays hidden.  The count of
    active filters is 0; the base set, the sort and the view are as
    before; a second reset changes nothing. *)
Theorem resetFilters_shows_price_range st :
  (forall pub, keeps (resetFilters st) pub = true
               <-> (0 <= price pub)%Q /\ (price pub <= 85000)%Q)
  /\ (forall pub, In pub (filteredPublications (resetFilters st))
                  <-> In pub (basePublications st)
                      /\ (0 <= price pub)%Q /\ (price pub <= 85000)%Q)
  /\ activeFiltersCount (resetFilters st) = 0%nat
  /\ basePublications (resetFilters st) = basePublications st
  /\ sortColumn (resetFilters st) = sortColumn st
  /\ sortDirection (resetFilters st) = sortDirection st
  /\ viewMode (resetFilters st) = viewMode st
  /\ resetFilters (resetFilters st) = resetFilters st.
Proof.
  split; [intros pub; apply keeps_resetFilters|].
  split; [intros pub; apply resetFilters_result | repeat split].
Qed.

(** A record priced above the default maximum is hidden after a reset. *)
Example reset_hides_expensive :
  let dear := mkPub 9 "Dear" ["News"%string] 90000 "1 week" "UK" false in
  let st := resetFilters (initialState
                            (catalogue [dear; bbc] ["News"%string]
                                       ["UK"%string])) in
  filteredPublications st = [bbc] /\ baseCount st = 2%nat.
Proof. split; reflexivity. Qed.

(** ** Selecting genres and regions *)

Lemma str_eqb_sym s t : str_eqb s t = str_eqb t s.
Proof.
  apply bool_eq_iff. rewrite !str_eqb_eq. split; intros H; symmetry; exact H.
Qed.

Lemma str_eqb_neq s t : s <> t -> str_eqb s t = false.
Proof.
  intros H. destruct (str_eqb s t) eqn:E; [|reflexivity].
  apply str_eqb_eq in E. contradiction.
Qed.

Lemma arr_includes_app l1 l2 x :
  arr_includes (l1 ++ l2) x = arr_includes l1 x || arr_includes l2 x.
Proof. unfold arr_includes. apply existsb_app. Qed.

Lemma arr_includes_remove l g h :
  arr_includes (filter (fun x => negb (str_eqb x g)) l) h
  = arr_includes l h && negb (str_eqb h g).
Proof.
  apply bool_eq_iff.
  rewrite andb_true_iff, negb_true_iff, !arr_includes_In, filter_In,
    negb_true_iff.
  split.
  - intros [H1 H2]. split; [exact H1|]. exact H2.
  - intros [H1 H2]. split; [exact H1|]. exact H2.
Qed.

Lemma remove_absent l g :
  arr_includes l g = false -> filter (fun x => negb (str_eqb x g)) l = l.
Proof.
  induction l as [|x r IH]; intros H; [reflexivity|].
  unfold arr_includes in H. cbn [existsb] in H.
  apply orb_false_iff in H as [Hx Hr].
  cbn [filter]. rewrite Hx. cbn [negb]. f_equal. apply IH, Hr.
Qed.

Lemma toggleGenre_flips prev g :
  arr_includes (toggleGenre prev g) g = negb (arr_includes prev g).
Proof.
  unfold toggleGenre. destruct (arr_includes prev g) eqn:E.
  - rewrite arr_includes_remove, str_eqb_refl, andb_false_r. reflexivity.
  - rewrite arr_includes_app, E. unfold arr_includes. cbn [existsb].
    rewrite str_eqb_refl. reflexivity.
Qed.

Lemma toggleGenre_others prev g h :
  h <> g -> arr_includes (toggleGenre prev g) h = arr_includes prev h.
Proof.
  intros Hne. unfold toggleGenre. destruct (arr_includes prev g).
  - rewrite arr_includes_remove, (str_eqb_neq h g Hne), andb_true_r.
    reflexivity.
  - rewrite arr_includes_app. unfold arr_includes at 2. cbn [existsb].
    rewrite (str_eqb_neq g h) by (intros E; apply Hne; symmetry; exact E).
    rewrite !orb_false_r. reflexivity.
Qed.

Lemma toggleGenre_NoDup prev g : NoDup prev -> NoDup (toggleGenre prev g).
Proof.
  intros H. unfold toggleGenre. destruct (arr_includes prev g) eqn:E.
  - apply NoDup_filter, H.
  - apply NoDup_app; [exact H | repeat constructor; intros [] |].
    intros x Hx [<-|[]]. apply arr_includes_In in Hx. congruence.
Qed.

Lemma toggleGenre_twice prev g :
  arr_includes prev g = false -> toggleGenre (toggleGenre prev g) g = prev.
Proof.
  intros H. unfold toggleGenre at 2. rewrite H.
  unfold toggleGenre. rewrite arr_includes_app, H.
  unfold arr_includes at 1. cbn [existsb orb]. rewrite str_eqb_refl.
  cbn [orb]. rewrite filter_app. cbn [filter]. rewrite str_eqb_refl.
  cbn [negb]. rewrite app_nil_r. apply remove_absent, H.
Qed.

(** X4.  [toggleGenre] and [toggleRegion] flip the membership of the value
    they are given and of no other; a selection without repetitions stays
    without; and selecting a value that was not selected and toggling it
    again gives the selection back as it was. *)
Theorem toggle_flips_membership prev g :
  arr_includes (toggleGenre prev g) g = negb (arr_includes prev g)
  /\ (forall h, h <> g ->
        arr_includes (toggleGenre prev g) h = arr_includes prev h)
  /\ (NoDup prev -> NoDup (toggleGenre prev g))
  /\ (arr_includes prev g = false ->
      toggleGenre prev g = prev ++ [g]
      /\ toggleGenre (toggleGenre prev g) g = prev)
  /\ arr_includes (toggleRegion prev g) g = negb (arr_includes prev g)
  /\ (forall h, h <> g ->
        arr_includes (toggleRegion prev g) h = arr_includes prev h)
  /\ (NoDup prev -> NoDup (toggleRegion prev g))
  /\ (arr_includes prev g = false ->
      toggleRegion (toggleRegion prev g) g = prev).
Proof.
  split; [apply toggleGenre_flips|].
  split; [apply toggleGenre_others|].
  split; [apply toggleGenre_NoDup|].
  split; [intros H; split;
          [apply toggleGenre_new, H | apply toggleGenre_twice, H]|].
  change toggleRegion with toggleGenre.
  split; [apply toggleGenre_flips|].
  split; [apply toggleGenre_others|].
  split; [apply toggleGenre_NoDup | apply toggleGenre_twice].
Qed.

Lemma toggle_flips_membership_witness :
  let prev := [js "News"; js "Tech"] in
  NoDup prev
  /\ arr_includes prev (js "Sports") = false
  /\ NoDup (toggleGenre prev (js "Sports"))
  /\ toggleGenre (toggleGenre prev (js "Sports")) (js "Sports") = prev
  /\ toggleGenre prev (js "News") = [js "Tech"].
Proof.
  intros prev.
  assert (Hn : NoDup prev) by (apply distinct_NoDup; reflexivity).
  destruct (toggle_flips_membership prev (js "Sports"))
    as (_ & _ & H3 & H4 & _).
  split; [exact Hn|]. split; [reflexivity|].
  split; [apply H3, Hn|]. split; [apply H4; reflexivity | reflexivity].
Defined.

(** ** The count of active filters *)

Lemma truthy_nil_iff s : truthy s = false <-> s = [].
Proof. destruct s; cbn; split; congruence. Qed.

Lemma length_remove_present (l : list jsstring) g :
  NoDup l -> In g l ->
  S (List.length (filter (fun x => negb (str_eqb x g)) l)) = List.length l.
Proof.
  induction l as [|x r IH]; intros Hn Hin; [destruct Hin|].
  inversion Hn as [|? ? Hx Hr]; subst. cbn [filter].
  destruct Hin as [->|Hin].
  - rewrite str_eqb_refl. cbn [negb List.length]. f_equal.
    rewrite remove_absent; [reflexivity|].
    destruct (arr_includes r g) eqn:E; [|reflexivity].
    apply arr_includes_In in E. contradiction.
  - rewrite str_eqb_neq by (intros ->; contradiction).
    cbn [negb List.length]. f_equal. apply IH; assumption.
Qed.

(** X5.  The count of active filters is 0 exactly when no genre and no
    region is selected and none of the three radio groups has a choice.
    The search text and the price range do not count.  Selecting a further
    genre adds one, and deselecting a selected genre takes one away. *)
Theorem activeFiltersCount_counts st :
  (activeFiltersCount st = 0%nat
   <-> selectedGenres st = [] /\ selectedRegions st = []
       /\ selectedSponsored st = [] /\ selectedIndexed st = []
       /\ selectedDoFollow st = [])
  /\ (forall t lo hi,
        activeFiltersCount (setPriceMax (setPriceMin (setSearchTerm st t) lo)
                                        hi)
        = activeFiltersCount st)
  /\ (forall g, arr_includes (selectedGenres st) g = false ->
        activeFiltersCount
          (setSelectedGenres st (toggleGenre (selectedGenres st) g))
        = S (activeFiltersCount st))
  /\ (forall g, NoDup (selectedGenres st) -> In g (selectedGenres st) ->
        S (activeFiltersCount
             (setSelectedGenres st (toggleGenre (selectedGenres st) g)))
        = activeFiltersCount st).
Proof.
  split; [|split; [reflexivity|split]].
  - unfold activeFiltersCount.
    rewrite <- 3 truthy_nil_iff.
    destruct (selectedGenres st), (selectedRegions st),
      (truthy (selectedSponsored st)), (truthy (selectedIndexed st)),
      (truthy (selectedDoFollow st)); cbn [List.length];
      split; try lia; try (intros (H1 & H2 & H3 & H4 & H5); congruence);
      intros _; repeat split; reflexivity.
  - intros g Hg. rewrite (toggleGenre_new _ _ Hg).
    unfold activeFiltersCount. cbn [selectedGenres selectedRegions
      selectedSponsored selectedIndexed selectedDoFollow setSelectedGenres].
    rewrite length_app. cbn [List.length]. lia.
  - intros g Hn Hin. unfold toggleGenre.
    rewrite (proj2 (arr_includes_In _ _) Hin).
    unfold activeFiltersCount. cbn [selectedGenres selectedRegions
      selectedSponsored selectedIndexed selectedDoFollow setSelectedGenres].
    rewrite <- (length_remove_present _ g Hn Hin). lia.
Qed.

Lemma activeFiltersCount_counts_witness :
  let st := setSelectedGenres (initialState sampleData)
                              [js "News"; js "Tech"] in
  NoDup (selectedGenres st) /\ In (js "News") (selectedGenres st)
  /\ activeFiltersCount st = 2%nat
  /\ S (activeFiltersCount
          (setSelectedGenres st (toggleGenre (selectedGenres st) (js "News"))))
     = activeFiltersCount st.
Proof.
  intros st.
  assert (Hn : NoDup (selectedGenres st))
    by (apply distinct_NoDup; reflexivity).
  assert (Hin : In (js "News") (selectedGenres st)) by (left; reflexivity).
  destruct (activeFiltersCount_counts st) as (_ & _ & _ & H).
  split; [exact Hn|]. split; [exact Hin|]. split; [reflexivity|].
  apply H; assumption.
Defined.

(** ** Loading the best sellers *)

Lemma ensure_with_set r pg s :
  bestSellerSet (page pg) = Some s -> ensureBestSellersLoaded r pg = pg.
Proof.
  intros H. unfold ensureBestSellersLoaded, ensureBestSellersLoaded_begin.
  rewrite H. reflexivity.
Qed.

Lemma ensure_sets r pg :
  bestSellerSet (page pg) = None -> bestSellerLoading pg = false ->
  exists s, bestSellerSet (page (ensureBestSellersLoaded r pg)) = Some s
            /\ bestSellerLoading (ensureBestSellersLoaded r pg) = false.
Proof.
  intros Hs Hl. unfold ensureBestSellersLoaded, ensureBestSellersLoaded_begin.
  rewrite Hs, Hl. destruct r as [| status | names]; eexists; split;
    reflexivity.
Qed.

(** X6.  The best-sellers set is fetched once and kept.  A call that finds
    a set returns at once, whatever the server would answer; a call made
    while a request is under way starts no second one; a call that finds
    neither ends with a set and the loading flag off, so calling again
    changes nothing.  [handleResetAll] goes back to the whole catalogue
    and clears the error, and keeps the set: the next click on "Best
    Sellers" shows the same set without a request. *)
Theorem bestSellers_fetched_once :
  (forall r pg s, bestSellerSet (page pg) = Some s ->
     ensureBestSellersLoaded r pg = pg)
  /\ (forall pg pg', ensureBestSellersLoaded_begin pg = Some pg' ->
        bestSellerLoading pg' = true
        /\ ensureBestSellersLoaded_begin pg' = None)
  /\ (forall r pg,
        bestSellerSet (page pg) = None -> bestSellerLoading pg = false ->
        exists s,
          bestSellerSet (page (ensureBestSellersLoaded r pg)) = Some s
          /\ bestSellerLoading (ensureBestSellersLoaded r pg) = false)
  /\ (forall r1 r2 pg,
        ensureBestSellersLoaded r2 (ensureBestSellersLoaded r1 pg)
        = ensureBestSellersLoaded r1 pg)
  /\ (forall pg,
        bestSellerSet (page (handleResetAll pg)) = bestSellerSet (page pg)
        /\ viewMode (page (handleResetAll pg)) = all
        /\ bestSellerError (handleResetAll pg) = None
        /\ basePublications (page (handleResetAll pg))
           = match data (page pg) with
             | Some d => publications d
             | None => []
             end)
  /\ (forall r pg s, bestSellerSet (page pg) = Some s ->
        bestSellerSet (page (clickBestSellers r (handleResetAll pg)))
        = Some s
        /\ viewMode (page (clickBestSellers r (handleResetAll pg)))
           = bestSellers).
Proof.
  split; [exact ensure_with_set|]. split; [|split; [exact ensure_sets|]].
  - intros pg pg' H. unfold ensureBestSellersLoaded_begin in H.
    destruct (bestSellerSet (page pg)) eqn:Hs; [discriminate|].
    destruct (bestSellerLoading pg) eqn:Hl; [discriminate|].
    inversion H; subst. split; [reflexivity|].
    unfold ensureBestSellersLoaded_begin. cbn [page bestSellerLoading].
    rewrite Hs. reflexivity.
  - split; [|split].
    + intros r1 r2 pg.
      destruct (bestSellerSet (page pg)) as [s|] eqn:Hs.
      * rewrite (ensure_with_set r1 pg s Hs). apply (ensure_with_set r2 pg s Hs).
      * destruct (bestSellerLoading pg) eqn:Hl.
        -- assert (E : forall r, ensureBestSellersLoaded r pg = pg).
           { intros r. unfold ensureBestSellersLoaded,
               ensureBestSellersLoaded_begin. rewrite Hs, Hl. reflexivity. }
           rewrite !E. reflexivity.
        -- destruct (ensure_sets r1 pg Hs Hl) as (s & H & _).
           apply (ensure_with_set r2 _ s H).
    + intros pg. repeat split.
    + intros r pg s Hs.
      assert (H : bestSellerSet (page (handleResetAll pg)) = Some s)
        by exact Hs.
      unfold clickBestSellers.
      rewrite (ensure_with_set r _ s H). split; [exact Hs | reflexivity].
Qed.

Lemma bestSellers_fetched_once_witness :
  let pg := clickBestSellers (Parsed (Some curated))
              (loadData (Some (catalogueOf 100)) initialPage) in
  bestSellerSet (page pg) = Some (buildBestSellerSet curated)
  /\ ensureBestSellersLoaded Thrown pg = pg
  /\ bestSellerSet (page (clickBestSellers Thrown (handleResetAll pg)))
     = Some (buildBestSellerSet curated).
Proof.
  intros pg.
  destruct bestSellers_fetched_once as (H1 & _ & _ & _ & _ & H6).
  assert (Hs : bestSellerSet (page pg) = Some (buildBestSellerSet curated))
    by reflexivity.
  split; [exact Hs|]. split; [apply (H1 Thrown pg _ Hs)|].
  apply (H6 Thrown pg _ Hs).
Defined.

Lemma set_has_nil x : set_has (newSet []) x = false.
Proof. reflexivity. Qed.

(** X7.  When the request fails (the fetch throws or the response is not
    ok) the set becomes the empty set and the error message is set; the
    same set, without a message, comes from a body that has no array of
    names.  The best-sellers view then shows no record and reports no
    missing name, and a later call does not try again. *)
Theorem bestSellers_failure_is_empty r pg :
  bestSellerSet (page pg) = None -> bestSellerLoading pg = false ->
  r = Thrown \/ (exists status, r = NotOk status) \/ r = Parsed None ->
  let pg' := clickBestSellers r pg in
  bestSellerSet (page pg') = Some []
  /\ (bestSellerError pg'
      = match r with
        | Parsed _ => None
        | _ => Some (js "Could not load best sellers list.")
        end)
  /\ bestSellerLoading pg' = false
  /\ basePublications (page pg') = []
  /\ filteredPublications (page pg') = []
  /\ bestSellerMissingCount (page pg') = 0%nat
  /\ (forall r', ensureBestSellersLoaded r' pg' = pg').
Proof.
  intros Hs Hl Hr pg'.
  assert (E : bestSellerSet (page pg') = Some []).
  { unfold pg', clickBestSellers, ensureBestSellersLoaded,
      ensureBestSellersLoaded_begin. rewrite Hs, Hl.
    destruct Hr as [->|[(status & ->)| ->]]; reflexivity. }
  assert (Hv : viewMode (page pg') = bestSellers) by reflexivity.
  assert (Hb : basePublications (page pg') = []).
  { unfold basePublications. rewrite Hv, E. cbn [is_bestSellers negb].
    destruct (data (page pg')) as [d|]; [|reflexivity].
    induction (publications d) as [|x l IH]; [reflexivity|]. exact IH. }
  split; [exact E|]. split; [|split; [|split; [exact Hb|split; [|split]]]].
  - unfold pg', clickBestSellers, ensureBestSellersLoaded,
      ensureBestSellersLoaded_begin. rewrite Hs, Hl.
    destruct Hr as [->|[(status & ->)| ->]]; reflexivity.
  - unfold pg', clickBestSellers, ensureBestSellersLoaded,
      ensureBestSellersLoaded_begin. rewrite Hs, Hl.
    destruct Hr as [->|[(status & ->)| ->]]; reflexivity.
  - unfold filteredPublications, filtered. rewrite Hb.
    destruct (data (page pg')); reflexivity.
  - unfold bestSellerMissingCount. rewrite Hv, E.
    destruct (data (page pg')); reflexivity.
  - intros r'. apply (ensure_with_set r' pg' [] E).
Qed.

Lemma bestSellers_failure_is_empty_witness :
  let pg := loadData (Some sampleData) initialPage in
  let pg' := clickBestSellers (NotOk 404) pg in
  bestSellerSet (page pg) = None /\ bestSellerLoading pg = false
  /\ bestSellerSet (page pg') = Some []
  /\ filteredPublications (page pg') = []
  /\ baseCount (page pg') = 0%nat.
Proof.
  intros pg pg'.
  destruct (bestSellers_failure_is_empty (NotOk 404) pg eq_refl eq_refl)
    as (H1 & _ & _ & _ & H5 & _).
  { right. left. exists 404%Z. reflexivity. }
  split; [reflexivity|]. split; [reflexivity|].
  split; [exact H1|]. split; [exact H5 | reflexivity].
Defined.

(** ** The other stages of the filter *)

Lemma flagStage_yes b : flagStage (js "Yes") b = true <-> b = true.
Proof. destruct b; cbn; split; congruence. Qed.

Lemma flagStage_other sel b :
  sel <> [] -> sel <> js "Yes" -> (flagStage sel b = true <-> b = false).
Proof.
  intros H1 H2. destruct (flagStage_cases sel b) as (_ & _ & H).
  rewrite (H H1 H2). destruct b; cbn; split; congruence.
Qed.

(** X8.  Each of the three radio groups filters on its own flag: with "Yes"
    chosen every record of the result has the flag, with any other option
    chosen ("No") none has it, and without a choice the flag plays no
    part. *)
Theorem flag_filters_exact st d pub :
  data st = Some d -> In pub (filteredPublications st) ->
  (selectedSponsored st = js "Yes" -> sponsored pub = true)
  /\ (selectedSponsored st <> [] -> selectedSponsored st <> js "Yes" ->
      sponsored pub = false)
  /\ (selectedIndexed st = js "Yes" -> indexed pub = true)
  /\ (selectedIndexed st <> [] -> selectedIndexed st <> js "Yes" ->
      indexed pub = false)
  /\ (selectedDoFollow st = js "Yes" -> do_follow pub = true)
  /\ (selectedDoFollow st <> [] -> selectedDoFollow st <> js "Yes" ->
      do_follow pub = false)
  /\ (forall b, flagStage [] b = true).
Proof.
  intros Hd Hin.
  apply (filteredPublications_In st d pub Hd) in Hin as [_ Hk].
  rewrite keeps_stages, !andb_true_iff in Hk.
  destruct Hk as [[[[[[_ _] _] _] H5] H6] H7].
  split; [intros E; rewrite E in H5; apply flagStage_yes, H5|].
  split; [intros E1 E2; apply (flagStage_other _ _ E1 E2), H5|].
  split; [intros E; rewrite E in H6; apply flagStage_yes, H6|].
  split; [intros E1 E2; apply (flagStage_other _ _ E1 E2), H6|].
  split; [intros E; rewrite E in H7; apply flagStage_yes, H7|].
  split; [intros E1 E2; apply (flagStage_other _ _ E1 E2), H7|].
  reflexivity.
Qed.

Lemma flag_filters_exact_witness :
  let st := setSelectedSponsored (initialState sampleData) (js "No") in
  data st = Some sampleData
  /\ filteredPublications st = [wired; bbc]
  /\ sponsored wired = false.
Proof.
  intros st.
  assert (Hin : In wired (filteredPublications st)) by (left; reflexivity).
  destruct (flag_filters_exact st sampleData wired eq_refl Hin)
    as (_ & H & _).
  split; [reflexivity|]. split; [reflexivity|].
  apply H; discriminate.
Defined.

Lemma regionStage_iff st pub :
  regionStage st pub = true
  <-> selectedRegions st = [] \/ In (region pub) (selectedRegions st).
Proof.
  unfold regionStage. destruct (selectedRegions st) as [|r0 sel] eqn:E.
  - cbn. tauto.
  - change (0 <? List.length (r0 :: sel))%nat with true. cbv iota.
    rewrite arr_includes_In. split; [auto|].
    intros [H|H]; [discriminate | exact H].
Qed.

(** X9.  With regions selected a record passes the region filter iff its
    region is one of them, letter for letter; every record of the result
    has a selected region, and with no region selected every record
    passes. *)
Theorem region_filter_exact st :
  (forall pub, regionStage st pub = true
               <-> selectedRegions st = []
                   \/ In (region pub) (selectedRegions st))
  /\ (forall d pub, data st = Some d -> selectedRegions st <> [] ->
        In pub (filteredPublications st) ->
        In (region pub) (selectedRegions st))
  /\ (forall pub, regionStage st pub = false -> keeps st pub = false).
Proof.
  split; [intros pub; apply regionStage_iff|]. split.
  - intros d pub Hd Hne Hin.
    apply (filteredPublications_In st d pub Hd) in Hin as [_ Hk].
    rewrite keeps_stages, !andb_true_iff in Hk.
    destruct Hk as [[[[[[_ _] H3] _] _] _] _].
    apply regionStage_iff in H3 as [H|H]; [contradiction | exact H].
  - intros pub H. rewrite keeps_stages, H, !andb_false_r. reflexivity.
Qed.

Lemma region_filter_exact_witness :
  let st := setSelectedRegions (initialState sampleData) [js "USA"] in
  data st = Some sampleData /\ selectedRegions st <> []
  /\ filteredPublications st = [forbes; wired]
  /\ In (region wired) (selectedRegions st)
  /\ filteredPublications
       (setSelectedRegions (initialState sampleData) [js "usa"]) = [].
Proof.
  intros st.
  assert (Hne : selectedRegions st <> []) by discriminate.
  assert (Hin : In wired (filteredPublications st))
    by (right; left; reflexivity).
  destruct (region_filter_exact st) as (_ & H & _).
  split; [reflexivity|]. split; [exact Hne|]. split; [reflexivity|].
  split; [apply (H sampleData wired eq_refl Hne Hin) | reflexivity].
Defined.

(** ** The search *)

Lemma searchStage_iff st pub :
  searchStage st pub = true
  <-> searchTerm st = []
      \/ includes (toLowerCase (name pub)) (toLowerCase (searchTerm st))
         = true
      \/ exists g, In g (genres pub)
                   /\ includes (toLowerCase g) (toLowerCase (searchTerm st))
                      = true.
Proof.
  unfold searchStage. destruct (searchTerm st) as [|c t] eqn:E.
  - cbn [truthy]. tauto.
  - cbn [truthy]. cbv zeta. rewrite orb_true_iff, existsb_exists.
    split.
    + intros [H|H]; right; [left | right]; exact H.
    + intros [H|[H|H]]; [discriminate | left | right]; exact H.
Qed.

(** X10.  For names, genres and search texts within Latin-1 (the code
    units of this model, where [toLowerCase] maps code unit by code unit),
    the search ignores the letter case: a record passes iff the lower-cased
    text occurs in its lower-cased name or in one of its lower-cased
    genres.  So a text that occurs in the name or in a genre as written
    finds the record, two texts that differ in letter case only find the
    same records, and an empty text finds all.  The text is not trimmed. *)
Theorem search_ignores_case :
  (forall st pub,
     searchStage st pub = true
     <-> searchTerm st = []
         \/ includes (toLowerCase (name pub)) (toLowerCase (searchTerm st))
            = true
         \/ exists g, In g (genres pub)
                      /\ includes (toLowerCase g)
                                  (toLowerCase (searchTerm st)) = true)
  /\ (forall st pub,
        includes (name pub) (searchTerm st) = true
        \/ (exists g, In g (genres pub)
                      /\ includes g (searchTerm st) = true) ->
        searchStage st pub = true)
  /\ (forall st t1 t2 pub,
        toLowerCase t1 = toLowerCase t2 ->
        searchStage (setSearchTerm st t1) pub
        = searchStage (setSearchTerm st t2) pub)
  /\ filteredPublications
       (setSearchTerm (initialState sampleData) (js "TECH")) = [wired]
  /\ filteredPublications
       (setSearchTerm (initialState sampleData) (js " ")) = [].
Proof.
  split; [exact searchStage_iff|]. split; [|split; [|split; reflexivity]].
  - intros st pub H. apply searchStage_iff. right.
    destruct H as [H|(g & Hg & H)].
    + left. apply includes_lower, H.
    + right. exists g. split; [exact Hg | apply includes_lower, H].
  - intros st t1 t2 pub E. unfold searchStage.
    cbn [searchTerm setSearchTerm]. cbv zeta. rewrite E.
    destruct t1 as [|c1 t1], t2 as [|c2 t2]; try reflexivity;
      discriminate E.
Qed.

Lemma search_ignores_case_witness :
  let st := setSearchTerm (initialState sampleData) (js "orb") in
  includes (name forbes) (searchTerm st) = true
  /\ searchStage st forbes = true
  /\ searchStage (setSearchTerm st (js "ORB")) forbes
     = searchStage (setSearchTerm st (js "Orb")) forbes.
Proof.
  intros st.
  destruct search_ignores_case as (_ & H2 & H3 & _).
  split; [reflexivity|].
  split; [apply H2; left; reflexivity | apply H3; reflexivity].
Defined.

(** ** The first view *)

(** X11.  When the catalogue has loaded, the page shows every record priced
    from 0 to 85000, the most expensive first, out of the whole catalogue;
    when the load fails the spinner goes away and the page is empty. *)
Theorem first_view d :
  let pg := loadData (Some d) initialPage in
  let failed := loadData None initialPage in
  loading pg = false
  /\ page pg = initialState d
  /\ (forall pub, In pub (filteredPublications (page pg))
                  <-> In pub (publications d)
                      /\ (0 <= price pub)%Q /\ (price pub <= 85000)%Q)
  /\ StronglySorted (fun a b => (price b <= price a)%Q)
                    (filteredPublications (page pg))
  /\ baseCount (page pg) = List.length (publications d)
  /\ loading failed = false
  /\ data (page failed) = None
  /\ filteredPublications (page failed) = []
  /\ baseCount (page failed) = 0%nat.
Proof.
  intros pg failed.
  split; [reflexivity|]. split; [reflexivity|].
  split; [|split; [|repeat split]].
  - intros pub.
    change (page pg) with (resetFilters (initialState d)).
    rewrite resetFilters_result. reflexivity.
  - apply (result_order_price_desc (page pg) d); reflexivity.
Qed.

(** ** The initials of a logo that is missing *)










(** ** The best-sellers view *)

(** X13.  In the best-sellers view a record of the catalogue is in the
    base set iff its key is the key of one of the curated names: so a
    record is there when its name and a curated name are spellings of one
    name in the sense of [SameSpelling] (a space written at a boundary from
    a lower-case letter to a capital, or an ampersand that no capital
    follows written as the word and).  Outside that view, or before the set
    has loaded, the base set is the whole catalogue. *)
Theorem bestSellers_membership st d :
  data st = Some d ->
  (forall names, viewMode st = bestSellers ->
     bestSellerSet st = Some (buildBestSellerSet names) ->
     forall p, In p (basePublications st)
               <-> In p (publications d)
                   /\ exists n, In n names
                                /\ normalizeName n = normalizeName (name p))
  /\ (forall names n p, viewMode st = bestSellers ->
        bestSellerSet st = Some (buildBestSellerSet names) ->
        In n names -> In p (publications d) -> SameSpelling n (name p) ->
        In p (basePublications st))
  /\ (viewMode st = all \/ bestSellerSet st = None ->
      basePublications st = publications d).
Proof.
  intros Hd.
  assert (H1 : forall names, viewMode st = bestSellers ->
     bestSellerSet st = Some (buildBestSellerSet names) ->
     forall p, In p (basePublications st)
               <-> In p (publications d)
                   /\ exists n, In n names
                                /\ normalizeName n = normalizeName (name p)).
  { intros names Hv Hb p. unfold basePublications.
    rewrite Hd, Hv, Hb. cbn [is_bestSellers negb].
    rewrite filter_In, set_has_In. unfold buildBestSellerSet.
    rewrite newSet_In, in_map_iff.
    split; intros [Hp (n & Ha & Hb')]; (split; [exact Hp|]); exists n; tauto. }
  split; [exact H1|]. split.
  - intros names n p Hv Hb Hn Hp Hs. apply (H1 names Hv Hb).
    split; [exact Hp|]. exists n. split; [exact Hn|].
    apply same_spelling_key, Hs.
  - intros H. unfold basePublications. rewrite Hd.
    destruct H as [->| ->]; [reflexivity|].
    destruct (negb (is_bestSellers (viewMode st))); reflexivity.
Qed.

Lemma bestSellers_membership_witness :
  let d := catalogue [mkPub 1 "Venture Beat" ["Tech"%string] 900 "2 days"
                            "USA" false; bbc]
                     ["News"; "Tech"]%string ["UK"; "USA"]%string in
  let st := showBestSellers (initialState d) [js "VentureBeat"] in
  data st = Some d
  /\ SameSpelling (js "VentureBeat") (js "Venture Beat")
  /\ map name (basePublications st) = [js "Venture Beat"].
Proof.
  intros d st.
  assert (Hs : SameSpelling (js "VentureBeat") (js "Venture Beat")).
  { apply (ss_camel (js "Ventur") "e" "B" (js "eat")); reflexivity. }
  destruct (bestSellers_membership st d eq_refl) as (_ & H & _).
  pose proof (H [js "VentureBeat"] (js "VentureBeat")
                (mkPub 1 "Venture Beat" ["Tech"%string] 900 "2 days"
                       "USA" false)
                eq_refl eq_refl (or_introl eq_refl) (or_introl eq_refl) Hs)
    as Hin.
  split; [reflexivity|]. split; [exact Hs | reflexivity].
Defined.

(** An ampersand that a capital follows is not covered: the curated name
    "ATandT News" does not bring in the record "AT&T News", whose key is
    another one. *)
Example bestSellers_ampersand_capital :
  let d := catalogue [mkPub 1 "AT&T News" ["News"%string] 900 "2 days"
                            "USA" false]
                     ["News"%string] ["USA"%string] in
  basePublications (showBestSellers (initialState d) [js "ATandT News"]) = []
  /\ normalizeName (js "AT&T News") = js "atandt news"
  /\ normalizeName (js "ATandT News") = js "atand t news".
Proof. repeat split. Qed.

(** X14.  The count of missing names is 0 outside the best-sellers view,
    before the set has loaded and without data.  Otherwise the keys of the
    set split into the missing ones and those that are some record's key;
    so the count is at most the size of the set, and 0 exactly when every
    key is some record's key. *)
Theorem missing_count_bounds st :
  (viewMode st = all \/ bestSellerSet st = None \/ data st = None ->
   bestSellerMissingCount st = 0%nat)
  /\ (forall d bs, viewMode st = bestSellers -> bestSellerSet st = Some bs ->
        data st = Some d ->
        (bestSellerMissingCount st
         + List.length (filter (inCatalogue d) bs))%nat = List.length bs
        /\ (bestSellerMissingCount st <= List.length bs)%nat
        /\ (bestSellerMissingCount st = 0%nat
            <-> forall k, In k bs -> inCatalogue d k = true)).
Proof.
  split.
  - unfold bestSellerMissingCount. intros [->|[->| ->]];
      [reflexivity | destruct (viewMode st); reflexivity |].
    destruct (viewMode st); [reflexivity|].
    destruct (bestSellerSet st); reflexivity.
  - intros d bs Hv Hb Hd.
    rewrite (bestSellerMissingCount_filter st d bs Hv Hb Hd).
    pose proof (length_filter_split (inCatalogue d) bs) as Hsplit.
    split; [lia|]. split; [lia|].
    split.
    + intros H0 k Hk. destruct (inCatalogue d k) eqn:E; [reflexivity|].
      assert (Hin : In k (filter (fun k => negb (inCatalogue d k)) bs)).
      { apply filter_In. split; [exact Hk|]. rewrite E. reflexivity. }
      destruct (filter (fun k => negb (inCatalogue d k)) bs);
        [destruct Hin | discriminate H0].
    + intros H. rewrite (filter_ext_in (fun k => negb (inCatalogue d k))
                                        (fun _ => false)).
      * clear. induction bs as [|x r IH]; [reflexivity | exact IH].
      * intros k Hk. rewrite (H k Hk). reflexivity.
Qed.

Lemma missing_count_bounds_witness :
  let st := showBestSellers (initialState (catalogueOf 100)) curated in
  viewMode st = bestSellers
  /\ bestSellerSet st = Some (buildBestSellerSet curated)
  /\ data st = Some (catalogueOf 100)
  /\ (bestSellerMissingCount st <= 5)%nat
  /\ bestSellerMissingCount st = 2%nat.
Proof.
  intros st.
  destruct (missing_count_bounds st) as (_ & H).
  destruct (H (catalogueOf 100) (buildBestSellerSet curated)
              eq_refl eq_refl eq_refl) as (_ & Hle & _).
  split; [reflexivity|]. split; [reflexivity|]. split; [reflexivity|].
  split; [exact Hle | reflexivity].
Defined.

(** * The converters *)

(** ** Keys of headers and of file names *)

Lemma alnum_not_und c : is_alnum c = true -> Ascii.eqb c und = false.
Proof. ascii_cases c. Qed.

Lemma alnum_not_percent c : is_alnum c = true -> Ascii.eqb c "%" = false.
Proof. ascii_cases c. Qed.

Lemma alnum_not_quote c : is_alnum c = true -> is_quote c = false.
Proof. ascii_cases c. Qed.

Lemma eqb_und_true c : Ascii.eqb c und = true -> c = und.
Proof. apply Ascii.eqb_eq. Qed.

Lemma keyShaped_weaken b s : keyShaped b s = true -> keyShaped false s = true.
Proof.
  destruct s as [|c r]; [reflexivity|]. cbn [keyShaped].
  destruct (is_alnum c); [auto|]. destruct b; [|auto].
  rewrite andb_false_r. discriminate.
Qed.

Lemma keyShaped_chars b s c :
  keyShaped b s = true -> In c s -> is_alnum c = true \/ c = und.
Proof.
  revert b; induction s as [|x r IH]; intros b H Hin; [destruct Hin|].
  cbn [keyShaped] in H. destruct Hin as [->|Hin].
  - destruct (is_alnum c); [auto|]. right. apply eqb_und_true.
    apply andb_true_iff in H as [H _]. apply andb_true_iff in H as [H _].
    exact H.
  - destruct (is_alnum x); [eauto|].
    apply andb_true_iff in H as [_ H]. eauto.
Qed.

Lemma replaceRunsBy_keyShaped b s :
  keyShaped b (replaceRunsBy und not_alnum b s) = true.
Proof.
  revert b; induction s as [|c r IH]; intros b; [reflexivity|].
  cbn [replaceRunsBy]. unfold not_alnum at 1.
  destruct (is_alnum c) eqn:Hc; cbn [negb].
  - cbn [keyShaped]. rewrite Hc. apply IH.
  - destruct b; [apply IH|]. cbn [keyShaped].
    change (is_alnum und) with false. rewrite Ascii.eqb_refl. apply IH.
Qed.

Lemma replaceRunsBy_keyShaped_id b s :
  keyShaped b s = true -> replaceRunsBy und not_alnum b s = s.
Proof.
  revert b; induction s as [|c r IH]; intros b H; [reflexivity|].
  cbn [keyShaped] in H. cbn [replaceRunsBy]. unfold not_alnum at 1.
  destruct (is_alnum c) eqn:Hc; cbn [negb].
  - rewrite IH by exact H. reflexivity.
  - apply andb_true_iff in H as [H Hr]. apply andb_true_iff in H as [Hs Hb].
    apply eqb_und_true in Hs. subst c.
    destruct b; [discriminate|]. rewrite IH by exact Hr. reflexivity.
Qed.

Lemma stripStart_keyShaped s :
  keyShaped false s = true -> keyShaped true (stripStart s) = true.
Proof.
  destruct s as [|c r]; [reflexivity|]. cbn [keyShaped stripStart].
  destruct (is_alnum c) eqn:Hc.
  - rewrite (alnum_not_und c Hc). cbn [keyShaped]. rewrite Hc. auto.
  - intros H. apply andb_true_iff in H as [H Hr].
    apply andb_true_iff in H as [Hs _]. rewrite Hs.
    destruct r as [|x r]; [reflexivity|]. cbn [keyShaped stripStart] in Hr |- *.
    destruct (is_alnum x) eqn:Hx.
    + rewrite (alnum_not_und x Hx). cbn [keyShaped]. rewrite Hx. exact Hr.
    + rewrite andb_false_r in Hr. discriminate.
Qed.

Lemma stripStart_keyShaped_id s :
  keyShaped true s = true -> stripStart s = s.
Proof.
  destruct s as [|c r]; [reflexivity|]. cbn [keyShaped stripStart].
  destruct (is_alnum c) eqn:Hc.
  - rewrite (alnum_not_und c Hc). reflexivity.
  - rewrite andb_false_r. discriminate.
Qed.

Lemma stripEnd_cons c r :
  stripEnd (c :: r)
  = match stripEnd r with
    | [] => if Ascii.eqb c und then [] else [c]
    | _ :: _ => c :: stripEnd r
    end.
Proof. cbn [stripEnd]. destruct (stripEnd r); reflexivity. Qed.

Lemma stripEnd_idem s : stripEnd (stripEnd s) = stripEnd s.
Proof.
  induction s as [|c s IH]; [reflexivity|].
  rewrite stripEnd_cons. destruct (stripEnd s) as [|x r] eqn:E.
  - destruct (Ascii.eqb c und) eqn:Hc; [reflexivity|].
    cbn [stripEnd]. rewrite Hc. reflexivity.
  - rewrite stripEnd_cons, IH. reflexivity.
Qed.

Lemma stripEnd_keyShaped b s :
  keyShaped b s = true -> keyShaped b (stripEnd s) = true.
Proof.
  revert b; induction s as [|c r IH]; intros b H; [reflexivity|].
  rewrite stripEnd_cons. cbn [keyShaped] in H.
  destruct (is_alnum c) eqn:Hc.
  - specialize (IH false H). rewrite (alnum_not_und c Hc).
    destruct (stripEnd r) as [|x r']; cbn [keyShaped]; rewrite Hc;
      [reflexivity | exact IH].
  - apply andb_true_iff in H as [H Hr]. specialize (IH true Hr).
    destruct (stripEnd r) as [|x r'].
    + apply andb_true_iff in H as [Hu _]. rewrite Hu. reflexivity.
    + cbn [keyShaped]. rewrite Hc, H. exact IH.
Qed.

(** What the last two steps of [normKey] and of [sanitizeForFilename]
    return. *)
Lemma underscored_shape s :
  keyShaped true
    (stripUnderscores (replaceRunsBy und not_alnum false s)) = true
  /\ stripEnd (stripUnderscores (replaceRunsBy und not_alnum false s))
     = stripUnderscores (replaceRunsBy und not_alnum false s).
Proof.
  unfold stripUnderscores. split; [|apply stripEnd_idem].
  apply stripEnd_keyShaped, stripStart_keyShaped, replaceRunsBy_keyShaped.
Qed.

Lemma trimStart_no_space s :
  (forall c, In c s -> is_space c = false) -> trimStart s = s.
Proof.
  destruct s as [|c r]; intros H; [reflexivity|]. cbn [trimStart].
  rewrite (H c (or_introl eq_refl)). reflexivity.
Qed.

Lemma trimEnd_no_space s :
  (forall c, In c s -> is_space c = false) -> trimEnd s = s.
Proof.
  induction s as [|c r IH]; intros H; [reflexivity|].
  rewrite trimEnd_cons_keep by (apply H; left; reflexivity).
  rewrite IH; [reflexivity|]. intros x Hx. apply H. right. exact Hx.
Qed.

Lemma trim_no_space s :
  (forall c, In c s -> is_space c = false) -> trim s = s.
Proof.
  intros H. unfold trim. rewrite (trimStart_no_space s H).
  apply trimEnd_no_space, H.
Qed.

Lemma flat_map_single {A} (f : A -> list A) l :
  (forall x, In x l -> f x = [x]) -> flat_map f l = l.
Proof.
  induction l as [|x r IH]; intros H; [reflexivity|]. cbn [flat_map].
  rewrite (H x (or_introl eq_refl)), IH; [reflexivity|].
  intros y Hy. apply H. right. exact Hy.
Qed.

Lemma filter_all {A} (f : A -> bool) l :
  (forall x, In x l -> f x = true) -> filter f l = l.
Proof.
  induction l as [|x r IH]; intros H; [reflexivity|]. cbn [filter].
  rewrite (H x (or_introl eq_refl)), IH; [reflexivity|].
  intros y Hy. apply H. right. exact Hy.
Qed.

Lemma keyShaped_plain b k c :
  keyShaped b k = true -> In c k ->
  is_space c = false /\ lower_char c = c /\ Ascii.eqb c "%" = false
  /\ Ascii.eqb c amp = false /\ is_quote c = false.
Proof.
  intros H Hin. destruct (keyShaped_chars b k c H Hin) as [Hc| ->].
  - repeat split; [apply alnum_not_space | apply alnum_lower_char
                   | apply alnum_not_percent | apply alnum_not_amp
                   | apply alnum_not_quote]; exact Hc.
  - repeat split.
Qed.

Lemma key_steps_fixed k :
  keyShaped true k = true -> stripEnd k = k ->
  trim k = k /\ toLowerCase k = k /\ replacePercent k = k
  /\ replaceAmp k = k /\ filter (fun c => negb (is_quote c)) k = k
  /\ stripUnderscores (replaceRunsBy und not_alnum false k) = k.
Proof.
  intros Hk He.
  pose proof (fun c Hc => keyShaped_plain true k c Hk Hc) as Hp.
  split; [apply trim_no_space; intros c Hc; apply (Hp c Hc)|].
  split; [unfold toLowerCase; rewrite <- (map_id k) at 2;
          apply map_ext_in; intros c Hc; apply (Hp c Hc)|].
  split; [apply flat_map_single; intros c Hc;
          destruct (Hp c Hc) as (_ & _ & -> & _); reflexivity|].
  split; [apply flat_map_single; intros c Hc;
          destruct (Hp c Hc) as (_ & _ & _ & -> & _); reflexivity|].
  split; [apply filter_all; intros c Hc;
          destruct (Hp c Hc) as (_ & _ & _ & _ & ->); reflexivity|].
  rewrite replaceRunsBy_keyShaped_id by (eapply keyShaped_weaken; exact Hk).
  unfold stripUnderscores. rewrite (stripStart_keyShaped_id k Hk). exact He.
Qed.

Lemma keyShaped_no_double b k pre post :
  keyShaped b k = true -> k <> pre ++ und :: und :: post.
Proof.
  revert b k; induction pre as [|x pre IH]; intros b k H E; subst k.
  - cbn [app keyShaped] in H. change (is_alnum und) with false in H.
    cbn in H. rewrite andb_false_r in H. discriminate.
  - cbn [app keyShaped] in H. destruct (is_alnum x).
    + exact (IH false _ H eq_refl).
    + apply andb_true_iff in H as [_ H]. exact (IH true _ H eq_refl).
Qed.

Lemma stripEnd_app_und pre : stripEnd (pre ++ [und]) = stripEnd pre.
Proof.
  induction pre as [|x pre IH]; [reflexivity|].
  cbn [app]. rewrite !stripEnd_cons, IH. reflexivity.
Qed.

Lemma stripEnd_length s : (List.length (stripEnd s) <= List.length s)%nat.
Proof.
  induction s as [|c r IH]; [reflexivity|]. rewrite stripEnd_cons.
  destruct (stripEnd r) as [|x r'] eqn:E.
  - destruct (Ascii.eqb c und); cbn [List.length]; lia.
  - cbn [List.length] in *. lia.
Qed.

Lemma stripEnd_fixed_last k pre : stripEnd k = k -> k <> pre ++ [und].
Proof.
  intros He ->. rewrite stripEnd_app_und in He.
  pose proof (stripEnd_length pre) as Hl. rewrite He in Hl.
  rewrite length_app in Hl. cbn [List.length] in Hl. lia.
Qed.

Lemma keyShaped_first k r : keyShaped true k = true -> k <> und :: r.
Proof.
  intros H ->. cbn [keyShaped] in H. change (is_alnum und) with false in H.
  cbn in H. discriminate.
Qed.

(** X15.  [normKey] returns lower-case letters, digits and underscores
    only, with no underscore in front or at the end and no two in a row;
    applied to its own result it changes nothing.  The header
    "NAME OF PUBLICATION" becomes name_of_publication, a percent sign is
    spelled out, and the header "--- ???" gives the empty key. *)
Theorem normKey_shape k :
  (forall c, In c (normKey k) -> is_alnum c = true \/ c = und)
  /\ (forall r, normKey k <> und :: r)
  /\ (forall pre, normKey k <> pre ++ [und])
  /\ (forall pre post, normKey k <> pre ++ und :: und :: post)
  /\ normKey (normKey k) = normKey k
  /\ normKey (js "NAME OF PUBLICATION") = js "name_of_publication"
  /\ normKey (js " Price (USD) ") = js "price_usd"
  /\ normKey (js "DA %") = js "da_percent"
  /\ normKey (js "--- ???") = [].
Proof.
  destruct (underscored_shape (replacePercent (toLowerCase (trim k))))
    as [Hk He].
  change (stripUnderscores _) with (normKey k) in Hk, He.
  split; [intros c; apply (keyShaped_chars true _ c Hk)|].
  split; [intros r; apply keyShaped_first, Hk|].
  split; [intros pre; apply stripEnd_fixed_last, He|].
  split; [intros pre post; apply (keyShaped_no_double true), Hk|].
  split; [|repeat split].
  destruct (key_steps_fixed (normKey k) Hk He) as (H1 & H2 & H3 & _ & _ & H6).
  unfold normKey at 1. rewrite H1, H2, H3. exact H6.
Qed.

(** X16.  [sanitizeForFilename] returns lower-case letters, digits and
    underscores only, with no underscore in front or at the end and no two
    in a row, and is idempotent; quotes vanish and the ampersand is spelled
    out; the name " ?! " gives the empty base. *)
Theorem sanitizeForFilename_shape name :
  (forall c, In c (sanitizeForFilename name) -> is_alnum c = true \/ c = und)
  /\ (forall r, sanitizeForFilename name <> und :: r)
  /\ (forall pre, sanitizeForFilename name <> pre ++ [und])
  /\ (forall pre post,
        sanitizeForFilename name <> pre ++ und :: und :: post)
  /\ sanitizeForFilename (sanitizeForFilename name)
     = sanitizeForFilename name
  /\ sanitizeForFilename (js "Men's Health (Australia)")
     = js "mens_health_australia"
  /\ sanitizeForFilename (js "Rolling & Stone") = js "rolling_and_stone"
  /\ sanitizeForFilename (js " ?! ") = [].
Proof.
  destruct (underscored_shape
              (filter (fun c => negb (is_quote c))
                      (replaceAmp (toLowerCase (trim name)))))
    as [Hk He].
  change (stripUnderscores _) with (sanitizeForFilename name) in Hk, He.
  split; [intros c; apply (keyShaped_chars true _ c Hk)|].
  split; [intros r; apply keyShaped_first, Hk|].
  split; [intros pre; apply stripEnd_fixed_last, He|].
  split; [intros pre post; apply (keyShaped_no_double true), Hk|].
  split; [|repeat split].
  destruct (key_steps_fixed (sanitizeForFilename name) Hk He)
    as (H1 & H2 & _ & H4 & H5 & H6).
  unfold sanitizeForFilename at 1. rewrite H1, H2, H4, H5. exact H6.
Qed.

(** ** File names of logos *)

Lemma replaceRunsBy_chars rep p b s c :
  In c (replaceRunsBy rep p b s) -> c = rep \/ (In c s /\ p c = false).
Proof.
  revert b; induction s as [|x r IH]; intros b H; [destruct H|].
  cbn [replaceRunsBy] in H. destruct (p x) eqn:Hx.
  - destruct b.
    + destruct (IH _ H) as [E|[Hin Hp]]; [auto | right; split; [right|]; auto].
    + destruct H as [<-|H]; [auto|].
      destruct (IH _ H) as [E|[Hin Hp]]; [auto | right; split; [right|]; auto].
  - destruct H as [<-|H]; [right; split; [left|]; auto|].
    destruct (IH _ H) as [E|[Hin Hp]]; [auto | right; split; [right|]; auto].
Qed.

Lemma replaceRunsBy_none rep p b s :
  (forall c, In c s -> p c = false) -> replaceRunsBy rep p b s = s.
Proof.
  revert b; induction s as [|x r IH]; intros b H; [reflexivity|].
  cbn [replaceRunsBy]. rewrite (H x (or_introl eq_refl)).
  rewrite IH; [reflexivity|]. intros y Hy. apply H. right. exact Hy.
Qed.

Lemma replaceRunsBy_noDoubleUnd b s :
  noDoubleUnd b (replaceRunsBy und (fun c => Ascii.eqb c und) b s) = true.
Proof.
  revert b; induction s as [|c r IH]; intros b; [reflexivity|].
  cbn [replaceRunsBy]. destruct (Ascii.eqb c und) eqn:Hc.
  - destruct b; [apply IH|]. cbn [noDoubleUnd]. rewrite Ascii.eqb_refl.
    apply IH.
  - cbn [noDoubleUnd]. rewrite Hc. apply IH.
Qed.

Lemma replaceRunsBy_noDoubleUnd_id b s :
  noDoubleUnd b s = true ->
  replaceRunsBy und (fun c => Ascii.eqb c und) b s = s.
Proof.
  revert b; induction s as [|c r IH]; intros b H; [reflexivity|].
  cbn [noDoubleUnd] in H. cbn [replaceRunsBy].
  destruct (Ascii.eqb c und) eqn:Hc.
  - apply andb_true_iff in H as [Hb Hr]. apply eqb_und_true in Hc. subst c.
    destruct b; [discriminate|]. rewrite IH by exact Hr. reflexivity.
  - rewrite IH by exact H. reflexivity.
Qed.

Lemma noDoubleUnd_no_double b k pre post :
  noDoubleUnd b k = true -> k <> pre ++ und :: und :: post.
Proof.
  revert b k; induction pre as [|x pre IH]; intros b k H E; subst k.
  - cbn [app noDoubleUnd] in H. rewrite Ascii.eqb_refl in H.
    cbn in H. rewrite andb_false_r in H. discriminate.
  - cbn [app noDoubleUnd] in H. destruct (Ascii.eqb x und).
    + apply andb_true_iff in H as [_ H]. exact (IH true _ H eq_refl).
    + exact (IH false _ H eq_refl).
Qed.

Lemma logo_name_plain name c :
  In c (replaceRunsBy und (fun c => Ascii.eqb c und) false
          (replaceRunsBy und is_space false
             (filter (fun c => negb (is_reserved c)) name))) ->
  is_reserved c = false /\ is_space c = false.
Proof.
  intros H.
  apply replaceRunsBy_chars in H as [->|[H _]]; [split; reflexivity|].
  apply replaceRunsBy_chars in H as [->|[H Hs]]; [split; reflexivity|].
  apply filter_In in H as [_ H]. apply negb_true_iff in H. auto.
Qed.

(** X17.  [sanitizeForLogoFilename] returns a name without any of the
    characters reserved in file names, without white space and without two
    underscores in a row; every code unit it returns is an underscore or a
    code unit of the name; applied to its own result it changes nothing.
    Letter case and underscores at the ends stay. *)
Theorem sanitizeForLogoFilename_shape name :
  (forall c, In c (sanitizeForLogoFilename name) ->
     is_reserved c = false /\ is_space c = false
     /\ (c = und \/ In c name))
  /\ (forall pre post,
        sanitizeForLogoFilename name <> pre ++ und :: und :: post)
  /\ sanitizeForLogoFilename (sanitizeForLogoFilename name)
     = sanitizeForLogoFilename name
  /\ sanitizeForLogoFilename (js "A/B: What?  Now") = js "AB_What_Now"
  /\ sanitizeForLogoFilename (js " x _ y ") = js "_x_y_".
Proof.
  set (u := replaceRunsBy und (fun c => Ascii.eqb c und) false
              (replaceRunsBy und is_space false
                 (filter (fun c => negb (is_reserved c)) name))).
  assert (Hp : forall c, In c u -> is_reserved c = false /\ is_space c = false)
    by (intros c; apply logo_name_plain).
  assert (Ht : sanitizeForLogoFilename name = u).
  { unfold sanitizeForLogoFilename. fold u. apply trim_no_space.
    intros c Hc. apply (Hp c Hc). }
  assert (Hd : noDoubleUnd false u = true)
    by apply replaceRunsBy_noDoubleUnd.
  split; [|split; [|split; [|split; reflexivity]]].
  - intros c Hc. rewrite Ht in Hc. destruct (Hp c Hc) as [H1 H2].
    split; [exact H1|]. split; [exact H2|].
    unfold u in Hc.
    apply replaceRunsBy_chars in Hc as [->|[Hc _]]; [auto|].
    apply replaceRunsBy_chars in Hc as [->|[Hc _]]; [auto|].
    apply filter_In in Hc as [Hc _]. auto.
  - intros pre post. rewrite Ht. apply (noDoubleUnd_no_double false), Hd.
  - rewrite Ht. unfold sanitizeForLogoFilename.
    rewrite (filter_all (fun c => negb (is_reserved c)) u)
      by (intros c Hc; destruct (Hp c Hc) as [-> _]; reflexivity).
    rewrite (replaceRunsBy_none und is_space false u)
      by (intros c Hc; apply (Hp c Hc)).
    rewrite (replaceRunsBy_noDoubleUnd_id false u Hd).
    apply trim_no_space. intros c Hc. apply (Hp c Hc).
Qed.

(** ** Names read from the portal's page *)

Lemma replaceRuns_singleSpaced b s :
  singleSpaced b (replaceRuns is_space b s) = true.
Proof.
  revert b; induction s as [|c r IH]; intros b; [reflexivity|].
  cbn [replaceRuns]. destruct (is_space c) eqn:Hc.
  - destruct b; [apply IH|]. cbn [singleSpaced].
    change (is_space space) with true. cbn iota.
    rewrite Ascii.eqb_refl. apply IH.
  - cbn [singleSpaced]. rewrite Hc. apply IH.
Qed.

Lemma replaceRuns_singleSpaced_id b s :
  singleSpaced b s = true -> replaceRuns is_space b s = s.
Proof.
  revert b; induction s as [|c r IH]; intros b H; [reflexivity|].
  cbn [singleSpaced] in H. cbn [replaceRuns].
  destruct (is_space c) eqn:Hc.
  - apply andb_true_iff in H as [H Hr]. apply andb_true_iff in H as [Hs Hb].
    apply eqb_space_true in Hs. subst c.
    destruct b; [discriminate|]. rewrite IH by exact Hr. reflexivity.
  - rewrite IH by exact H. reflexivity.
Qed.

Lemma singleSpaced_weaken b s :
  singleSpaced b s = true -> singleSpaced false s = true.
Proof.
  destruct s as [|c r]; [reflexivity|]. cbn [singleSpaced].
  destruct (is_space c); [|auto]. destruct b; [|auto].
  rewrite andb_false_r. discriminate.
Qed.

Lemma trimStart_singleSpaced s :
  singleSpaced false s = true -> singleSpaced true (trimStart s) = true.
Proof.
  destruct s as [|c r]; [reflexivity|]. cbn [singleSpaced trimStart].
  destruct (is_space c) eqn:Hc.
  - intros H. apply andb_true_iff in H as [_ Hr].
    destruct r as [|x r]; [reflexivity|]. cbn [singleSpaced trimStart] in *.
    destruct (is_space x) eqn:Hx.
    + rewrite andb_false_r in Hr. discriminate.
    + cbn [singleSpaced]. rewrite Hx. exact Hr.
  - cbn [singleSpaced]. rewrite Hc. auto.
Qed.

Lemma trimStart_singleSpaced_id s :
  singleSpaced true s = true -> trimStart s = s.
Proof.
  destruct s as [|c r]; [reflexivity|]. cbn [singleSpaced trimStart].
  destruct (is_space c); [|reflexivity].
  rewrite andb_false_r. discriminate.
Qed.

Lemma trimEnd_singleSpaced b s :
  singleSpaced b s = true -> singleSpaced b (trimEnd s) = true.
Proof.
  revert b; induction s as [|c r IH]; intros b H; [reflexivity|].
  rewrite trimEnd_cons. cbn [singleSpaced] in H.
  destruct (is_space c) eqn:Hc.
  - apply andb_true_iff in H as [H Hr]. specialize (IH true Hr).
    destruct (trimEnd r) as [|x r']; [reflexivity|].
    cbn [singleSpaced]. rewrite Hc, H. exact IH.
  - specialize (IH false H).
    destruct (trimEnd r) as [|x r']; cbn [singleSpaced]; rewrite Hc;
      [reflexivity | exact IH].
Qed.

Lemma singleSpaced_chars b s c :
  singleSpaced b s = true -> In c s -> is_space c = true -> c = space.
Proof.
  revert b; induction s as [|x r IH]; intros b H Hin Hc; [destruct Hin|].
  cbn [singleSpaced] in H. destruct Hin as [->|Hin].
  - rewrite Hc in H. apply andb_true_iff in H as [H _].
    apply andb_true_iff in H as [H _]. apply eqb_space_true, H.
  - destruct (is_space x).
    + apply andb_true_iff in H as [_ H]. eauto.
    + eauto.
Qed.

Lemma singleSpaced_no_double b k pre x y post :
  singleSpaced b k = true -> is_space x = true -> is_space y = true ->
  k <> pre ++ x :: y :: post.
Proof.
  intros H Hx Hy E. subst k. revert b H.
  induction pre as [|z pre IH]; intros b H.
  - cbn [app singleSpaced] in H. rewrite Hx, Hy in H.
    cbn in H. rewrite !andb_false_r in H. discriminate.
  - cbn [app singleSpaced] in H. destruct (is_space z).
    + apply andb_true_iff in H as [_ H]. exact (IH true H).
    + exact (IH false H).
Qed.

(** X18.  [normName] returns the name with every run of white space turned
    into one space and none left in front or at the end: the only white
    space in the result is the space, never two in a row.  Applied to its
    own result it changes nothing. *)
Theorem normName_shape s :
  (forall c, In c (normName s) -> is_space c = true -> c = space)
  /\ (forall pre x y post, is_space x = true -> is_space y = true ->
        normName s <> pre ++ x :: y :: post)
  /\ trimStart (normName s) = normName s
  /\ trimEnd (normName s) = normName s
  /\ normName (normName s) = normName s
  /\ normName (js "  The   New  York Times ") = js "The New York Times".
Proof.
  assert (Hs : singleSpaced true (normName s) = true).
  { unfold normName, trim.
    apply trimEnd_singleSpaced, trimStart_singleSpaced,
      replaceRuns_singleSpaced. }
  assert (He : trimEnd (normName s) = normName s)
    by (unfold normName, trim; apply trimEnd_idem).
  pose proof (trimStart_singleSpaced_id _ Hs) as Hb.
  split; [intros c; apply (singleSpaced_chars true _ c Hs)|].
  split; [intros pre x y post Hx Hy;
          apply (singleSpaced_no_double true); assumption|].
  split; [exact Hb|]. split; [exact He|]. split; [|reflexivity].
  unfold normName at 1.
  rewrite replaceRuns_singleSpaced_id
    by (eapply singleSpaced_weaken; exact Hs).
  unfold trim. rewrite Hb. exact He.
Qed.

Lemma normName_shape_witness :
  is_space space = true
  /\ normName (js "a  b") <> js "a" ++ space :: space :: js "b"
  /\ normName (js "a  b") = js "a b".
Proof.
  destruct (normName_shape (js "a  b")) as (_ & H & _).
  split; [reflexivity|].
  split; [apply H; reflexivity | reflexivity].
Defined.

(** ** Lists written in one cell *)

Lemma trimStart_idem s : trimStart (trimStart s) = trimStart s.
Proof.
  induction s as [|c r IH]; [reflexivity|]. cbn [trimStart].
  destruct (is_space c) eqn:Hc; [exact IH|]. cbn [trimStart].
  rewrite Hc. reflexivity.
Qed.

Lemma trim_idem s : trim (trim s) = trim s.
Proof.
  unfold trim. rewrite (trimStart_trimEnd (trimStart s)), trimStart_idem.
  apply trimEnd_idem.
Qed.

Lemma trimStart_In s c : In c (trimStart s) -> In c s.
Proof.
  induction s as [|x r IH]; [auto|]. cbn [trimStart].
  destruct (is_space x); [intros H; right; apply IH, H | auto].
Qed.

Lemma trimEnd_In s c : In c (trimEnd s) -> In c s.
Proof.
  induction s as [|x r IH]; [auto|]. rewrite trimEnd_cons.
  destruct (trimEnd r) as [|y r'] eqn:E.
  - destruct (is_space x); [intros [] | intros [<-|[]]; left; reflexivity].
  - intros [<-|H]; [left; reflexivity | right; apply IH, H].
Qed.

Lemma trim_In s c : In c (trim s) -> In c s.
Proof. intros H. apply trimStart_In, trimEnd_In, H. Qed.

Lemma splitWhen_not_nil p s : splitWhen p s <> [].
Proof.
  destruct s as [|c r]; cbn [splitWhen]; [discriminate|].
  destruct (p c); [discriminate|]. destruct (splitWhen p r); discriminate.
Qed.

Lemma splitWhen_no_sep p s w c :
  In w (splitWhen p s) -> In c w -> p c = false.
Proof.
  revert w; induction s as [|x r IH]; intros w Hw Hc.
  - destruct Hw as [<-|[]]. destruct Hc.
  - cbn [splitWhen] in Hw. destruct (p x) eqn:E.
    + destruct Hw as [<-|Hw]; [destruct Hc | eapply IH; eassumption].
    + destruct (splitWhen p r) as [|w0 ws] eqn:Er.
      * destruct Hw as [<-|[]]. destruct Hc as [<-|[]]. exact E.
      * destruct Hw as [<-|Hw].
        -- destruct Hc as [<-|Hc]; [exact E|].
           apply (IH w0); [left; reflexivity | exact Hc].
        -- apply (IH w); [right; exact Hw | exact Hc].
Qed.

Lemma splitWhen_plain p s :
  (forall c, In c s -> p c = false) -> splitWhen p s = [s].
Proof.
  induction s as [|x r IH]; intros H; [reflexivity|]. cbn [splitWhen].
  rewrite (H x (or_introl eq_refl)), IH; [reflexivity|].
  intros c Hc. apply H. right. exact Hc.
Qed.

Lemma splitWhen_app_sep p a c b :
  (forall x, In x a -> p x = false) -> p c = true ->
  splitWhen p (a ++ c :: b) = a :: splitWhen p b.
Proof.
  intros Ha Hc. induction a as [|x a IH]; cbn [app splitWhen].
  - rewrite Hc. reflexivity.
  - rewrite (Ha x (or_introl eq_refl)), IH; [reflexivity|].
    intros y Hy. apply Ha. right. exact Hy.
Qed.

Lemma trimStart_length s : (List.length (trimStart s) <= List.length s)%nat.
Proof.
  induction s as [|c r IH]; [reflexivity|]. cbn [trimStart].
  destruct (is_space c); cbn [List.length]; lia.
Qed.

Lemma trimEnd_length s : (List.length (trimEnd s) <= List.length s)%nat.
Proof.
  induction s as [|c r IH]; [reflexivity|]. rewrite trimEnd_cons.
  destruct (trimEnd r) as [|x r'] eqn:E.
  - destruct (is_space c); cbn [List.length]; lia.
  - cbn [List.length] in *. lia.
Qed.

(** A trimmed text that is not empty begins and ends with a code unit that
    is not white space. *)
Lemma trimmed_ends x :
  trim x = x -> trimStart x = x /\ trimEnd x = x.
Proof.
  intros H. unfold trim in H.
  assert (Hs : trimStart x = x).
  { destruct x as [|c r]; [reflexivity|]. cbn [trimStart] in *.
    destruct (is_space c); [|reflexivity].
    pose proof (trimEnd_length (trimStart r)) as H1.
    pose proof (trimStart_length r) as H2.
    rewrite H in H1. cbn [List.length] in H1. lia. }
  split; [exact Hs|]. rewrite Hs in H. exact H.
Qed.

Lemma trimStart_app_fixed x r :
  x <> [] -> trimStart x = x -> trimStart (x ++ r) = x ++ r.
Proof.
  destruct x as [|c x]; [congruence|]. intros _ H.
  cbn [app trimStart] in *. destruct (is_space c); [|reflexivity].
  pose proof (trimStart_length x) as Hl. rewrite H in Hl.
  cbn [List.length] in Hl. lia.
Qed.

Lemma trimEnd_app_fixed l x :
  x <> [] -> trimEnd x = x -> trimEnd (l ++ x) = l ++ x.
Proof.
  intros Hx He. induction l as [|a l IH]; [exact He|].
  cbn [app]. rewrite trimEnd_cons, IH.
  destruct (l ++ x) eqn:E; [|reflexivity].
  apply app_eq_nil in E as [_ E]. contradiction.
Qed.

Lemma trimStart_app_blank lead y :
  blankText lead -> trimStart (lead ++ y) = trimStart y.
Proof.
  intros H. induction lead as [|c lead IH]; [reflexivity|].
  cbn [app trimStart]. rewrite (H c (or_introl eq_refl)).
  apply IH. intros x Hx. apply H. right. exact Hx.
Qed.

Lemma trimEnd_blank ws : blankText ws -> trimEnd ws = [].
Proof.
  intros H. induction ws as [|c ws IH]; [reflexivity|].
  rewrite trimEnd_cons, IH by (intros x Hx; apply H; right; exact Hx).
  rewrite (H c (or_introl eq_refl)). reflexivity.
Qed.

Lemma trimEnd_app_blank y ws :
  blankText ws -> trimEnd (y ++ ws) = trimEnd y.
Proof.
  intros H. induction y as [|c y IH].
  - cbn [app]. apply trimEnd_blank, H.
  - cbn [app]. rewrite !trimEnd_cons, IH. reflexivity.
Qed.

Lemma trim_padded lead x ws :
  blankText lead -> blankText ws -> x <> [] -> trim x = x ->
  trim (lead ++ x ++ ws) = x.
Proof.
  intros Hl Hw Hx Ht. destruct (trimmed_ends x Ht) as [Hs He].
  unfold trim. rewrite (trimStart_app_blank lead _ Hl).
  rewrite (trimStart_app_fixed x ws Hx Hs).
  rewrite (trimEnd_app_blank x ws Hw). exact He.
Qed.

Lemma space_not_listSep c : is_space c = true -> is_listSep c = false.
Proof. ascii_cases c. Qed.

Lemma joinWith_cons sep x y r :
  joinWith sep (x :: y :: r) = x ++ sep ++ joinWith sep (y :: r).
Proof. reflexivity. Qed.

Lemma joinWith_not_nil sep xs :
  xs <> [] -> Forall listEntry xs -> joinWith sep xs <> [].
Proof.
  destruct xs as [|x r]; [congruence|]. intros _ H.
  inversion H as [|? ? [Hx _] _]; subst.
  destruct r as [|y r]; [exact Hx|].
  rewrite joinWith_cons. destruct x; [congruence | discriminate].
Qed.

Lemma joinWith_trimmed sep xs :
  xs <> [] -> Forall listEntry xs -> trim (joinWith sep xs) = joinWith sep xs.
Proof.
  intros Hne H. unfold trim.
  assert (Hs : trimStart (joinWith sep xs) = joinWith sep xs).
  { destruct xs as [|x r]; [congruence|].
    inversion H as [|? ? (Hx & Ht & _) _]; subst.
    destruct r as [|y r]; [apply (trimmed_ends x Ht)|].
    rewrite joinWith_cons.
    apply trimStart_app_fixed; [exact Hx | apply (trimmed_ends x Ht)]. }
  rewrite Hs. clear Hs.
  induction xs as [|x r IH]; [congruence|].
  inversion H as [|? ? (Hx & Ht & _) Hr]; subst.
  destruct r as [|y r]; [apply (trimmed_ends x Ht)|].
  rewrite joinWith_cons, app_assoc.
  apply trimEnd_app_fixed; [|apply IH; [discriminate | exact Hr]].
  apply joinWith_not_nil; [discriminate | exact Hr].
Qed.

Lemma split_joined pre c post lead xs :
  blankText pre -> blankText post -> blankText lead ->
  is_listSep c = true -> xs <> [] -> Forall listEntry xs ->
  filter truthy
    (map trim (splitWhen is_listSep
                         (lead ++ joinWith (pre ++ c :: post) xs)))
  = xs.
Proof.
  intros Hpre Hpost Hlead Hc Hne H. revert lead Hlead.
  induction xs as [|x r IH]; [congruence|]. intros lead Hlead.
  inversion H as [|? ? (Hx & Ht & Hsep) Hr]; subst.
  destruct r as [|y r].
  - cbn [joinWith]. rewrite splitWhen_plain.
    + cbn [map filter].
      assert (E : trim (lead ++ x) = x).
      { pose proof (trim_padded lead x [] Hlead (fun z (Hz : In z []) =>
                                                   match Hz with end)
                                Hx Ht) as E.
        rewrite app_nil_r in E. exact E. }
      rewrite E. destruct x; [congruence | reflexivity].
    + intros z Hz. apply in_app_or in Hz as [Hz|Hz];
        [apply space_not_listSep, Hlead, Hz | apply Hsep, Hz].
  - rewrite joinWith_cons.
    replace (lead ++ x ++ (pre ++ c :: post) ++ joinWith (pre ++ c :: post) (y :: r))
      with ((lead ++ x ++ pre) ++ c :: (post ++ joinWith (pre ++ c :: post) (y :: r)))
      by (rewrite <- !app_assoc; reflexivity).
    rewrite splitWhen_app_sep; [| |exact Hc].
    + cbn [map filter].
      rewrite (trim_padded lead x pre Hlead Hpre Hx Ht).
      destruct x as [|x0 x']; [congruence|]. cbn [truthy]. f_equal.
      apply IH; [discriminate | exact Hr | exact Hpost].
    + intros z Hz. apply in_app_or in Hz as [Hz|Hz];
        [apply space_not_listSep, Hlead, Hz|].
      apply in_app_or in Hz as [Hz|Hz];
        [apply Hsep, Hz | apply space_not_listSep, Hpre, Hz].
Qed.

(** X19.  Every entry [splitList] returns is not empty, is trimmed and
    holds no separator; a cell that is empty, blank or [null] gives no entry.
    Entries of that kind, joined by one of the separators [;], [,], [|]
    with any white space around it, are read back as they were. *)
Theorem splitList_entries :
  (forall v e, In e (splitList v) -> listEntry e)
  /\ (forall v, trim (cellText v) = [] -> splitList v = [])
  /\ splitList CNull = []
  /\ (forall pre c post xs,
        blankText pre -> blankText post -> is_listSep c = true ->
        xs <> [] -> Forall listEntry xs ->
        splitList (CStr (joinWith (pre ++ c :: post) xs)) = xs)
  /\ splitList (CStr (js " News; Tech ,,Business | ")) 
     = [js "News"; js "Tech"; js "Business"].
Proof.
  split; [|split; [|split; [reflexivity|split; [|reflexivity]]]].
  - intros v e H. unfold splitList in H. cbv zeta in H.
    destruct (negb (truthy (trim (cellText v)))); [destruct H|].
    apply filter_In in H as [H Ht]. apply in_map_iff in H as (w & <- & Hw).
    split; [intros E; rewrite E in Ht; discriminate|].
    split; [apply trim_idem|].
    intros c Hc. apply trim_In in Hc.
    apply (splitWhen_no_sep is_listSep _ w c Hw Hc).
  - intros v H. unfold splitList. cbv zeta. rewrite H. reflexivity.
  - intros pre c post xs Hpre Hpost Hc Hne H.
    unfold splitList. cbv zeta. cbn [cellText].
    rewrite (joinWith_trimmed _ xs Hne H).
    destruct (joinWith (pre ++ c :: post) xs) eqn:E;
      [exfalso; apply (joinWith_not_nil _ xs Hne H E)|].
    cbn [truthy negb]. rewrite <- E.
    apply (split_joined pre c post [] xs); try assumption. intros z [].
Qed.

Lemma splitList_entries_witness :
  let xs := [js "Real Estate"; js "Tech"; js "News"] in
  Forall listEntry xs
  /\ splitList (CStr (joinWith (js " , ") xs)) = xs
  /\ joinWith (js " , ") xs = js "Real Estate , Tech , News".
Proof.
  intros xs.
  assert (H : Forall listEntry xs).
  { repeat constructor; try discriminate;
      intros c Hc; repeat (destruct Hc as [<-|Hc]; [reflexivity|]);
      destruct Hc. }
  destruct splitList_entries as (_ & _ & _ & Hr & _).
  split; [exact H|]. split; [|reflexivity].
  apply (Hr [space] ","%char [space] xs); try assumption;
    try reflexivity; try discriminate;
    intros c [<-|[]]; reflexivity.
Defined.

(** ** Reading a row *)

Lemma usable_not_blank v :
  usable (Own v) = true -> v <> CNull /\ trim (cellText v) <> [].
Proof.
  destruct v as [|b|z|s]; cbn [usable]; [discriminate| | |];
    intros H; (split; [discriminate|]); intros E; rewrite E in H;
    discriminate.
Qed.

Lemma pick_first row pre k post :
  (forall k', In k' pre -> usable (row_read row k') = false) ->
  usable (row_read row k) = true ->
  pick row (pre ++ k :: post) = row_read row k.
Proof.
  intros Hpre Hk. induction pre as [|x pre IH]; cbn [app pick].
  - rewrite Hk. reflexivity.
  - rewrite (Hpre x (or_introl eq_refl)). apply IH.
    intros y Hy. apply Hpre. right. exact Hy.
Qed.

Lemma pick_none row keys :
  pick row keys = Undefined
  <-> forall k, In k keys -> usable (row_read row k) = false.
Proof.
  induction keys as [|x keys IH]; cbn [pick].
  - split; [intros _ k [] | reflexivity].
  - destruct (usable (row_read row x)) eqn:E.
    + split.
      * intros H. rewrite H in E. discriminate.
      * intros H. rewrite (H x (or_introl eq_refl)) in E. discriminate.
    + rewrite IH. split.
      * intros H k [<-|Hk]; [exact E | apply H, Hk].
      * intros H k Hk. apply H. right. exact Hk.
Qed.

Lemma pick_found row keys :
  pick row keys <> Undefined ->
  exists pre k post,
    keys = pre ++ k :: post /\ row_read row k = pick row keys
    /\ usable (pick row keys) = true
    /\ forall k', In k' pre -> usable (row_read row k') = false.
Proof.
  induction keys as [|x keys IH]; cbn [pick]; [congruence|].
  destruct (usable (row_read row x)) eqn:E.
  - intros _. exists [], x, keys.
    repeat split; [exact E | intros k' []].
  - intros H. destruct (IH H) as (pre & k & post & -> & Hg & Hu & Hpre).
    exists (x :: pre), k, post. repeat split; try assumption.
    intros k' [<-|Hk']; [exact E | apply Hpre, Hk'].
Qed.

(** X20.  [pick] returns the value of the first of the keys whose value is
    there, is not [null] and is not blank, and [undefined] when there is no
    such key; a cell it returns is never [null] nor blank.  A key that the
    row does not have and [Object.prototype] defines reads the inherited
    member, and that counts as a value. *)
Theorem pick_first_usable row :
  (forall keys x, pick row keys = x -> x <> Undefined ->
     exists pre k post,
       keys = pre ++ k :: post /\ row_read row k = x
       /\ (forall k', In k' pre -> usable (row_read row k') = false))
  /\ (forall keys v, pick row keys = Own v ->
        v <> CNull /\ trim (cellText v) <> [])
  /\ (forall pre k post,
        (forall k', In k' pre -> usable (row_read row k') = false) ->
        usable (row_read row k) = true ->
        pick row (pre ++ k :: post) = row_read row k)
  /\ (forall keys, pick row keys = Undefined
                   <-> forall k, In k keys -> usable (row_read row k) = false)
  /\ (forall k rest, row_get row k = None -> In k protoKeys ->
        pick row (k :: rest) = Inherited k).
Proof.
  split; [|split; [|split; [apply pick_first | split; [apply pick_none|]]]].
  - intros keys x <- H.
    destruct (pick_found row keys H) as (pre & k & post & E & Hg & _ & Hp).
    exists pre, k, post. auto.
  - intros keys v H.
    assert (Hn : pick row keys <> Undefined) by (rewrite H; discriminate).
    destruct (pick_found row keys Hn) as (_ & _ & _ & _ & _ & Hu & _).
    rewrite H in Hu. apply usable_not_blank, Hu.
  - intros k rest Hk Hin. cbn [pick]. unfold row_read. rewrite Hk.
    apply arr_includes_In in Hin. rewrite Hin. reflexivity.
Qed.

Lemma pick_first_usable_witness :
  let row := [(js "price", CStr (js "  ")); (js "cost", CNull);
              (js "rate", CInt (safe 250)); (js "usd", CInt (safe 300))] in
  pick row [js "price"; js "cost"; js "rate"; js "usd"; js "price_usd"]
  = Own (CInt (safe 250))
  /\ CInt (safe 250) <> CNull
  /\ pick row [js "price"; js "cost"; js "fee"] = Undefined
  /\ pick row [js "cost"; js "constructor"] = Inherited (js "constructor").
Proof.
  intros row.
  destruct (pick_first_usable row) as (_ & H2 & H3 & _).
  assert (E : pick row [js "price"; js "cost"; js "rate"; js "usd";
                        js "price_usd"] = Own (CInt (safe 250))).
  { apply (H3 [js "price"; js "cost"] (js "rate")
              [js "usd"; js "price_usd"]); [|reflexivity].
    intros k' [<-|[<-|[]]]; reflexivity. }
  split; [exact E|]. split; [apply (H2 _ _ E)|]. split; reflexivity.
Defined.

(** *** Assignments to a row *)

Lemma row_get_set r k v k' :
  row_get (row_set r k v) k'
  = if str_eqb k k' then Some v else row_get r k'.
Proof.
  induction r as [|[k0 v0] r IH]; cbn [row_set row_get]; [reflexivity|].
  destruct (str_eqb k0 k) eqn:E0; cbn [row_get].
  - apply str_eqb_eq in E0. subst k0.
    destruct (str_eqb k k'); reflexivity.
  - rewrite IH. destruct (str_eqb k0 k') eqn:E1; [|reflexivity].
    apply str_eqb_eq in E1. subst k'. rewrite str_eqb_sym, E0. reflexivity.
Qed.

Lemma row_set_keys r k v :
  map fst (row_set r k v)
  = if existsb (fun e => str_eqb (fst e) k) r then map fst r
    else map fst r ++ [k].
Proof.
  induction r as [|[k0 v0] r IH]; cbn [row_set existsb map fst app];
    [reflexivity|].
  destruct (str_eqb k0 k) eqn:E0; cbn [orb map fst]; [reflexivity|].
  rewrite IH. destruct (existsb (fun e => str_eqb (fst e) k) r); reflexivity.
Qed.

Definition normStep (out : Row) (e : jsstring * Cell) : Row :=
  row_set out (normKey (fst e)) (snd e).

Lemma fold_normStep_last es e acc :
  fold_left normStep (es ++ [e]) acc = normStep (fold_left normStep es acc) e.
Proof. rewrite fold_left_app. reflexivity. Qed.

(** Of the entries written, the last one for a key is the one read. *)
Lemma fold_normStep_get pre h v post acc :
  (forall e, In e post -> normKey (fst e) <> normKey h) ->
  row_get (fold_left normStep (pre ++ (h, v) :: post) acc) (normKey h)
  = Some v.
Proof.
  induction post as [|e post IH] using rev_ind; intros Hpost.
  - rewrite fold_normStep_last. unfold normStep at 1. cbn [fst snd].
    rewrite row_get_set, str_eqb_refl. reflexivity.
  - replace (pre ++ (h, v) :: post ++ [e])
      with ((pre ++ (h, v) :: post) ++ [e])
      by (rewrite <- app_assoc; reflexivity).
    rewrite fold_normStep_last. unfold normStep at 1.
    rewrite row_get_set, str_eqb_neq.
    + apply IH. intros x Hx. apply Hpost, in_or_app. left. exact Hx.
    + apply Hpost, in_or_app. right. left. reflexivity.
Qed.

Lemma fold_normStep_none es acc k :
  row_get (fold_left normStep es acc) k = None
  <-> row_get acc k = None /\ forall e, In e es -> normKey (fst e) <> k.
Proof.
  induction es as [|e es IH] using rev_ind.
  - cbn [fold_left]. split; [intros H; split; [exact H | intros e []]|].
    intros [H _]. exact H.
  - rewrite fold_normStep_last. unfold normStep at 1. rewrite row_get_set.
    destruct (str_eqb (normKey (fst e)) k) eqn:E.
    + apply str_eqb_eq in E. split; [discriminate|].
      intros [_ H]. exfalso. apply (H e); [|exact E].
      apply in_or_app. right. left. reflexivity.
    + rewrite IH. split; intros [Ha H]; (split; [exact Ha|]).
      * intros x Hx. apply in_app_or in Hx as [Hx|[<-|[]]]; [apply H, Hx|].
        intros E'. rewrite E', str_eqb_refl in E. discriminate.
      * intros x Hx. apply H, in_or_app. left. exact Hx.
Qed.

(** *** The order of the entries *)

Lemma filter_partition_perm {A} (f : A -> bool) l :
  Permutation (filter f l ++ filter (fun x => negb (f x)) l) l.
Proof.
  induction l as [|x r IH]; [reflexivity|]. cbn [filter].
  destruct (f x); cbn [negb app].
  - constructor. exact IH.
  - rewrite <- Permutation_middle. constructor. exact IH.
Qed.

Lemma entries_perm r : Permutation (entries r) r.
Proof.
  unfold entries. rewrite sort_perm. apply filter_partition_perm.
Qed.

Lemma entries_In r e : In e (entries r) <-> In e r.
Proof.
  split; apply Permutation_in; [|symmetry]; apply entries_perm.
Qed.

Lemma entries_indices_sorted r :
  StronglySorted (fun a b => (digitsValue (fst a) <= digitsValue (fst b))%Z)
    (sort (fun a b => digitsValue (fst a) - digitsValue (fst b))%Z
          (filter indexed_key r)).
Proof.
  apply sort_sorted.
  - intros x y z. apply Z.le_trans.
  - intros x y H. apply Z.ltb_lt in H. lia.
  - intros x y H. apply Z.ltb_ge in H. lia.
Qed.

(** A header that is not an array index is read after every header before
    it and after every array index. *)
Lemma entries_split c1 h v c2 :
  is_index h = false ->
  exists pre,
    entries (c1 ++ (h, v) :: c2)
    = pre ++ (h, v) :: filter (fun e => negb (indexed_key e)) c2.
Proof.
  intros Hh. assert (E : indexed_key (h, v) = false) by exact Hh.
  unfold entries. rewrite !filter_app. cbn [filter]. rewrite E. cbn [negb].
  eexists. rewrite app_assoc. reflexivity.
Qed.

Lemma normKey_not_proto k : normKey k <> js "__proto__".
Proof.
  intros E.
  destruct (underscored_shape (replacePercent (toLowerCase (trim k))))
    as [Hk _].
  change (stripUnderscores _) with (normKey k) in Hk. rewrite E in Hk.
  discriminate Hk.
Qed.

(** X21.  The headers of a row are normalised in the order in which
    [Object.entries] lists them: the headers that are array indices first,
    in ascending order, then the others in the order of the columns.  A
    value is read under the normalised form of its header, whatever the
    spelling of the header in the sheet; of the headers that normalise to
    one key the one listed last is read, so of two such columns whose
    headers are no array indices the later one.  The keys of the
    normalised row are the normalised headers, and a key that no header
    normalises to reads the member of [Object.prototype] of that name when
    there is one, [undefined] otherwise.  No header normalises to
    [__proto__], so every assignment creates or updates a property of the
    row itself. *)
Theorem normalizeRow_lookup :
  (forall r pre h v post,
     entries r = pre ++ (h, v) :: post ->
     (forall e, In e post -> normKey (fst e) <> normKey h) ->
     row_read (normalizeRow r) (normKey h) = Own v)
  /\ (forall c1 h v c2,
        is_index h = false ->
        (forall e, In e c2 -> is_index (fst e) = false ->
                   normKey (fst e) <> normKey h) ->
        row_read (normalizeRow (c1 ++ (h, v) :: c2)) (normKey h) = Own v)
  /\ (forall r k,
        row_get (normalizeRow r) k = None
        <-> forall e, In e r -> normKey (fst e) <> k)
  /\ (forall r k,
        (forall e, In e r -> normKey (fst e) <> k) ->
        row_read (normalizeRow r) k
        = if arr_includes protoKeys k then Inherited k else Undefined)
  /\ (forall r,
        Permutation (entries r) r
        /\ exists idx,
             entries r = idx ++ filter (fun e => negb (indexed_key e)) r
             /\ Forall (fun e => is_index (fst e) = true) idx
             /\ StronglySorted
                  (fun a b => (digitsValue (fst a) <= digitsValue (fst b))%Z)
                  idx)
  /\ (forall h, normKey h <> js "__proto__")
  /\ row_read (normalizeRow [(js "1 ", CStr (js "first column"));
                             (js "1", CStr (js "second column"))])
              (js "1")
     = Own (CStr (js "first column"))
  /\ row_read (normalizeRow [(js "Price", CInt (safe 3000))])
              (js "constructor")
     = Inherited (js "constructor")
  /\ pick (normalizeRow [(js "NAME OF PUBLICATION", CStr (js "Wired"));
                         (js "Price (USD)", CInt (safe 3000));
                         (js "price usd", CStr (js "$2,500"))])
          [js "price"; js "cost"; js "rate"; js "usd"; js "price_usd"]
     = Own (CStr (js "$2,500")).
Proof.
  assert (H1 : forall r pre h v post,
     entries r = pre ++ (h, v) :: post ->
     (forall e, In e post -> normKey (fst e) <> normKey h) ->
     row_read (normalizeRow r) (normKey h) = Own v).
  { intros r pre h v post E Hpost. unfold row_read, normalizeRow.
    rewrite E. change (fun out e => row_set out (normKey (fst e)) (snd e))
      with normStep.
    rewrite (fold_normStep_get pre h v post [] Hpost). reflexivity. }
  assert (H3 : forall r k,
        row_get (normalizeRow r) k = None
        <-> forall e, In e r -> normKey (fst e) <> k).
  { intros r k. unfold normalizeRow.
    change (fun out e => row_set out (normKey (fst e)) (snd e))
      with normStep.
    rewrite fold_normStep_none. cbn [row_get]. split.
    - intros [_ H] e He. apply H, entries_In, He.
    - intros H. split; [reflexivity|]. intros e He.
      apply H, entries_In, He. }
  split; [exact H1|]. split; [|split; [exact H3|split; [|split; [|split]]]].
  - intros c1 h v c2 Hh Hc2.
    destruct (entries_split c1 h v c2 Hh) as (pre & E).
    apply (H1 _ pre h v _ E).
    intros e He. apply filter_In in He as [He Hi].
    apply Hc2; [exact He|]. apply negb_true_iff in Hi. exact Hi.
  - intros r k H. unfold row_read.
    rewrite (proj2 (H3 r k) H). reflexivity.
  - intros r. split; [apply entries_perm|].
    eexists. split; [reflexivity|]. split.
    + apply Forall_forall. intros e He. apply sort_In in He.
      apply filter_In in He. apply He.
    + apply entries_indices_sorted.
  - apply normKey_not_proto.
  - repeat split.
Qed.

Lemma normalizeRow_lookup_witness :
  let r := [(js "Region", CStr (js "UK"));
            (js " REGION ", CStr (js "USA"));
            (js "7", CStr (js "seven"));
            (js "TAT", CStr (js "3 days"))] in
  is_index (js " REGION ") = false
  /\ entries r = [(js "7", CStr (js "seven"));
                  (js "Region", CStr (js "UK"));
                  (js " REGION ", CStr (js "USA"));
                  (js "TAT", CStr (js "3 days"))]
  /\ row_read (normalizeRow r) (normKey (js " REGION "))
     = Own (CStr (js "USA"))
  /\ normKey (js " REGION ") = js "region".
Proof.
  intros r.
  destruct normalizeRow_lookup as (_ & H & _).
  split; [reflexivity|]. split; [reflexivity|]. split; [|reflexivity].
  apply (H [(js "Region", CStr (js "UK"))] (js " REGION ")
           (CStr (js "USA"))
           [(js "7", CStr (js "seven")); (js "TAT", CStr (js "3 days"))]);
    [reflexivity|].
  intros e [<-|[<-|[]]]; discriminate.
Defined.

(** ** Booleans of the sheet *)

Lemma toLowerCase_idem s : toLowerCase (toLowerCase s) = toLowerCase s.
Proof.
  unfold toLowerCase. rewrite map_map. apply map_ext.
  intros c. apply lower_char_idem.
Qed.

Lemma trimStart_lower s :
  trimStart (toLowerCase s) = toLowerCase (trimStart s).
Proof.
  induction s as [|c r IH]; [reflexivity|].
  cbn [toLowerCase map trimStart] in *. rewrite lower_char_space.
  destruct (is_space c); [exact IH | reflexivity].
Qed.

Lemma trimEnd_lower s : trimEnd (toLowerCase s) = toLowerCase (trimEnd s).
Proof.
  induction s as [|c r IH]; [reflexivity|].
  change (toLowerCase (c :: r)) with (lower_char c :: toLowerCase r).
  rewrite !trimEnd_cons, IH, lower_char_space.
  destruct (trimEnd r) as [|x r']; [|reflexivity].
  cbn [toLowerCase map]. destruct (is_space c); reflexivity.
Qed.

Lemma trim_lower s : trim (toLowerCase s) = toLowerCase (trim s).
Proof. unfold trim. rewrite trimStart_lower, trimEnd_lower. reflexivity. Qed.

(** X22.  [toBool] passes a boolean through; otherwise it reads the text,
    trimmed and in any letter case: the spellings of "do follow" and the
    words yes, y, true, 1, paid, check and checked are true, and everything
    else, the spellings of "no follow", the empty text and [null] among
    it, is false. *)
Theorem toBool_reads_text :
  (forall b, toBool (CBool b) = b)
  /\ toBool CNull = false
  /\ (forall s,
        toBool (CStr s) = true
        <-> In (toLowerCase (trim s))
               [js "do-follow"; js "do follow"; js "dofollow";
                js "do_follow"; js "yes"; js "y"; js "true"; js "1";
                js "paid"; js "check"; js "checked"])
  /\ (forall s, toBool (CStr (trim s)) = toBool (CStr s)
                /\ toBool (CStr (toLowerCase s)) = toBool (CStr s))
  /\ (forall s, In (toLowerCase (trim s))
                   [js "no-follow"; js "no follow"; js "nofollow";
                    js "no_follow"] ->
                toBool (CStr s) = false)
  /\ toBool (CInt (safe 1)) = true /\ toBool (CInt (safe 0)) = false
  /\ toBool (CStr (js "  Do-Follow ")) = true.
Proof.
  split; [reflexivity|]. split; [reflexivity|].
  assert (Hiff : forall s,
        toBool (CStr s) = true
        <-> In (toLowerCase (trim s))
               [js "do-follow"; js "do follow"; js "dofollow";
                js "do_follow"; js "yes"; js "y"; js "true"; js "1";
                js "paid"; js "check"; js "checked"]).
  { intros s. unfold toBool. cbv zeta. cbn [cellText].
    set (t := toLowerCase (trim s)).
    set (noL := [js "no-follow"; js "no follow"; js "nofollow";
                 js "no_follow"; js "nofollow"]).
    set (doL := [js "do-follow"; js "do follow"; js "dofollow";
                 js "do_follow"; js "dofollow"]).
    set (yesL := [js "yes"; js "y"; js "true"; js "1"; js "paid";
                  js "check"; js "checked"]).
    destruct (truthy t) eqn:Et; cbn [negb].
    - destruct (arr_includes noL t) eqn:E1.
      + apply arr_includes_In in E1. split; [discriminate|].
        intros H. exfalso. unfold noL in E1.
        repeat (destruct E1 as [E1|E1];
                [rewrite <- E1 in H;
                 repeat (destruct H as [H|H]; [discriminate H|]);
                 destruct H|]).
        destruct E1.
      + destruct (arr_includes doL t) eqn:E2.
        * apply arr_includes_In in E2. split; [|reflexivity]. intros _.
          unfold doL in E2. cbn [In] in *. tauto.
        * rewrite arr_includes_In. unfold yesL. split.
          -- intros H. cbn [In] in *. tauto.
          -- intros H. cbn [In] in H |- *.
             destruct H as [H|[H|[H|[H|H]]]];
               try (rewrite <- not_true_iff_false, arr_includes_In in E2;
                    exfalso; apply E2; unfold doL; cbn [In]; tauto).
             exact H.
    - destruct t; [|discriminate]. split; [discriminate|].
      intros H. repeat (destruct H as [H|H]; [discriminate H|]). destruct H. }
  split; [exact Hiff|]. split; [|split; [|repeat split]].
  - intros s. split; apply bool_eq_iff; rewrite !Hiff.
    + rewrite trim_idem. reflexivity.
    + rewrite trim_lower, toLowerCase_idem. reflexivity.
  - intros s H. apply not_true_iff_false. rewrite Hiff. intros H'.
    repeat (destruct H as [H|H];
            [rewrite <- H in H';
             repeat (destruct H' as [H'|H']; [discriminate H'|]);
             destruct H'|]).
    destruct H.
Qed.

Lemma toBool_reads_text_witness :
  In (toLowerCase (trim (js " No Follow")))
     [js "no-follow"; js "no follow"; js "nofollow"; js "no_follow"]
  /\ toBool (CStr (js " No Follow")) = false.
Proof.
  destruct toBool_reads_text as (_ & _ & _ & _ & H & _).
  assert (Hin : In (toLowerCase (trim (js " No Follow")))
                   [js "no-follow"; js "no follow"; js "nofollow";
                    js "no_follow"]) by (right; left; reflexivity).
  split; [exact Hin | apply H, Hin].
Defined.
